(** * Maze search (week-0/maze0.py): frontier, nodes and the solve loop

    A shallow embedding of [BaseFrontier], [StackFrontier], [QueueFrontier],
    [Node] and [Maze] from [week-0/maze0.py], and the properties of the
    search that the specification states about them.

    Python integers are [Z]; Python lists are [list] with Python's
    subscript rules (negative subscripts count from the end, a subscript
    out of range raises [IndexError]); exceptions are the [Raise] results
    of a small error monad.  The [while] loop of [Maze.solve] runs on
    fuel: one unit per iteration. *)

From Stdlib Require Import String Ascii ZArith List Bool Lia Arith Permutation.
Import ListNotations.
Local Open Scope Z_scope.

(** ** Exceptions *)

(** Which subscript expression raised the [IndexError]. *)
Inductive site : Type :=
| PendingList   (* self.nodes[-1] / self.nodes[0] in remove *)
| GridCell      (* self.maze_arr[x][y] *)
| PointTuple    (* self.start_point[0] / [1] *)
| NameParts.    (* filename[0] / filename[1] in write_solved_maze_file *)

Inductive exn : Type :=
| IndexError (s : site)
| AttributeError              (* None has no attribute 'state' *)
| ConfigError (msg : string)  (* raise Exception(msg) *)
| OSError                     (* FileNotFoundError, PermissionError, ... *)
| ValueError                  (* unknown file extension, UnicodeDecodeError *)
| OutOfFuel.                  (* the model's loop ran out of fuel *)

Inductive result (A : Type) : Type :=
| Ok (a : A)
| Raise (e : exn).
Arguments Ok {A} a.
Arguments Raise {A} e.

Definition bind {A B} (r : result A) (k : A -> result B) : result B :=
  match r with
  | Ok a => k a
  | Raise e => Raise e
  end.

Declare Scope py_scope.
Delimit Scope py_scope with py.
Notation "x <- c ;; k" := (bind c (fun x => k))
  (at level 100, c at next level, right associativity) : py_scope.
Notation "' p <- c ;; k" := (bind c (fun p => k))
  (at level 100, p pattern, c at next level, right associativity) : py_scope.
Local Open Scope py_scope.

(** ** Python list subscripts *)

Definition len {A} (l : list A) : Z := Z.of_nat (length l).

(** The position a subscript [i] denotes in a list of length [n]. *)
Definition py_index (n i : Z) : option nat :=
  if (0 <=? i) && (i <? n) then Some (Z.to_nat i)
  else if (i <? 0) && (0 <=? n + i) then Some (Z.to_nat (n + i))
  else None.

(** [l[i]] *)
Definition subscript {A} (s : site) (l : list A) (i : Z) : result A :=
  match py_index (len l) i with
  | Some k =>
      match nth_error l k with
      | Some a => Ok a
      | None => Raise (IndexError s)
      end
  | None => Raise (IndexError s)
  end.

Fixpoint replace_nth {A} (k : nat) (l : list A) (v : A) : list A :=
  match l, k with
  | [], _ => []
  | _ :: t, O => v :: t
  | h :: t, S k' => h :: replace_nth k' t v
  end.

(** [l[i] = v] *)
Definition store {A} (s : site) (l : list A) (i : Z) (v : A) : result (list A) :=
  match py_index (len l) i with
  | Some k => Ok (replace_nth k l v)
  | None => Raise (IndexError s)
  end.

(** ** Node *)

#[local] Set Warnings "-register-all".

Inductive Movement : Type := UP | LEFT | DOWN | RIGHT.

Inductive Node : Type :=
  mkNode { node_state : ascii;
           node_parent : option Node;
           node_x : Z;
           node_y : Z;
           node_action : option Movement }.

(** [Node.__eq__]: coordinates only. *)
Definition node_eqb (a b : Node) : bool :=
  (node_x a =? node_x b) && (node_y a =? node_y b).

Definition coord : Type := (Z * Z)%type.
Definition node_coord (n : Node) : coord := (node_x n, node_y n).

(** ** Frontiers *)

Inductive discipline : Type := StackFrontier | QueueFrontier.

Record Frontier : Type :=
  mkFrontier { kind : discipline;
               nodes : list Node;
               explored_nodes : list Node }.

(** [BaseFrontier.__init__] *)
Definition new_frontier (k : discipline) : Frontier :=
  {| kind := k; nodes := []; explored_nodes := [] |}.

(** [node in l] *)
Definition contains (node : Node) (l : list Node) : bool :=
  existsb (fun e => node_eqb e node) l.

(** [BaseFrontier.add] *)
Definition add (f : Frontier) (node : Node) : Frontier :=
  if negb (contains node (nodes f)) && negb (contains node (explored_nodes f))
  then {| kind := kind f;
          nodes := nodes f ++ [node];
          explored_nodes := explored_nodes f |}
  else f.

(** [BaseFrontier.is_empty] *)
Definition is_empty (f : Frontier) : bool := len (nodes f) =? 0.

(** [StackFrontier.remove] and [QueueFrontier.remove] *)
Definition remove (f : Frontier) : result (Node * Frontier) :=
  match kind f with
  | StackFrontier =>
      node <- subscript PendingList (nodes f) (-1) ;;
      Ok (node, {| kind := kind f;
                   nodes := removelast (nodes f);            (* nodes[:-1] *)
                   explored_nodes := explored_nodes f ++ [node] |})
  | QueueFrontier =>
      node <- subscript PendingList (nodes f) 0 ;;
      Ok (node, {| kind := kind f;
                   nodes := tl (nodes f);                    (* nodes[1:] *)
                   explored_nodes := explored_nodes f ++ [node] |})
  end.

(** ** Maze *)

Definition grid : Type := list (list ascii).

Definition START : ascii := "A"%char.
Definition TARGET : ascii := "B"%char.
Definition WALL : ascii := "#"%char.
Definition OPEN : ascii := " "%char.
Definition EXPLORED : ascii := "/"%char.
Definition PATH : ascii := "*"%char.

(** [start_point] and [end_point] are the empty tuple ([None]) or a pair. *)
Record Maze : Type :=
  mkMaze { maze_arr : grid;
           start_point : option coord;
           end_point : option coord;
           rows_count : Z;
           cells_count : Z;
           steps : Z }.

Definition tuple_len (t : option coord) : Z :=
  match t with
  | None => 0
  | Some _ => 2
  end.

(** [arr[x][y]] *)
Definition get_cell (arr : grid) (x y : Z) : result ascii :=
  row <- subscript GridCell arr x ;;
  subscript GridCell row y.

(** [arr[x][y] = v]: the row object is updated in place. *)
Definition set_cell (arr : grid) (x y : Z) (v : ascii) : result grid :=
  row <- subscript GridCell arr x ;;
  row' <- store GridCell row y v ;;
  store GridCell arr x row'.

(** [Maze._get_start_end_points]: the two nested [enumerate] loops. *)
Definition scan_cell (i j : Z) (acc : option coord * option coord) (cell : ascii)
  : option coord * option coord :=
  if Ascii.eqb cell START then (Some (i, j), snd acc)
  else if Ascii.eqb cell TARGET then (fst acc, Some (i, j))
  else acc.

Fixpoint scan_row (i j : Z) (row : list ascii) (acc : option coord * option coord)
  : option coord * option coord :=
  match row with
  | [] => acc
  | cell :: rest => scan_row i (j + 1) rest (scan_cell i j acc cell)
  end.

Fixpoint scan_rows (i : Z) (rows : grid) (acc : option coord * option coord)
  : option coord * option coord :=
  match rows with
  | [] => acc
  | row :: rest => scan_rows (i + 1) rest (scan_row i 0 row acc)
  end.

Definition _get_start_end_points (arr : grid) : option coord * option coord :=
  scan_rows 0 arr (None, None).

(** [Maze._validate_maze_points] *)
Definition _validate_maze_points (arr : grid) (sp ep : option coord) : result unit :=
  if len arr <? 1 then Raise (ConfigError "Maze is empty")
  else
    row0 <- subscript GridCell arr 0 ;;
    if existsb (fun row => negb (len row =? len row0)) arr
    then Raise (ConfigError "Maze rows must have the same number of cells")
    else if negb (tuple_len ep =? 2) || negb (tuple_len sp =? 2)
         then Raise (ConfigError "Maze doesn't contain start and end points")
         else Ok tt.

(** [Maze.__init__], from the list of character lists that
    [_parse_maze_file] reads. *)
Definition Maze_init (arr : grid) : result Maze :=
  let '(sp, ep) := _get_start_end_points arr in
  _ <- _validate_maze_points arr sp ep ;;
  row0 <- subscript GridCell arr 0 ;;
  Ok {| maze_arr := arr;
        start_point := sp;
        end_point := ep;
        rows_count := len arr;
        cells_count := len row0;
        steps := 0 |}.

(** [Maze._get_state] *)
Definition _get_state (m : Maze) (x y : Z) : result ascii :=
  get_cell (maze_arr m) x y.

(** [Maze._next_cell] *)
Definition _next_cell (m : Maze) (x y : Z) (movement : Movement)
  : result (option coord) :=
  match movement with
  | UP =>
      let x := x - 1 in
      if x <? 0 then Ok None
      else c <- get_cell (maze_arr m) x y ;;
           if Ascii.eqb c WALL then Ok None else Ok (Some (x, y))
  | DOWN =>
      let x := x + 1 in
      if x >=? rows_count m then Ok None
      else c <- get_cell (maze_arr m) x y ;;
           if Ascii.eqb c WALL then Ok None else Ok (Some (x, y))
  | LEFT =>
      let y := y - 1 in
      if y <? 0 then Ok None
      else c <- get_cell (maze_arr m) x y ;;
           if Ascii.eqb c WALL then Ok None else Ok (Some (x, y))
  | RIGHT =>
      let y := y + 1 in
      if y >=? cells_count m then Ok None
      else c <- get_cell (maze_arr m) x y ;;
           if Ascii.eqb c WALL then Ok None else Ok (Some (x, y))
  end.

Definition movements : list Movement := [UP; LEFT; DOWN; RIGHT].

(** [Maze._get_neighbors]: the loop over [movements], appending to
    [availabe_nodes]. *)
Fixpoint neighbors_loop (m : Maze) (node : Node) (mvs : list Movement)
    (availabe_nodes : list Node) : result (list Node) :=
  match mvs with
  | [] => Ok availabe_nodes
  | movement :: rest =>
      coords <- _next_cell m (node_x node) (node_y node) movement ;;
      match coords with
      | Some (x, y) =>
          st <- _get_state m x y ;;
          let new_node := {| node_state := st;
                             node_parent := Some node;
                             node_x := x;
                             node_y := y;
                             node_action := Some movement |} in
          neighbors_loop m node rest (availabe_nodes ++ [new_node])
      | None => neighbors_loop m node rest availabe_nodes
      end
  end.

Definition _get_neighbors (m : Maze) (node : Node) : result (list Node) :=
  neighbors_loop m node movements [].

(** [Maze._apply_solution]: the [while] loop, from [node.parent] on. *)
Fixpoint mark_path (arr : grid) (node : Node) : result grid :=
  if negb (Ascii.eqb (node_state node) START) then
    arr' <- set_cell arr (node_x node) (node_y node) PATH ;;
    match node_parent node with
    | Some p => mark_path arr' p
    | None => Raise AttributeError
    end
  else Ok arr.

Definition _apply_solution (m : Maze) (node : Node) : result Maze :=
  match node_parent node with
  | Some p =>
      arr <- mark_path (maze_arr m) p ;;
      Ok {| maze_arr := arr;
            start_point := start_point m;
            end_point := end_point m;
            rows_count := rows_count m;
            cells_count := cells_count m;
            steps := steps m |}
  | None => Raise AttributeError
  end.

Definition set_maze_arr (m : Maze) (arr : grid) : Maze :=
  {| maze_arr := arr;
     start_point := start_point m;
     end_point := end_point m;
     rows_count := rows_count m;
     cells_count := cells_count m;
     steps := steps m |}.

Definition incr_steps (m : Maze) : Maze :=
  {| maze_arr := maze_arr m;
     start_point := start_point m;
     end_point := end_point m;
     rows_count := rows_count m;
     cells_count := cells_count m;
     steps := steps m + 1 |}.

(** Lines 132-134 of [Maze.solve]: count the step, pop a node, mark its
    cell as explored if it is open. *)
Definition pop_and_mark (m : Maze) (f : Frontier) : result (Node * Maze * Frontier) :=
  let m := incr_steps m in
  '(node, f) <- remove f ;;
  c <- get_cell (maze_arr m) (node_x node) (node_y node) ;;
  arr <- set_cell (maze_arr m) (node_x node) (node_y node)
           (if Ascii.eqb c OPEN then EXPLORED else c) ;;
  Ok (node, set_maze_arr m arr, f).

(** Lines 138-140: add the neighbours of [node] to the frontier. *)
Definition expand (m : Maze) (f : Frontier) (node : Node) : result Frontier :=
  new_nodes <- _get_neighbors m node ;;
  Ok (fold_left add new_nodes f).

(** The [while] loop of [Maze.solve], up to the point where it either
    finds the frontier empty ([None]) or pops a node whose state is the
    target ([Some node]: the node handed to [_apply_solution]). *)
Fixpoint solve_loop (fuel : nat) (m : Maze) (f : Frontier)
  : result (option Node * Maze * Frontier) :=
  if is_empty f then Ok (None, m, f)
  else
    match fuel with
    | O => Raise OutOfFuel
    | S fuel' =>
        '(node, m, f) <- pop_and_mark m f ;;
        if Ascii.eqb (node_state node) TARGET then Ok (Some node, m, f)
        else
          f <- expand m f node ;;
          solve_loop fuel' m f
    end.

(** The root node and the first [frontier.add] of [Maze.solve]. *)
Definition seed (m : Maze) (f : Frontier) : result (Node * Frontier) :=
  match start_point m with
  | Some (x, y) =>
      st <- get_cell (maze_arr m) x y ;;
      let node := {| node_state := st;
                     node_parent := None;
                     node_x := x;
                     node_y := y;
                     node_action := None |} in
      Ok (node, add f node)
  | None => Raise (IndexError PointTuple)
  end.

(** [Maze.solve] up to the end of its loop. *)
Definition search (fuel : nat) (m : Maze) (frontier : Frontier)
  : result (option Node * Maze * Frontier) :=
  '(_, f) <- seed m frontier ;;
  solve_loop fuel m f.

(** [Maze.solve]: the result, the maze and the frontier after the call. *)
Definition solve (fuel : nat) (m : Maze) (frontier : Frontier)
  : result (bool * Maze * Frontier) :=
  '(found, m, f) <- search fuel m frontier ;;
  match found with
  | Some node =>
      m <- _apply_solution m node ;;
      Ok (true, m, f)
  | None => Ok (false, m, f)
  end.

(** ** Sample grids *)

Definition row_of (s : string) : list ascii := list_ascii_of_string s.
Definition grid_of (rows : list string) : grid := map row_of rows.

Definition run (k : discipline) (rows : list string) :=
  m <- Maze_init (grid_of rows) ;;
  '(b, m, f) <- solve 100 m (new_frontier k) ;;
  Ok (b, steps m, map string_of_list_ascii (maze_arr m)).


(** ** Specification side: cells, validity, walks *)

(** The content of the cell at a coordinate inside the grid. *)
Definition cell (g : grid) (p : coord) : option ascii :=
  let '(x, y) := p in
  if (x <? 0) || (y <? 0) then None
  else match nth_error g (Z.to_nat x) with
       | Some row => nth_error row (Z.to_nat y)
       | None => None
       end.

Definition count_cells (c : ascii) (g : grid) : nat :=
  count_occ ascii_dec (concat g) c.

Definition rectangular (g : grid) : bool :=
  forallb (fun row => len row =? len (hd [] g)) g.

(** A valid grid: non-empty, rectangular, exactly one start cell and
    exactly one target cell. *)
Definition is_valid_grid (g : grid) : bool :=
  negb (len g <? 1) && rectangular g
  && (count_cells START g =? 1)%nat && (count_cells TARGET g =? 1)%nat.

Definition valid_grid (g : grid) : Prop := is_valid_grid g = true.

(** The four neighbours of a coordinate, in the order of [movements]. *)
Definition move (mv : Movement) (p : coord) : coord :=
  let '(x, y) := p in
  match mv with
  | UP => (x - 1, y)
  | LEFT => (x, y - 1)
  | DOWN => (x + 1, y)
  | RIGHT => (x, y + 1)
  end.

Definition adjacent (p q : coord) : Prop := exists mv, q = move mv p.

(** A cell of the grid that is not a wall. *)
Definition passable (g : grid) (p : coord) : Prop :=
  exists c, cell g p = Some c /\ c <> WALL.

(** [walk g s k p]: [p] is reached from [s] in [k] moves through non-wall
    cells of the 4-connected grid. *)
Inductive walk (g : grid) (s : coord) : nat -> coord -> Prop :=
| walk_here : walk g s O s
| walk_move : forall k p q,
    walk g s k p -> adjacent p q -> passable g q -> walk g s (S k) q.

Definition reachable (g : grid) (s t : coord) : Prop := exists k, walk g s k t.

(** [k] is the shortest-path distance from [s] to [t]. *)
Definition shortest (g : grid) (s t : coord) (k : nat) : Prop :=
  walk g s k t /\ forall k', walk g s k' t -> (k <= k')%nat.

(** Number of parent links above a node, and the nodes on its parent
    chain (the node first, the root last). *)
Fixpoint depth (n : Node) : nat :=
  match node_parent n with
  | Some p => S (depth p)
  | None => O
  end.

Fixpoint chain (n : Node) : list Node :=
  n :: match node_parent n with
       | Some p => chain p
       | None => []
       end.

(** The cell is rewritten by the explored-marking step, or kept. *)
Definition marked (c c' : ascii) : Prop :=
  c' = c \/ (c = OPEN /\ c' = EXPLORED).

Definition grid_rel (g g' : grid) : Prop :=
  forall p, match cell g p, cell g' p with
            | Some c, Some c' => marked c c'
            | None, None => True
            | _, _ => False
            end.

(** ** Loop invariants *)

Definition pops (f : Frontier) (u : Node) (rest : list Node) : Prop :=
  match kind f with
  | QueueFrontier => nodes f = u :: rest
  | StackFrontier => nodes f = rest ++ [u]
  end.

Definition coords (l : list Node) : list coord := map node_coord l.

Section Invariants.
(** [g0] is the grid when the loop starts, [R] and [C] its numbers of
    rows and columns, [s] the start coordinate. *)
Variable g0 : grid.
Variables R C : Z.
Variable s : coord.

Definition in_grid (p : coord) : Prop :=
  0 <= fst p < R /\ 0 <= snd p < C.

Definition bounds : Prop :=
  forall p, cell g0 p <> None <-> in_grid p.

Definition maze_ok (m : Maze) : Prop :=
  rows_count m = R /\ cells_count m = C /\ start_point m = Some s
  /\ grid_rel g0 (maze_arr m).

(** A node of the frontier sits on a non-wall cell, carries the state of
    that cell, and is the root or the child of an explored node. *)
Definition node_ok (E : list Node) (n : Node) : Prop :=
  (exists c, cell g0 (node_coord n) = Some c /\ c <> WALL
             /\ marked c (node_state n))
  /\ match node_parent n with
     | None => node_coord n = s
     | Some p => In p E /\ adjacent (node_coord p) (node_coord n)
     end.

Record inv (m : Maze) (f : Frontier) : Prop :=
  { inv_maze : maze_ok m;
    inv_nodup : NoDup (coords (explored_nodes f ++ nodes f));
    inv_node : forall n, In n (explored_nodes f ++ nodes f) ->
                         node_ok (explored_nodes f) n;
    inv_root : In s (coords (explored_nodes f ++ nodes f));
    inv_closed : forall u q, In u (explored_nodes f) ->
                   adjacent (node_coord u) q -> passable g0 q ->
                   In q (coords (explored_nodes f ++ nodes f));
    inv_nontarget : forall u, In u (explored_nodes f) ->
                              node_state u <> TARGET;
    inv_rootless : forall n, In n (explored_nodes f ++ nodes f) ->
                             node_coord n = s -> node_parent n = None }.

(** What one iteration of the loop does to the frontier: [u] is popped,
    [news] are the neighbour nodes that [add] accepts. *)
Record iteration (f : Frontier) (u : Node) (rest news : list Node)
       (f1 f2 : Frontier) : Prop :=
  { it_pops : pops f u rest;
    it_f1 : f1 = {| kind := kind f; nodes := rest;
                    explored_nodes := explored_nodes f ++ [u] |};
    it_f2 : f2 = {| kind := kind f; nodes := rest ++ news;
                    explored_nodes := explored_nodes f ++ [u] |};
    it_news : forall n, In n news ->
                node_parent n = Some u
                /\ adjacent (node_coord u) (node_coord n)
                /\ exists c, cell g0 (node_coord n) = Some c /\ c <> WALL
                             /\ marked c (node_state n);
    it_fresh : NoDup (coords news)
               /\ forall n, In n news ->
                    ~ In (node_coord n) (coords (explored_nodes f ++ nodes f));
    it_all : forall q, adjacent (node_coord u) q -> passable g0 q ->
               In q (coords ((explored_nodes f ++ [u]) ++ rest ++ news)) }.

(** The state in which the loop pops the target node [t], with an
    additional invariant [P] of the frontier. *)
Definition found_at (P : Frontier -> Prop) (t : Node) (f' : Frontier) : Prop :=
  node_state t = TARGET
  /\ exists m1 f1 rest,
       inv m1 f1 /\ P f1 /\ pops f1 t rest
       /\ f' = {| kind := kind f1; nodes := rest;
                  explored_nodes := explored_nodes f1 ++ [t] |}.

(** Breadth-first invariant: every frontier node sits at its shortest
    distance, and the pending list holds at most two consecutive levels,
    the lower one first. *)
Definition levels (d : nat) (q : list Node) : Prop :=
  exists q1 q2, q = q1 ++ q2
                /\ Forall (fun n => depth n = d) q1
                /\ Forall (fun n => depth n = S d) q2.

Record inv_bfs (f : Frontier) : Prop :=
  { bfs_kind : kind f = QueueFrontier;
    bfs_depth : forall n, In n (explored_nodes f ++ nodes f) ->
                  shortest g0 s (node_coord n) (depth n);
    bfs_levels : exists d, levels d (nodes f) }.
End Invariants.

(** Every coordinate of an [R] by [C] grid, for counting. *)
Definition all_coords (R C : Z) : list coord :=
  list_prod (map Z.of_nat (seq 0 (Z.to_nat R)))
            (map Z.of_nat (seq 0 (Z.to_nat C))).

(** The nodes strictly between a node and the root of its parent chain. *)
Definition inner (n : Node) : list Node := removelast (tl (chain n)).

(** A grid the search can start on: [R] rows of [C] cells, and [s] the
    one cell that holds the start marker. *)
Definition startable (g : grid) (R C : Z) (s : coord) : Prop :=
  bounds g R C /\ cell g s = Some START
  /\ forall p, cell g p = Some START -> p = s.

(** A maze object whose fields agree with its grid. *)
Definition ready (m : Maze) (R C : Z) (s : coord) : Prop :=
  rows_count m = R /\ cells_count m = C /\ start_point m = Some s
  /\ startable (maze_arr m) R C s.

(** Frontier states produced by [add] and [remove] from an empty frontier. *)
Inductive reachable_frontier (k : discipline) : Frontier -> Prop :=
| reach_new : reachable_frontier k (new_frontier k)
| reach_add : forall f n,
    reachable_frontier k f -> reachable_frontier k (add f n)
| reach_remove : forall f n f',
    reachable_frontier k f -> remove f = Ok (n, f') ->
    reachable_frontier k f'.

(** The exceptions a computation can raise. *)
Definition raises_only {A} (allowed : exn -> Prop) (r : result A) : Prop :=
  forall e, r = Raise e -> allowed e.

Definition not_pending (e : exn) : Prop := e <> IndexError PendingList.

(** Small grids used as concrete instances. *)
Definition corridor : grid := grid_of ["A B"%string].
Definition two_starts : grid := grid_of ["AAB"%string].
Definition detour : grid := grid_of ["  "%string; "AB"%string].
Definition around_wall : grid := grid_of ["A  "%string; " # "%string; "  B"%string].
Definition second_start : grid := grid_of ["B A A"%string].

(** The maze that [Maze.__init__] builds from [second_start]: the start
    point is the last start marker. *)
Definition second_start_maze : Maze :=
  {| maze_arr := second_start;
     start_point := Some (0, 4);
     end_point := Some (0, 0);
     rows_count := 1;
     cells_count := 5;
     steps := 0 |}.

(** [solve] returned [True]. *)
Definition succeeded (r : result (bool * Maze * Frontier)) : bool :=
  match r with
  | Ok (true, _, _) => true
  | _ => false
  end.

(** Invariant of the search when the target [tg] is a neighbour of the
    start [s]: the frontier is still the seeded one, or the target node
    added while expanding the root is pending. *)
Definition one_move_inv (s tg : coord) (f : Frontier) : Prop :=
  (explored_nodes f = []
   /\ exists root, nodes f = [root] /\ node_parent root = None
                   /\ node_coord root = s)
  \/ (exists b root, In b (nodes f) /\ node_coord b = tg
                     /\ node_parent b = Some root /\ node_parent root = None).

(** A list of coordinates in which every cell is a non-wall cell of the
    grid and is reached by one move from the coordinate after it. *)
Fixpoint is_path (g : grid) (l : list coord) : Prop :=
  match l with
  | [] => True
  | p :: l' =>
      passable g p
      /\ match l' with
         | [] => True
         | q :: _ => adjacent q p /\ is_path g l'
         end
  end.

(** ** Reading, writing and drawing the maze *)

Definition NEWLINE : ascii := "010"%char.
Definition DOT : ascii := "."%char.

(** The lines that iterating over a text file yields: each line ends with
    its newline, except possibly the last one.  The text is what Python's
    text mode delivers, after newline translation. *)
Fixpoint file_lines (text : list ascii) : list (list ascii) :=
  match text with
  | [] => []
  | c :: rest =>
      if Ascii.eqb c NEWLINE then [c] :: file_lines rest
      else match file_lines rest with
           | l :: ls => (c :: l) :: ls
           | [] => [[c]]
           end
  end.

(** [line.rstrip(ch)] for a one-character [ch]. *)
Fixpoint rstrip (ch : ascii) (l : list ascii) : list ascii :=
  match l with
  | [] => []
  | c :: t =>
      match rstrip ch t with
      | [] => if Ascii.eqb c ch then [] else [c]
      | t' => c :: t'
      end
  end.

(** [Maze._parse_maze_file], from the text of the file. *)
Definition _parse_maze_file (text : list ascii) : grid :=
  map (rstrip NEWLINE) (file_lines text).

(** [s.split(sep)] for a one-character [sep]. *)
Fixpoint split (sep : ascii) (s : list ascii) : list (list ascii) :=
  match s with
  | [] => [[]]
  | c :: rest =>
      if Ascii.eqb c sep then [] :: split sep rest
      else match split sep rest with
           | p :: ps => (c :: p) :: ps
           | [] => [[c]]
           end
  end.

(** The loop of [Maze.write_solved_maze_file]: every row gets a newline
    appended (in place) and is written out; the rows after the loop and
    the text written. *)
Fixpoint write_rows (rows : grid) : grid * list ascii :=
  match rows with
  | [] => ([], [])
  | row :: rest =>
      let row := row ++ [NEWLINE] in
      let '(rest, text) := write_rows rest in
      (row :: rest, row ++ text)
  end.

(** ** The host: files and the image library *)

(** The errors of the calls that leave the program: [OSError] with its
    subclasses, and [ValueError] with its subclasses. *)
Inductive io_error : Type :=
| OS_error
| Value_error.

Definition raised (e : io_error) : exn :=
  match e with
  | OS_error => OSError
  | Value_error => ValueError
  end.

(** What the program asks of its host, each call with its arguments and
    its ending.  [file_read name] is reading the lines of
    [open(name, "r")]: the text of the file, or the error of the open or
    of the decoding.  [file_write name text] is [open(name, 'w')] and the
    writing of [text]: [None] when both succeed.  [image_save name size]
    is Pillow's [img.save(name)] for an image of that size: [None] when
    the image is saved. *)
Record host : Type :=
  mkHost { file_read : list ascii -> list ascii + io_error;
           file_write : list ascii -> list ascii -> option io_error;
           image_save : list ascii -> Z * Z -> option io_error }.

(** [Maze.write_solved_maze_file], with the [filename] attribute passed
    along: the maze after the call, the name of the file written and its
    text. *)
Definition write_solved_maze_file (h : host) (filename : list ascii) (m : Maze)
  : result (Maze * (list ascii * list ascii)) :=
  let parts := split DOT filename in
  p0 <- subscript NameParts parts 0 ;;
  p1 <- subscript NameParts parts 1 ;;
  let name := p0 ++ list_ascii_of_string "_solved." ++ p1 in
  let '(arr, text) := write_rows (maze_arr m) in
  match file_write h name text with
  | None => Ok (set_maze_arr m arr, (name, text))
  | Some e => Raise (raised e)
  end.

(** [Maze.draw_image]: the size of the image, the calls to
    [draw.rectangle] in the order made, and the save.  Pillow is taken to
    be installed. *)
Definition CELL_WIDTH : Z := 70.

Definition color : Type := (Z * Z * Z)%type.

(** [COLORS.get(col)] *)
Definition COLORS_get (col : ascii) : option color :=
  if Ascii.eqb col WALL then Some (40, 40, 40)
  else if Ascii.eqb col START then Some (0, 0, 200)
  else if Ascii.eqb col TARGET then Some (0, 171, 28)
  else if Ascii.eqb col PATH then Some (220, 235, 113)
  else if Ascii.eqb col EXPLORED then Some (212, 97, 85)
  else if Ascii.eqb col OPEN then Some (237, 240, 252)
  else None.

Record rectangle : Type :=
  mkRectangle { corner0 : Z * Z; corner1 : Z * Z; fill : option color }.

Definition cell_rectangle (i j : Z) (col : ascii) : rectangle :=
  {| corner0 := (j * CELL_WIDTH, i * CELL_WIDTH);
     corner1 := (j * CELL_WIDTH + CELL_WIDTH, i * CELL_WIDTH + CELL_WIDTH);
     fill := COLORS_get col |}.

Fixpoint draw_row (i j : Z) (row : list ascii) : list rectangle :=
  match row with
  | [] => []
  | col :: rest => cell_rectangle i j col :: draw_row i (j + 1) rest
  end.

Fixpoint draw_rows (i : Z) (rows : grid) : list rectangle :=
  match rows with
  | [] => []
  | row :: rest => draw_row i 0 row ++ draw_rows (i + 1) rest
  end.

Definition draw_image (h : host) (filename : list ascii) (m : Maze)
  : result ((Z * Z) * list rectangle) :=
  let height := CELL_WIDTH * len (maze_arr m) in
  row0 <- subscript GridCell (maze_arr m) 0 ;;
  let width := CELL_WIDTH * len row0 in
  let rects := draw_rows 0 (maze_arr m) in
  match image_save h filename (width, height) with        (* img.save(filename) *)
  | None => Ok ((width, height), rects)
  | Some e => Raise (raised e)
  end.

(** ** Specification side of the further properties *)

(** [n] calls of [remove] in a row: the nodes returned, in order. *)
Fixpoint drain (n : nat) (f : Frontier) : result (list Node * Frontier) :=
  match n with
  | O => Ok ([], f)
  | S n' =>
      '(node, f) <- remove f ;;
      '(rest, f) <- drain n' f ;;
      Ok (node :: rest, f)
  end.

(** A cell of the grid that is not a wall, as a test. *)
Definition open_cell (g : grid) (p : coord) : bool :=
  match cell g p with
  | Some c => negb (Ascii.eqb c WALL)
  | None => false
  end.

(** Row-major order on coordinates. *)
Definition row_major_le (p q : coord) : Prop :=
  fst p < fst q \/ (fst p = fst q /\ snd p <= snd q).

(** The four markers of an unsolved maze, and the grids made of them. *)
Definition input_marker (c : ascii) : bool :=
  Ascii.eqb c OPEN || Ascii.eqb c WALL || Ascii.eqb c START
  || Ascii.eqb c TARGET.

Definition input_grid (g : grid) : bool := forallb (forallb input_marker) g.

(** What a cell may hold after [solve], given what it held before. *)
Definition solved_cell (c c' : ascii) : Prop :=
  c' = c \/ (c = OPEN /\ c' = EXPLORED)
  \/ (c' = PATH /\ c <> START /\ c <> TARGET /\ c <> WALL).

(** Two maze objects with grids of the same dimensions and the same
    start and end points. *)
Definition same_dimensions (m m' : Maze) : Prop :=
  map (@length ascii) (maze_arr m') = map (@length ascii) (maze_arr m)
  /\ rows_count m' = rows_count m /\ cells_count m' = cells_count m
  /\ start_point m' = start_point m /\ end_point m' = end_point m.

(** The item assignments [maze_arr[n.x][n.y] = '*'] for the nodes of a
    list, first to last. *)
Fixpoint mark_cells (arr : grid) (l : list Node) : result grid :=
  match l with
  | [] => Ok arr
  | n :: rest =>
      arr' <- set_cell arr (node_x n) (node_y n) PATH ;;
      mark_cells arr' rest
  end.

(** ** The script *)

(** What the script prints, line by line. *)
Inductive line : Type :=
| Text (s : string)
| Number (n : Z).

(** How a run of the script ends: [sys.exit], an exception that nothing
    catches, or the end of the script with the image saved. *)
Inductive ending : Type :=
| Exit (code : Z)
| Uncaught (e : exn)
| Completed (image_name : list ascii) (size : Z * Z) (rects : list rectangle).

(** [Maze(filename)]: the file is read, then the grid is checked. *)
Definition Maze_of_file (h : host) (filename : list ascii) : result Maze :=
  match file_read h filename with
  | inl text => Maze_init (_parse_maze_file text)
  | inr e => Raise (raised e)
  end.

(** The [__main__] block: the lines printed and the ending. *)
Definition main (h : host) (fuel : nat) (argv : list (list ascii))
  : list line * ending :=
  match argv with
  | [_; filename] =>                                  (* len(sys.argv) == 2 *)
      match Maze_of_file h filename with
      | Raise e => ([], Uncaught e)
      | Ok maze =>
          match solve fuel maze (new_frontier QueueFrontier) with
          | Raise e => ([], Uncaught e)
          | Ok (_, maze, _) =>
              let out := [Number (steps maze)] in     (* print(maze.steps) *)
              let image_name := hd [] (split DOT filename)
                                ++ list_ascii_of_string ".png" in
              match draw_image h image_name maze with
              | Raise e => (out, Uncaught e)
              | Ok (size, rects) => (out, Completed image_name size rects)
              end
          end
      end
  | _ =>
      ([Text "Invalid Command Line arguments. Maze file location required."],
       Exit 1)
  end.

(** * Proofs *)

(** ** The error monad *)

Lemma bind_Ok {A B} (r : result A) (k : A -> result B) (b : B) :
  bind r k = Ok b -> exists a, r = Ok a /\ k a = Ok b.
Proof.
  destruct r as [a|e]; simpl; intros H; [eauto | discriminate].
Qed.

Ltac inv_bind H :=
  match type of H with
  | bind ?r _ = Ok _ =>
      let a := fresh "a" in
      let Ha := fresh "Hr" in
      let Hk := fresh "Hk" in
      apply bind_Ok in H; destruct H as [a [Ha Hk]]
  end.

(** ** Lists and Python subscripts *)

Lemma len_nonneg {A} (l : list A) : 0 <= len l.
Proof. unfold len; lia. Qed.

Lemma subscript_nth {A} (s : site) (l : list A) (i : Z) (a : A) :
  0 <= i -> nth_error l (Z.to_nat i) = Some a -> subscript s l i = Ok a.
Proof.
  intros Hi Hn. unfold subscript, py_index.
  assert (Hlt : (Z.to_nat i < length l)%nat)
    by (apply nth_error_Some; congruence).
  assert (Hb : (0 <=? i) && (i <? len l) = true).
  { apply andb_true_iff; split; [apply Z.leb_le; lia|].
    apply Z.ltb_lt; unfold len; lia. }
  rewrite Hb, Hn. reflexivity.
Qed.

Lemma store_nth {A} (s : site) (l : list A) (i : Z) (v : A) :
  0 <= i -> (Z.to_nat i < length l)%nat ->
  store s l i v = Ok (replace_nth (Z.to_nat i) l v).
Proof.
  intros Hi Hlt. unfold store, py_index.
  assert (Hb : (0 <=? i) && (i <? len l) = true).
  { apply andb_true_iff; split; [apply Z.leb_le; lia|].
    apply Z.ltb_lt; unfold len; lia. }
  rewrite Hb. reflexivity.
Qed.

Lemma replace_nth_length {A} (k : nat) (l : list A) (v : A) :
  length (replace_nth k l v) = length l.
Proof.
  revert k; induction l as [|h t IH]; intros [|k]; simpl; auto.
Qed.

Lemma nth_error_replace_nth_eq {A} (k : nat) (l : list A) (v : A) :
  (k < length l)%nat -> nth_error (replace_nth k l v) k = Some v.
Proof.
  revert k; induction l as [|h t IH]; intros [|k] Hk; simpl in *;
    try lia; auto.
  apply IH; lia.
Qed.

Lemma nth_error_replace_nth_neq {A} (k k' : nat) (l : list A) (v : A) :
  k <> k' -> nth_error (replace_nth k l v) k' = nth_error l k'.
Proof.
  revert k k'; induction l as [|h t IH]; intros [|k] [|k'] Hk; simpl;
    try congruence; auto.
Qed.

(** ** Cells *)

Lemma cell_Some_inv (g : grid) (x y : Z) (c : ascii) :
  cell g (x, y) = Some c ->
  0 <= x /\ 0 <= y /\
  exists row, nth_error g (Z.to_nat x) = Some row
              /\ nth_error row (Z.to_nat y) = Some c.
Proof.
  unfold cell. destruct (x <? 0) eqn:Hx; simpl; [discriminate|].
  destruct (y <? 0) eqn:Hy; simpl; [discriminate|].
  apply Z.ltb_ge in Hx, Hy.
  destruct (nth_error g (Z.to_nat x)) as [row|] eqn:Hrow; [|discriminate].
  intros Hc. repeat split; auto. exists row; auto.
Qed.

Lemma get_cell_cell (g : grid) (x y : Z) (c : ascii) :
  cell g (x, y) = Some c -> get_cell g x y = Ok c.
Proof.
  intros H. apply cell_Some_inv in H as (Hx & Hy & row & Hrow & Hc).
  unfold get_cell. rewrite (subscript_nth _ _ _ _ Hx Hrow). simpl.
  apply subscript_nth; auto.
Qed.

Lemma coord_eq_dec (p q : coord) : {p = q} + {p <> q}.
Proof. decide equality; apply Z.eq_dec. Qed.

Lemma set_cell_cell (g : grid) (x y : Z) (c v : ascii) :
  cell g (x, y) = Some c ->
  exists g', set_cell g x y v = Ok g'
             /\ forall p, cell g' p = if coord_eq_dec p (x, y) then Some v
                                      else cell g p.
Proof.
  intros H. apply cell_Some_inv in H as (Hx & Hy & row & Hrow & Hc).
  assert (Hlx : (Z.to_nat x < length g)%nat)
    by (apply nth_error_Some; congruence).
  assert (Hly : (Z.to_nat y < length row)%nat)
    by (apply nth_error_Some; congruence).
  exists (replace_nth (Z.to_nat x) g (replace_nth (Z.to_nat y) row v)).
  split.
  - unfold set_cell. rewrite (subscript_nth _ _ _ _ Hx Hrow). simpl.
    rewrite (store_nth _ _ _ _ Hy Hly). simpl.
    apply store_nth; auto.
  - intros [x' y']. unfold cell.
    destruct (coord_eq_dec (x', y') (x, y)) as [E|NE].
    + inversion E; subst x' y'.
      assert (Hbx : (x <? 0) = false) by (apply Z.ltb_ge; lia).
      assert (Hby : (y <? 0) = false) by (apply Z.ltb_ge; lia).
      rewrite Hbx, Hby. simpl.
      rewrite nth_error_replace_nth_eq by auto.
      apply nth_error_replace_nth_eq; auto.
    + destruct (x' <? 0) eqn:Hx'; simpl; auto.
      destruct (y' <? 0) eqn:Hy'; simpl; auto.
      apply Z.ltb_ge in Hx', Hy'.
      destruct (Nat.eq_dec (Z.to_nat x) (Z.to_nat x')) as [Ex|Nx].
      * assert (x' = x) by lia. subst x'.
        rewrite nth_error_replace_nth_eq by auto. rewrite Hrow.
        apply nth_error_replace_nth_neq.
        intros Ey. apply NE. f_equal. lia.
      * rewrite nth_error_replace_nth_neq by auto. reflexivity.
Qed.

(** ** Frontier operations *)

Lemma node_eqb_coord (a b : Node) :
  node_eqb a b = true <-> node_coord a = node_coord b.
Proof.
  unfold node_eqb, node_coord. rewrite andb_true_iff, !Z.eqb_eq.
  split; [intros [-> ->]; reflexivity | intros H; inversion H; auto].
Qed.

Lemma contains_coords (n : Node) (l : list Node) :
  contains n l = true <-> In (node_coord n) (coords l).
Proof.
  unfold contains, coords. rewrite existsb_exists, in_map_iff.
  split; intros [e [H1 H2]]; exists e.
  - apply node_eqb_coord in H2. auto.
  - split; [tauto|]. apply node_eqb_coord. tauto.
Qed.

Lemma contains_false (n : Node) (l : list Node) :
  contains n l = false <-> ~ In (node_coord n) (coords l).
Proof.
  rewrite <- contains_coords. destruct (contains n l); split; intros; congruence.
Qed.

Lemma add_cases (f : Frontier) (n : Node) :
  (add f n = f /\ In (node_coord n) (coords (explored_nodes f ++ nodes f)))
  \/ (add f n = {| kind := kind f; nodes := nodes f ++ [n];
                   explored_nodes := explored_nodes f |}
      /\ ~ In (node_coord n) (coords (explored_nodes f ++ nodes f))).
Proof.
  unfold add, coords. rewrite map_app.
  destruct (contains n (nodes f)) eqn:Hn; simpl.
  - left. split; auto. apply in_or_app. right. apply contains_coords; auto.
  - destruct (contains n (explored_nodes f)) eqn:He; simpl.
    + left. split; auto. apply in_or_app. left. apply contains_coords; auto.
    + right. split; auto. intros H. apply in_app_or in H.
      apply contains_false in Hn, He. tauto.
Qed.

Lemma add_kind (f : Frontier) (n : Node) : kind (add f n) = kind f.
Proof. destruct (add_cases f n) as [[-> _]|[-> _]]; reflexivity. Qed.

Lemma add_explored (f : Frontier) (n : Node) :
  explored_nodes (add f n) = explored_nodes f.
Proof. destruct (add_cases f n) as [[-> _]|[-> _]]; reflexivity. Qed.

Lemma add_covers (f : Frontier) (n : Node) :
  In (node_coord n) (coords (explored_nodes (add f n) ++ nodes (add f n))).
Proof.
  destruct (add_cases f n) as [[-> H]|[-> _]]; auto. simpl.
  unfold coords. rewrite !map_app. simpl.
  apply in_or_app. right. apply in_or_app. right. left. reflexivity.
Qed.

Lemma frontier_eta (f : Frontier) :
  f = {| kind := kind f; nodes := nodes f; explored_nodes := explored_nodes f |}.
Proof. destruct f; reflexivity. Qed.

Lemma fold_add_spec (l : list Node) : forall f : Frontier,
  exists news,
    fold_left add l f = {| kind := kind f; nodes := nodes f ++ news;
                           explored_nodes := explored_nodes f |}
    /\ (forall n, In n news -> In n l)
    /\ NoDup (coords news)
    /\ (forall n, In n news ->
          ~ In (node_coord n) (coords (explored_nodes f ++ nodes f)))
    /\ (forall n, In n l ->
          In (node_coord n) (coords (explored_nodes f ++ nodes f ++ news))).
Proof.
  induction l as [|a l IH]; intros f; simpl.
  - exists []. rewrite app_nil_r. repeat split; simpl; try tauto.
    + apply frontier_eta.
    + constructor.
  - destruct (IH (add f a)) as (news & Hf & Hin & Hnd & Hfresh & Hall).
    destruct (add_cases f a) as [[E Ha]|[E Ha]]; rewrite E in *; simpl in *.
    + exists news. repeat split; auto.
      intros n [<-|Hn]; auto.
      unfold coords in *. rewrite !map_app in *.
      apply in_app_or in Ha. apply in_or_app.
      destruct Ha; [left; auto | right; apply in_or_app; left; auto].
    + exists (a :: news). rewrite <- app_assoc in Hf. simpl in Hf.
      repeat split; auto.
      * intros n [<-|Hn]; auto.
      * simpl. constructor; auto.
        intros Hc. unfold coords in Hc. apply in_map_iff in Hc.
        destruct Hc as (n & Hn1 & Hn2).
        apply (Hfresh n Hn2). rewrite Hn1.
        unfold coords. rewrite !map_app. simpl.
        apply in_or_app. right. apply in_or_app. right. left. reflexivity.
      * intros n [<-|Hn]; auto.
        intros Hc. apply (Hfresh n Hn).
        unfold coords in *. rewrite !map_app in *.
        apply in_app_or in Hc. apply in_or_app.
        destruct Hc; [left; auto | right; apply in_or_app; left; auto].
      * intros n [<-|Hn].
        -- unfold coords. rewrite !map_app. simpl.
           apply in_or_app. right. apply in_or_app. right. left. reflexivity.
        -- specialize (Hall n Hn). rewrite <- app_assoc in Hall.
           simpl in Hall. exact Hall.
Qed.

Lemma is_empty_false (f : Frontier) : is_empty f = false <-> nodes f <> [].
Proof.
  unfold is_empty, len. rewrite Z.eqb_neq.
  destruct (nodes f); simpl; split; intros; try congruence; lia.
Qed.

Lemma is_empty_true (f : Frontier) : is_empty f = true -> nodes f = [].
Proof.
  unfold is_empty, len. rewrite Z.eqb_eq.
  destruct (nodes f); simpl; intros; [reflexivity | lia].
Qed.

Lemma remove_nonempty (f : Frontier) :
  is_empty f = false ->
  exists u rest,
    pops f u rest
    /\ remove f = Ok (u, {| kind := kind f; nodes := rest;
                            explored_nodes := explored_nodes f ++ [u] |}).
Proof.
  intros H. apply is_empty_false in H. unfold pops, remove.
  destruct (kind f).
  - destruct (exists_last H) as (rest & u & E). exists u, rest.
    split; auto. rewrite E.
    assert (Hs : subscript PendingList (rest ++ [u]) (-1) = Ok u).
    { unfold subscript, py_index, len. rewrite length_app. simpl.
      replace (Z.of_nat (length rest + 1) + -1) with (Z.of_nat (length rest))
        by lia.
      assert (Hb : (0 <=? Z.of_nat (length rest)) = true)
        by (apply Z.leb_le; lia).
      rewrite Hb. simpl. rewrite Nat2Z.id.
      rewrite nth_error_app2 by lia. rewrite Nat.sub_diag. reflexivity. }
    rewrite Hs. simpl. rewrite removelast_last. reflexivity.
  - destruct (nodes f) as [|u rest] eqn:E; [congruence|].
    exists u, rest. split; auto.
Qed.

Lemma remove_Ok_nonempty (f : Frontier) (n : Node) (f' : Frontier) :
  remove f = Ok (n, f') -> is_empty f = false.
Proof.
  intros H. apply is_empty_false. intros E. unfold remove in H.
  rewrite E in H. destruct (kind f); simpl in H; discriminate.
Qed.

Lemma remove_Ok_inv (f : Frontier) (n : Node) (f' : Frontier) :
  remove f = Ok (n, f') ->
  exists rest, pops f n rest
    /\ f' = {| kind := kind f; nodes := rest;
               explored_nodes := explored_nodes f ++ [n] |}.
Proof.
  intros H. destruct (remove_nonempty f (remove_Ok_nonempty _ _ _ H))
    as (u & rest & Hp & Hr).
  rewrite Hr in H. inversion H; subst. eauto.
Qed.

Lemma pops_perm_coords (f : Frontier) (u : Node) (rest : list Node) (E : list Node) :
  pops f u rest ->
  forall c, In c (coords (E ++ nodes f)) <-> In c (coords ((E ++ [u]) ++ rest)).
Proof.
  unfold pops, coords. intros Hp c. rewrite !map_app, !in_app_iff.
  destruct (kind f); rewrite Hp; simpl; rewrite ?map_app, ?in_app_iff; simpl;
    tauto.
Qed.

Lemma pops_nodup (f : Frontier) (u : Node) (rest : list Node) (E : list Node) :
  pops f u rest ->
  NoDup (coords (E ++ nodes f)) -> NoDup (coords ((E ++ [u]) ++ rest)).
Proof.
  unfold pops, coords. intros Hp. rewrite <- app_assoc. simpl.
  destruct (kind f); rewrite Hp; auto.
  apply Permutation_NoDup. apply Permutation_map.
  apply Permutation_app_head.
  apply Permutation_sym, Permutation_cons_append.
Qed.

(** ** The explored mark *)

Lemma marked_refl (c : ascii) : marked c c.
Proof. left; reflexivity. Qed.

Lemma marked_wall (c c' : ascii) : marked c c' -> (c' = WALL <-> c = WALL).
Proof.
  intros [->|[-> ->]]; [tauto|]. split; intros H; discriminate H.
Qed.

Lemma marked_target (c c' : ascii) : marked c c' -> (c' = TARGET <-> c = TARGET).
Proof.
  intros [->|[-> ->]]; [tauto|]. split; intros H; discriminate H.
Qed.

Lemma marked_start (c c' : ascii) : marked c c' -> (c' = START <-> c = START).
Proof.
  intros [->|[-> ->]]; [tauto|]. split; intros H; discriminate H.
Qed.

Lemma marked_step (c c' : ascii) :
  marked c c' -> marked c (if Ascii.eqb c' OPEN then EXPLORED else c').
Proof.
  intros H. destruct (Ascii.eqb_spec c' OPEN) as [E|NE]; auto.
  subst c'. destruct H as [<-|[_ H]]; [|discriminate H].
  right; auto.
Qed.

Lemma grid_rel_refl (g : grid) : grid_rel g g.
Proof.
  intros p. destruct (cell g p); auto. apply marked_refl.
Qed.

Lemma grid_rel_cell (g g' : grid) (p : coord) (c : ascii) :
  grid_rel g g' -> cell g p = Some c ->
  exists c', cell g' p = Some c' /\ marked c c'.
Proof.
  intros H Hc. specialize (H p). rewrite Hc in H.
  destruct (cell g' p) as [c'|]; [eauto | contradiction].
Qed.

Lemma grid_rel_cell_inv (g g' : grid) (p : coord) (c' : ascii) :
  grid_rel g g' -> cell g' p = Some c' ->
  exists c, cell g p = Some c /\ marked c c'.
Proof.
  intros H Hc. specialize (H p). rewrite Hc in H.
  destruct (cell g p) as [c|]; [eauto | contradiction].
Qed.

(** ** One iteration of the loop *)

Section Loop.
Variable g0 : grid.
Variables R C : Z.
Variable s : coord.
Hypothesis Hbounds : bounds g0 R C.

Lemma passable_in_grid (p : coord) : passable g0 p -> in_grid R C p.
Proof.
  intros (c & Hc & _). apply Hbounds. congruence.
Qed.

Lemma probe (m : Maze) (q : coord) :
  maze_ok g0 R C s m -> in_grid R C q ->
  exists c c', cell g0 q = Some c
               /\ get_cell (maze_arr m) (fst q) (snd q) = Ok c'
               /\ marked c c'.
Proof.
  intros (_ & _ & _ & Hrel) Hq. apply Hbounds in Hq.
  destruct (cell g0 q) as [c|] eqn:Hc; [|congruence].
  destruct (grid_rel_cell _ _ _ _ Hrel Hc) as (c' & Hc' & Hm).
  exists c, c'. repeat split; auto.
  apply get_cell_cell. destruct q; exact Hc'.
Qed.

Lemma probe_wall (m : Maze) (q : coord) :
  maze_ok g0 R C s m -> in_grid R C q ->
  exists c',
    get_cell (maze_arr m) (fst q) (snd q) = Ok c'
    /\ (Ascii.eqb c' WALL = true -> ~ passable g0 q)
    /\ (Ascii.eqb c' WALL = false ->
        exists c, cell g0 q = Some c /\ c <> WALL /\ marked c c').
Proof.
  intros Hm Hq. destruct (probe m q Hm Hq) as (c & c' & Hc & Hg & Hmk).
  exists c'. repeat split; auto.
  - intros E. apply Ascii.eqb_eq in E. intros (c1 & Hc1 & Hw).
    rewrite Hc in Hc1. inversion Hc1; subst c1.
    apply Hw. apply (marked_wall _ _ Hmk). exact E.
  - intros E. apply Ascii.eqb_neq in E. exists c. repeat split; auto.
    intros Hw. apply E. apply (marked_wall _ _ Hmk). exact Hw.
Qed.

Lemma next_cell_spec (m : Maze) (x y : Z) (mv : Movement) :
  maze_ok g0 R C s m -> in_grid R C (x, y) ->
  exists r, _next_cell m x y mv = Ok r
    /\ match r with
       | Some q => q = move mv (x, y)
                   /\ exists c c', cell g0 q = Some c /\ c <> WALL
                        /\ get_cell (maze_arr m) (fst q) (snd q) = Ok c'
                        /\ marked c c'
       | None => ~ passable g0 (move mv (x, y))
       end.
Proof.
  intros Hm Hin. pose proof Hm as (HR & HC & _ & _).
  destruct Hin as [Hx Hy]. simpl in Hx, Hy.
  assert (Hout : forall q, ~ in_grid R C q -> ~ passable g0 q).
  { intros q Hq Hp. apply Hq. apply passable_in_grid; auto. }
  assert (Hgo : forall q, in_grid R C q ->
            exists r, (c <- get_cell (maze_arr m) (fst q) (snd q) ;;
                       if Ascii.eqb c WALL then Ok None else Ok (Some q)) = Ok r
            /\ match r with
               | Some q' => q' = q
                   /\ exists c c', cell g0 q' = Some c /\ c <> WALL
                        /\ get_cell (maze_arr m) (fst q') (snd q') = Ok c'
                        /\ marked c c'
               | None => ~ passable g0 q
               end).
  { intros q Hq. destruct (probe_wall m q Hm Hq) as (c' & Hg & Hw & Hnw).
    rewrite Hg. simpl. destruct (Ascii.eqb c' WALL) eqn:E.
    - exists None. split; auto.
    - exists (Some q). split; auto. split; auto.
      destruct (Hnw eq_refl) as (c & Hc & Hcw & Hmk).
      exists c, c'. auto. }
  destruct mv; simpl; unfold in_grid in *; simpl in *.
  - destruct (x - 1 <? 0) eqn:E.
    + exists None. split; auto. apply Hout. simpl. lia.
    + apply Z.ltb_ge in E. apply (Hgo (x - 1, y)). simpl. lia.
  - destruct (y - 1 <? 0) eqn:E.
    + exists None. split; auto. apply Hout. simpl. lia.
    + apply Z.ltb_ge in E. apply (Hgo (x, y - 1)). simpl. lia.
  - rewrite HR. destruct (x + 1 >=? R) eqn:E.
    + exists None. split; auto. apply Hout. simpl.
      apply Z.geb_le in E. lia.
    + rewrite Z.geb_leb in E. apply Z.leb_gt in E.
      apply (Hgo (x + 1, y)). simpl. lia.
  - rewrite HC. destruct (y + 1 >=? C) eqn:E.
    + exists None. split; auto. apply Hout. simpl.
      apply Z.geb_le in E. lia.
    + rewrite Z.geb_leb in E. apply Z.leb_gt in E.
      apply (Hgo (x, y + 1)). simpl. lia.
Qed.

Lemma neighbors_loop_spec (m : Maze) (u : Node) :
  maze_ok g0 R C s m -> in_grid R C (node_coord u) ->
  forall mvs acc,
  exists l, neighbors_loop m u mvs acc = Ok (acc ++ l)
    /\ (forall n, In n l ->
          node_parent n = Some u
          /\ (exists mv, In mv mvs /\ node_coord n = move mv (node_coord u))
          /\ exists c, cell g0 (node_coord n) = Some c /\ c <> WALL
                       /\ marked c (node_state n))
    /\ (forall mv, In mv mvs -> passable g0 (move mv (node_coord u)) ->
          In (move mv (node_coord u)) (coords l)).
Proof.
  intros Hm Hu. induction mvs as [|mv mvs IH]; intros acc; simpl.
  - exists []. rewrite app_nil_r. split; [reflexivity|].
    split; intros ? [].
  - destruct (next_cell_spec m (node_x u) (node_y u) mv Hm Hu)
      as (r & Hr & Hspec).
    rewrite Hr. simpl. destruct r as [[x y]|].
    + destruct Hspec as (Hq & c & c' & Hc & Hcw & Hg & Hmk).
      simpl in Hg. unfold _get_state. rewrite Hg. simpl.
      set (nn := {| node_state := c'; node_parent := Some u;
                    node_x := x; node_y := y; node_action := Some mv |}).
      destruct (IH (acc ++ [nn])) as (l & Hl & Hall & Hcov).
      exists (nn :: l). rewrite <- app_assoc in Hl. simpl in Hl.
      split; auto. split.
      * intros n [<-|Hn].
        -- split; [reflexivity|]. split.
           ++ exists mv. split; [left; auto | exact Hq].
           ++ exists c. auto.
        -- destruct (Hall n Hn) as (Hp & (mv' & Hmv' & Hmove) & Hcell).
           split; auto. split; auto. exists mv'. split; [right|]; auto.
      * intros mv' [<-|Hmv'] Hp.
        -- left. unfold nn, node_coord. simpl. exact Hq.
        -- right. apply Hcov; auto.
    + destruct (IH acc) as (l & Hl & Hall & Hcov).
      exists l. split; auto. split.
      * intros n Hn.
        destruct (Hall n Hn) as (Hp & (mv' & Hmv' & Hmove) & Hcell).
        split; auto. split; auto. exists mv'. split; [right|]; auto.
      * intros mv' [<-|Hmv'] Hp; [contradiction|]. apply Hcov; auto.
Qed.

Lemma get_neighbors_spec (m : Maze) (u : Node) :
  maze_ok g0 R C s m -> in_grid R C (node_coord u) ->
  exists l, _get_neighbors m u = Ok l
    /\ (forall n, In n l ->
          node_parent n = Some u
          /\ adjacent (node_coord u) (node_coord n)
          /\ exists c, cell g0 (node_coord n) = Some c /\ c <> WALL
                       /\ marked c (node_state n))
    /\ (forall q, adjacent (node_coord u) q -> passable g0 q ->
          In q (coords l)).
Proof.
  intros Hm Hu.
  destruct (neighbors_loop_spec m u Hm Hu movements [])
    as (l & Hl & Hall & Hcov).
  exists l. split; auto. split.
  - intros n Hn. destruct (Hall n Hn) as (Hp & (mv & _ & Hmove) & Hc).
    split; auto. split; auto. exists mv; auto.
  - intros q (mv & ->) Hp. apply Hcov; auto.
    unfold movements. destruct mv; simpl; tauto.
Qed.
End Loop.

Lemma pops_perm (f : Frontier) (u : Node) (rest : list Node) (E : list Node) :
  pops f u rest -> Permutation (E ++ nodes f) ((E ++ [u]) ++ rest).
Proof.
  unfold pops. intros Hp. rewrite <- app_assoc. simpl.
  apply Permutation_app_head.
  destruct (kind f); rewrite Hp; auto.
  apply Permutation_sym, Permutation_cons_append.
Qed.

Lemma pops_In (f : Frontier) (u : Node) (rest : list Node) :
  pops f u rest -> In u (nodes f).
Proof.
  unfold pops. destruct (kind f); intros ->.
  - apply in_or_app. right. left. reflexivity.
  - left. reflexivity.
Qed.

Lemma pops_length (f : Frontier) (u : Node) (rest : list Node) :
  pops f u rest -> length (nodes f) = S (length rest).
Proof.
  unfold pops. destruct (kind f); intros ->; simpl; auto.
  rewrite length_app. simpl. lia.
Qed.

Section Iteration.
Variable g0 : grid.
Variables R C : Z.
Variable s : coord.
Hypothesis Hbounds : bounds g0 R C.

Lemma pop_and_mark_spec (m : Maze) (f : Frontier) :
  maze_ok g0 R C s m -> is_empty f = false ->
  (forall n, In n (nodes f) -> cell g0 (node_coord n) <> None) ->
  exists u rest m1,
    pops f u rest
    /\ pop_and_mark m f
       = Ok (u, m1, {| kind := kind f; nodes := rest;
                       explored_nodes := explored_nodes f ++ [u] |})
    /\ maze_ok g0 R C s m1
    /\ steps m1 = steps m + 1.
Proof.
  intros Hm Hne Hcells.
  destruct (remove_nonempty f Hne) as (u & rest & Hp & Hr).
  pose proof (Hcells u (pops_In _ _ _ Hp)) as Hu.
  destruct (cell g0 (node_coord u)) as [c|] eqn:Hc; [|congruence].
  destruct Hm as (HR & HC & Hs & Hrel).
  destruct (grid_rel_cell _ _ _ _ Hrel Hc) as (c' & Hc' & Hmk).
  unfold node_coord in Hc'.
  destruct (set_cell_cell (maze_arr m) (node_x u) (node_y u) c'
              (if Ascii.eqb c' OPEN then EXPLORED else c') Hc')
    as (g' & Hset & Hg').
  exists u, rest, (set_maze_arr (incr_steps m) g').
  split; auto. split.
  - unfold pop_and_mark. rewrite Hr. simpl.
    rewrite (get_cell_cell _ _ _ _ Hc'). simpl. rewrite Hset. reflexivity.
  - split; [|reflexivity].
    unfold maze_ok. simpl. repeat split; auto.
    intros p. rewrite Hg'.
    destruct (coord_eq_dec p (node_x u, node_y u)) as [->|NE].
    + fold (node_coord u). rewrite Hc. apply marked_step; auto.
    + apply Hrel.
Qed.

Lemma step_spec (m : Maze) (f : Frontier) :
  inv g0 R C s m f -> is_empty f = false ->
  exists u rest news m1 f1 f2,
    pop_and_mark m f = Ok (u, m1, f1)
    /\ maze_ok g0 R C s m1
    /\ steps m1 = steps m + 1
    /\ expand m1 f1 u = Ok f2
    /\ iteration g0 f u rest news f1 f2.
Proof.
  intros Hinv Hne.
  assert (Hcells : forall n, In n (explored_nodes f ++ nodes f) ->
                             cell g0 (node_coord n) <> None).
  { intros n Hn. destruct (inv_node _ _ _ _ _ _ Hinv n Hn) as [(c & Hc & _) _].
    congruence. }
  destruct (pop_and_mark_spec m f (inv_maze _ _ _ _ _ _ Hinv) Hne)
    as (u & rest & m1 & Hp & Hpm & Hm1 & Hst).
  { intros n Hn. apply Hcells. apply in_or_app. right. exact Hn. }
  set (f1 := {| kind := kind f; nodes := rest;
                explored_nodes := explored_nodes f ++ [u] |}) in *.
  assert (Hu : in_grid R C (node_coord u)).
  { apply Hbounds. apply Hcells. apply in_or_app. right.
    eapply pops_In; eauto. }
  destruct (get_neighbors_spec g0 R C s Hbounds m1 u Hm1 Hu)
    as (l & Hl & Hall & Hcov).
  destruct (fold_add_spec l f1) as (news & Hf & Hin & Hnd & Hfresh & Hadd).
  exists u, rest, news, m1, f1, (fold_left add l f1).
  split; auto. split; auto. split; auto. split.
  { unfold expand. rewrite Hl. reflexivity. }
  constructor.
  - exact Hp.
  - reflexivity.
  - exact Hf.
  - intros n Hn. apply Hall. apply Hin. exact Hn.
  - split; auto. intros n Hn Hc. apply (Hfresh n Hn). simpl.
    unfold coords in *.
    eapply Permutation_in; [|exact Hc].
    apply Permutation_map. apply pops_perm; auto.
  - intros q Hadj Hpass. specialize (Hcov q Hadj Hpass).
    unfold coords in Hcov. apply in_map_iff in Hcov.
    destruct Hcov as (n & <- & Hn). apply (Hadd n Hn).
Qed.

Lemma iteration_old (f : Frontier) (u : Node) (rest news : list Node)
      (f1 f2 : Frontier) (n : Node) :
  iteration g0 f u rest news f1 f2 ->
  In n (explored_nodes f2 ++ nodes f2) <->
  In n (explored_nodes f ++ nodes f) \/ In n news.
Proof.
  intros It. rewrite (it_f2 _ _ _ _ _ _ _ It). simpl.
  rewrite app_assoc, in_app_iff.
  pose proof (pops_perm f u rest (explored_nodes f) (it_pops _ _ _ _ _ _ _ It))
    as HP.
  split; intros [H|H]; auto; left.
  - eapply Permutation_in; [apply Permutation_sym; exact HP | exact H].
  - eapply Permutation_in; [exact HP | exact H].
Qed.

Lemma iteration_coords (f : Frontier) (u : Node) (rest news : list Node)
      (f1 f2 : Frontier) (c : coord) :
  iteration g0 f u rest news f1 f2 ->
  In c (coords (explored_nodes f2 ++ nodes f2)) <->
  In c (coords (explored_nodes f ++ nodes f)) \/ In c (coords news).
Proof.
  intros It. unfold coords. split.
  - intros H. apply in_map_iff in H. destruct H as (n & Hc & Hn).
    apply (iteration_old _ _ _ _ _ _ _ It) in Hn.
    destruct Hn as [Hn|Hn]; [left | right]; apply in_map_iff; exists n; auto.
  - intros [H|H]; apply in_map_iff in H; destruct H as (n & Hc & Hn);
      apply in_map_iff; exists n; split; auto;
      apply (iteration_old _ _ _ _ _ _ _ It); auto.
Qed.

Lemma node_ok_mono (E E' : list Node) (n : Node) :
  incl E E' -> node_ok g0 s E n -> node_ok g0 s E' n.
Proof.
  intros Hi [H1 H2]. split; auto.
  destruct (node_parent n); auto. destruct H2; split; auto.
Qed.

Lemma inv_step (m m1 : Maze) (f : Frontier) (u : Node)
      (rest news : list Node) (f1 f2 : Frontier) :
  inv g0 R C s m f -> iteration g0 f u rest news f1 f2 ->
  maze_ok g0 R C s m1 -> node_state u <> TARGET ->
  inv g0 R C s m1 f2.
Proof.
  intros Hinv It Hm1 Hnt.
  pose proof (it_pops _ _ _ _ _ _ _ It) as Hp.
  pose proof (it_fresh _ _ _ _ _ _ _ It) as [Hnd Hfresh].
  assert (HE : explored_nodes f2 = explored_nodes f ++ [u])
    by (rewrite (it_f2 _ _ _ _ _ _ _ It); reflexivity).
  constructor; auto.
  - rewrite (it_f2 _ _ _ _ _ _ _ It). simpl. rewrite app_assoc.
    unfold coords. rewrite map_app. apply NoDup_app.
    + apply (pops_nodup f u rest (explored_nodes f) Hp).
      apply (inv_nodup _ _ _ _ _ _ Hinv).
    + exact Hnd.
    + intros c Hc Hc'. apply in_map_iff in Hc'.
      destruct Hc' as (n & <- & Hn). apply (Hfresh n Hn).
      eapply Permutation_in; [|exact Hc].
      apply Permutation_map, Permutation_sym, pops_perm; auto.
  - intros n Hn. apply (iteration_old _ _ _ _ _ _ _ It) in Hn.
    rewrite HE. destruct Hn as [Hn|Hn].
    + eapply node_ok_mono; [|apply (inv_node _ _ _ _ _ _ Hinv n Hn)].
      apply incl_appl, incl_refl.
    + destruct (it_news _ _ _ _ _ _ _ It n Hn) as (Hpar & Hadj & Hc).
      split; auto. rewrite Hpar. split; auto.
      apply in_or_app. right. left. reflexivity.
  - apply (iteration_coords _ _ _ _ _ _ _ It). left.
    apply (inv_root _ _ _ _ _ _ Hinv).
  - intros u' q Hu' Hadj Hpass. rewrite HE in Hu'.
    apply in_app_or in Hu'. destruct Hu' as [Hu'|[<-|[]]].
    + apply (iteration_coords _ _ _ _ _ _ _ It). left.
      apply (inv_closed _ _ _ _ _ _ Hinv u' q); auto.
    + rewrite (it_f2 _ _ _ _ _ _ _ It). simpl.
      apply (it_all _ _ _ _ _ _ _ It); auto.
  - intros u' Hu'. rewrite HE in Hu'.
    apply in_app_or in Hu'. destruct Hu' as [Hu'|[<-|[]]]; auto.
    apply (inv_nontarget _ _ _ _ _ _ Hinv u' Hu').
  - intros n Hn Hs. apply (iteration_old _ _ _ _ _ _ _ It) in Hn.
    destruct Hn as [Hn|Hn].
    + apply (inv_rootless _ _ _ _ _ _ Hinv n Hn Hs).
    + exfalso. apply (Hfresh n Hn). rewrite Hs.
      apply (inv_root _ _ _ _ _ _ Hinv).
Qed.
End Iteration.

(** ** Running the loop *)

Lemma all_coords_length (R C : Z) :
  0 <= R -> 0 <= C -> Z.of_nat (length (all_coords R C)) = R * C.
Proof.
  intros HR HC. unfold all_coords, coord.
  rewrite length_prod, !length_map, !length_seq. lia.
Qed.

Lemma all_coords_In (R C : Z) (p : coord) :
  in_grid R C p -> In p (all_coords R C).
Proof.
  destruct p as [x y]. unfold in_grid, all_coords. simpl. intros [Hx Hy].
  apply in_prod_iff. split; apply in_map_iff.
  - exists (Z.to_nat x). split; [lia|]. apply in_seq. lia.
  - exists (Z.to_nat y). split; [lia|]. apply in_seq. lia.
Qed.

Lemma in_grid_bound (R C : Z) (l : list coord) :
  NoDup l -> (forall p, In p l -> in_grid R C p) -> l <> [] ->
  Z.of_nat (length l) <= R * C.
Proof.
  intros Hnd Hin Hne. destruct l as [|p0 l0] eqn:El; [congruence|].
  rewrite <- El in *.
  assert (H0 : in_grid R C p0) by (apply Hin; rewrite El; left; auto).
  destruct H0 as [Hx Hy].
  rewrite <- all_coords_length by lia.
  apply inj_le. apply NoDup_incl_length; auto.
  intros p Hp. apply all_coords_In. auto.
Qed.

Lemma solve_loop_S (fuel : nat) (m : Maze) (f : Frontier) :
  solve_loop (S fuel) m f =
  if is_empty f then Ok (None, m, f)
  else '(node, m, f) <- pop_and_mark m f ;;
       if Ascii.eqb (node_state node) TARGET then Ok (Some node, m, f)
       else f <- expand m f node ;; solve_loop fuel m f.
Proof. reflexivity. Qed.

Lemma solve_loop_empty (fuel : nat) (m : Maze) (f : Frontier) :
  is_empty f = true -> solve_loop fuel m f = Ok (None, m, f).
Proof. intros H. destruct fuel; simpl; rewrite H; reflexivity. Qed.

Section Run.
Variable g0 : grid.
Variables R C : Z.
Variable s : coord.
Hypothesis Hbounds : bounds g0 R C.

Lemma inv_size (m : Maze) (f : Frontier) :
  inv g0 R C s m f ->
  len (explored_nodes f) + len (nodes f) <= R * C.
Proof.
  intros Hinv. unfold len. rewrite <- Nat2Z.inj_add, <- length_app.
  rewrite <- (length_map node_coord).
  apply in_grid_bound.
  - apply (inv_nodup _ _ _ _ _ _ Hinv).
  - intros p Hp. apply in_map_iff in Hp. destruct Hp as (n & <- & Hn).
    destruct (inv_node _ _ _ _ _ _ Hinv n Hn) as [(c & Hc & _) _].
    apply Hbounds. congruence.
  - pose proof (inv_root _ _ _ _ _ _ Hinv) as Hr. unfold coords in Hr.
    intros E. rewrite E in Hr. destruct Hr.
Qed.

(** An additional invariant of the frontier, kept by every iteration
    that does not pop the target. *)
Variable P : Frontier -> Prop.
Hypothesis P_step :
  forall m f u rest news f1 f2,
    inv g0 R C s m f -> P f -> iteration g0 f u rest news f1 f2 ->
    node_state u <> TARGET -> P f2.

Lemma solve_loop_run : forall (fuel : nat) (m : Maze) (f : Frontier),
  inv g0 R C s m f -> P f ->
  R * C <= Z.of_nat fuel + len (explored_nodes f) ->
  exists r m' f',
    solve_loop fuel m f = Ok (r, m', f')
    /\ maze_ok g0 R C s m'
    /\ steps m' - len (explored_nodes f') = steps m - len (explored_nodes f)
    /\ kind f' = kind f
    /\ match r with
       | None => inv g0 R C s m' f' /\ P f' /\ nodes f' = []
       | Some t =>
           node_state t = TARGET
           /\ exists m1 f1 rest,
                inv g0 R C s m1 f1 /\ P f1 /\ pops f1 t rest
                /\ f' = {| kind := kind f1; nodes := rest;
                           explored_nodes := explored_nodes f1 ++ [t] |}
       end.
Proof.
  induction fuel as [|fuel IH]; intros m f Hinv HP Hfuel.
  - destruct (is_empty f) eqn:He.
    + rewrite solve_loop_empty by auto. exists None, m, f.
      split; [reflexivity|]. split; [apply (inv_maze _ _ _ _ _ _ Hinv)|].
      split; [reflexivity|]. split; [reflexivity|].
      split; [exact Hinv|]. split; [exact HP|].
      apply is_empty_true; auto.
    + exfalso. pose proof (inv_size m f Hinv) as Hs.
      unfold is_empty in He. apply Z.eqb_neq in He.
      pose proof (len_nonneg (nodes f)). lia.
  - rewrite solve_loop_S. destruct (is_empty f) eqn:He.
    + exists None, m, f.
      split; [reflexivity|]. split; [apply (inv_maze _ _ _ _ _ _ Hinv)|].
      split; [reflexivity|]. split; [reflexivity|].
      split; [exact Hinv|]. split; [exact HP|].
      apply is_empty_true; auto.
    + destruct (step_spec g0 R C s Hbounds m f Hinv He)
        as (u & rest & news & m1 & f1 & f2 & Hpm & Hm1 & Hst & Hex & It).
      rewrite Hpm. simpl.
      pose proof (it_f1 _ _ _ _ _ _ _ It) as Hf1.
      pose proof (it_f2 _ _ _ _ _ _ _ It) as Hf2.
      destruct (Ascii.eqb (node_state u) TARGET) eqn:Et.
      * apply Ascii.eqb_eq in Et. exists (Some u), m1, f1.
        split; auto. split; auto. split.
        { rewrite Hf1. simpl. unfold len. rewrite length_app. simpl. lia. }
        split; [rewrite Hf1; reflexivity|].
        split; auto. exists m, f, rest.
        split; [exact Hinv|]. split; [exact HP|].
        split; [apply (it_pops _ _ _ _ _ _ _ It) | exact Hf1].
      * apply Ascii.eqb_neq in Et. rewrite Hex. simpl.
        destruct (IH m1 f2) as (r & m' & f' & Hrun & Hm' & Hsteps & Hk & Hr).
        { eapply inv_step; eauto. }
        { eapply P_step; eauto. }
        { rewrite Hf2. simpl. unfold len. rewrite length_app. simpl.
          unfold len in Hfuel. lia. }
        exists r, m', f'. split; auto. split; auto. split.
        { rewrite Hsteps, Hf2. simpl. unfold len. rewrite length_app.
          simpl. lia. }
        split; auto. rewrite Hk, Hf2. reflexivity.
Qed.
End Run.

(** ** Construction: scanning for the markers, validation *)

Lemma cell_nth (g : grid) (r k : nat) (row : list ascii) (c : ascii) :
  nth_error g r = Some row -> nth_error row k = Some c ->
  cell g (Z.of_nat r, Z.of_nat k) = Some c.
Proof.
  intros Hr Hk. unfold cell.
  assert (Hb1 : (Z.of_nat r <? 0) = false) by (apply Z.ltb_ge; lia).
  assert (Hb2 : (Z.of_nat k <? 0) = false) by (apply Z.ltb_ge; lia).
  rewrite Hb1, Hb2, !Nat2Z.id, Hr. simpl. exact Hk.
Qed.

Lemma count_row_pos (row : list ascii) (k : nat) (c : ascii) :
  nth_error row k = Some c -> (1 <= count_occ ascii_dec row c)%nat.
Proof.
  intros H. apply nth_error_In in H.
  apply (count_occ_In ascii_dec) in H. lia.
Qed.

Lemma count_row_unique (row : list ascii) (c : ascii) : forall k k',
  count_occ ascii_dec row c = 1%nat ->
  nth_error row k = Some c -> nth_error row k' = Some c -> k = k'.
Proof.
  induction row as [|a row IH]; intros k k' Hc Hk Hk'.
  - destruct k; discriminate.
  - simpl in Hc. destruct (ascii_dec a c) as [E|NE].
    + assert (H0 : count_occ ascii_dec row c = 0%nat) by lia.
      destruct k as [|k], k' as [|k']; simpl in *; auto.
      * apply count_row_pos in Hk'. lia.
      * apply count_row_pos in Hk. lia.
      * apply count_row_pos in Hk. lia.
    + destruct k as [|k], k' as [|k']; simpl in *; try congruence.
      f_equal. eapply IH; eauto.
Qed.

Lemma count_cells_cons (c : ascii) (row : list ascii) (g : grid) :
  count_cells c (row :: g) = (count_occ ascii_dec row c + count_cells c g)%nat.
Proof. unfold count_cells. simpl. apply count_occ_app. Qed.

Lemma count_grid_pos (g : grid) (c : ascii) : forall r k row,
  nth_error g r = Some row -> nth_error row k = Some c ->
  (1 <= count_cells c g)%nat.
Proof.
  induction g as [|row0 g IH]; intros r k row Hr Hk.
  - destruct r; discriminate.
  - rewrite count_cells_cons. destruct r as [|r]; simpl in Hr.
    + inversion Hr; subst. apply count_row_pos in Hk. lia.
    + specialize (IH r k row Hr Hk). lia.
Qed.

Lemma count_grid_unique (g : grid) (c : ascii) : forall r k row r' k' row',
  count_cells c g = 1%nat ->
  nth_error g r = Some row -> nth_error row k = Some c ->
  nth_error g r' = Some row' -> nth_error row' k' = Some c ->
  r = r' /\ k = k'.
Proof.
  induction g as [|row0 g IH]; intros r k row r' k' row' Hc Hr Hk Hr' Hk'.
  - destruct r; discriminate.
  - rewrite count_cells_cons in Hc.
    destruct r as [|r], r' as [|r']; simpl in Hr, Hr'.
    + inversion Hr; inversion Hr'; subst. split; auto.
      pose proof (count_row_pos _ _ _ Hk).
      eapply count_row_unique; eauto. lia.
    + inversion Hr; subst. pose proof (count_row_pos _ _ _ Hk).
      pose proof (count_grid_pos _ _ _ _ _ Hr' Hk'). lia.
    + inversion Hr'; subst. pose proof (count_row_pos _ _ _ Hk').
      pose proof (count_grid_pos _ _ _ _ _ Hr Hk). lia.
    + pose proof (count_grid_pos _ _ _ _ _ Hr Hk).
      destruct (IH r k row r' k' row') as [-> ->]; auto. lia.
Qed.

Lemma count_cells_pos (g : grid) (p : coord) (c : ascii) :
  cell g p = Some c -> (1 <= count_cells c g)%nat.
Proof.
  destruct p as [x y]. intros H.
  apply cell_Some_inv in H as (_ & _ & row & Hr & Hk).
  eapply count_grid_pos; eauto.
Qed.

Lemma count_cells_unique (g : grid) (p q : coord) (c : ascii) :
  count_cells c g = 1%nat -> cell g p = Some c -> cell g q = Some c -> p = q.
Proof.
  destruct p as [x y], q as [x' y']. intros Hc Hp Hq.
  apply cell_Some_inv in Hp as (Hx & Hy & row & Hr & Hk).
  apply cell_Some_inv in Hq as (Hx' & Hy' & row' & Hr' & Hk').
  destruct (count_grid_unique g c _ _ _ _ _ _ Hc Hr Hk Hr' Hk') as [E1 E2].
  f_equal; lia.
Qed.

Section Scan.
(** [sel] picks the start or the end point out of the pair that the
    scan carries; [ch] is its marker. *)
Variable sel : option coord * option coord -> option coord.
Variable ch : ascii.
Hypothesis Hsel : forall i j acc c,
  sel (scan_cell i j acc c) = if Ascii.eqb c ch then Some (i, j) else sel acc.

Lemma scan_row_spec (i : Z) : forall row j acc,
  (sel (scan_row i j row acc) = sel acc
   /\ count_occ ascii_dec row ch = 0%nat)
  \/ (exists k, sel (scan_row i j row acc) = Some (i, j + Z.of_nat k)
                /\ nth_error row k = Some ch).
Proof.
  induction row as [|c row IH]; intros j acc; simpl.
  - left. auto.
  - destruct (IH (j + 1) (scan_cell i j acc c)) as [[E Hc]|(k & E & Hk)].
    + rewrite E, Hsel. destruct (Ascii.eqb_spec c ch) as [->|NE].
      * right. exists O. split; [f_equal; f_equal; lia | reflexivity].
      * left. split; auto. destruct (ascii_dec c ch); [contradiction | auto].
    + right. exists (S k). split; [rewrite E; f_equal; f_equal; lia | exact Hk].
Qed.

Lemma scan_rows_spec : forall rows i acc,
  (sel (scan_rows i rows acc) = sel acc /\ count_cells ch rows = 0%nat)
  \/ (exists r k row,
        sel (scan_rows i rows acc) = Some (i + Z.of_nat r, Z.of_nat k)
        /\ nth_error rows r = Some row /\ nth_error row k = Some ch).
Proof.
  induction rows as [|row rows IH]; intros i acc; simpl.
  - left. auto.
  - destruct (IH (i + 1) (scan_row i 0 row acc))
      as [[E Hc]|(r & k & row' & E & Hr & Hk)].
    + rewrite E. destruct (scan_row_spec i row 0 acc) as [[E' Hc']|(k & E' & Hk)].
      * left. rewrite count_cells_cons. split; [auto | lia].
      * right. exists O, k, row. split; [|auto].
        rewrite E'. f_equal; f_equal; lia.
    + right. exists (S r), k, row'. split; [|auto].
      rewrite E. f_equal; f_equal; lia.
Qed.

Hypothesis Hsel0 : sel (None, None) = None.

Lemma scan_found (g : grid) :
  match sel (_get_start_end_points g) with
  | Some p => cell g p = Some ch
  | None => count_cells ch g = 0%nat
  end.
Proof.
  unfold _get_start_end_points.
  destruct (scan_rows_spec g 0 (None, None))
    as [[E Hc]|(r & k & row & E & Hr & Hk)].
  - rewrite E, Hsel0. exact Hc.
  - rewrite E. simpl. eapply cell_nth; eauto.
Qed.
End Scan.

Lemma scan_start (g : grid) :
  match fst (_get_start_end_points g) with
  | Some p => cell g p = Some START
  | None => count_cells START g = 0%nat
  end.
Proof.
  apply scan_found; auto.
  intros i j acc c. unfold scan_cell.
  destruct (Ascii.eqb c START); [reflexivity|].
  destruct (Ascii.eqb c TARGET); reflexivity.
Qed.

Lemma scan_end (g : grid) :
  match snd (_get_start_end_points g) with
  | Some p => cell g p = Some TARGET
  | None => count_cells TARGET g = 0%nat
  end.
Proof.
  apply scan_found; auto.
  intros i j acc c. unfold scan_cell.
  destruct (Ascii.eqb_spec c START) as [->|NE]; [reflexivity|].
  destruct (Ascii.eqb c TARGET); reflexivity.
Qed.

Lemma existsb_negb_forallb {A} (p : A -> bool) (l : list A) :
  existsb (fun a => negb (p a)) l = negb (forallb p l).
Proof.
  induction l as [|a l IH]; simpl; auto.
  rewrite IH. destruct (p a); reflexivity.
Qed.

Lemma subscript_head {A} (s : site) (a : A) (l : list A) :
  subscript s (a :: l) 0 = Ok a.
Proof. apply subscript_nth; [lia | reflexivity]. Qed.

(** The grids that [Maze.__init__] accepts. *)
Lemma Maze_init_cases (g : grid) :
  match Maze_init g with
  | Ok m =>
      g <> [] /\ rectangular g = true
      /\ m = {| maze_arr := g;
                start_point := fst (_get_start_end_points g);
                end_point := snd (_get_start_end_points g);
                rows_count := len g;
                cells_count := len (hd [] g);
                steps := 0 |}
      /\ (exists s, start_point m = Some s /\ cell g s = Some START)
      /\ (exists t, end_point m = Some t /\ cell g t = Some TARGET)
  | Raise e =>
      (exists msg, e = ConfigError msg)
      /\ (g = [] \/ rectangular g = false
          \/ count_cells START g = 0%nat \/ count_cells TARGET g = 0%nat)
  end.
Proof.
  unfold Maze_init, _validate_maze_points.
  pose proof (scan_start g) as Hs. pose proof (scan_end g) as He.
  destruct (_get_start_end_points g) as [sp ep]. simpl in Hs, He.
  destruct g as [|row0 g'].
  - simpl. split; eauto.
  - assert (Hl : (len (row0 :: g') <? 1) = false).
    { apply Z.ltb_ge. unfold len. simpl. lia. }
    rewrite Hl, subscript_head. cbn [bind].
    rewrite existsb_negb_forallb.
    change (forallb (fun row => len row =? len row0) (row0 :: g'))
      with (rectangular (row0 :: g')).
    destruct (rectangular (row0 :: g')) eqn:Hrect; cbn [negb].
    + destruct ep as [t|]; cbn [tuple_len].
      * destruct sp as [s|]; cbn [tuple_len].
        -- simpl.
           split; [discriminate|]. split; auto. split; auto.
           split; eauto.
        -- simpl. split; eauto.
      * simpl. split; eauto.
    + simpl. split; eauto.
Qed.

Lemma rectangular_bounds (g : grid) :
  rectangular g = true -> bounds g (len g) (len (hd [] g)).
Proof.
  intros Hrect [x y]. unfold rectangular in Hrect.
  rewrite forallb_forall in Hrect. unfold in_grid. cbn [fst snd]. split.
  - intros H. destruct (cell g (x, y)) as [c|] eqn:Hc; [|congruence].
    apply cell_Some_inv in Hc as (Hx & Hy & row & Hr & Hk).
    assert (Hlx : (Z.to_nat x < length g)%nat)
      by (apply nth_error_Some; congruence).
    assert (Hly : (Z.to_nat y < length row)%nat)
      by (apply nth_error_Some; congruence).
    apply nth_error_In in Hr. apply Hrect in Hr. apply Z.eqb_eq in Hr.
    unfold len in *. lia.
  - intros [Hx Hy]. unfold cell.
    assert (Hb1 : (x <? 0) = false) by (apply Z.ltb_ge; lia).
    assert (Hb2 : (y <? 0) = false) by (apply Z.ltb_ge; lia).
    rewrite Hb1, Hb2. simpl.
    destruct (nth_error g (Z.to_nat x)) as [row|] eqn:Hr.
    + apply nth_error_Some.
      apply nth_error_In in Hr. apply Hrect in Hr. apply Z.eqb_eq in Hr.
      unfold len in *. lia.
    + apply nth_error_None in Hr. unfold len in Hx. lia.
Qed.

Lemma valid_grid_inv (g : grid) :
  valid_grid g ->
  g <> [] /\ rectangular g = true
  /\ count_cells START g = 1%nat /\ count_cells TARGET g = 1%nat.
Proof.
  unfold valid_grid, is_valid_grid. rewrite !andb_true_iff.
  intros [[[H1 H2] H3] H4].
  apply Nat.eqb_eq in H3, H4. repeat split; auto.
  intros ->. discriminate H1.
Qed.

(** What construction gives on a valid grid. *)
Lemma valid_grid_init (g : grid) :
  valid_grid g ->
  exists s t,
    Maze_init g = Ok {| maze_arr := g;
                        start_point := Some s;
                        end_point := Some t;
                        rows_count := len g;
                        cells_count := len (hd [] g);
                        steps := 0 |}
    /\ cell g s = Some START /\ cell g t = Some TARGET
    /\ (forall p, cell g p = Some START -> p = s)
    /\ (forall p, cell g p = Some TARGET -> p = t).
Proof.
  intros Hv. destruct (valid_grid_inv g Hv) as (Hne & Hrect & HA & HB).
  pose proof (Maze_init_cases g) as H.
  destruct (Maze_init g) as [m|e].
  - destruct H as (_ & _ & Hm & (s & Hs & Hcs) & (t & Ht & Hct)).
    exists s, t. subst m. simpl in Hs, Ht. rewrite Hs, Ht.
    split; auto. split; auto. split; auto. split.
    + intros p Hp. apply (count_cells_unique g p s START); auto.
    + intros p Hp. apply (count_cells_unique g p t TARGET); auto.
  - destruct H as (_ & [H|[H|[H|H]]]); congruence.
Qed.

Section Seed.
Variable g0 : grid.
Variables R C : Z.
Variable s : coord.
Hypothesis Hbounds : bounds g0 R C.

Lemma seed_inv (m : Maze) (k : discipline) :
  maze_ok g0 R C s m -> passable g0 s ->
  exists root,
    seed m (new_frontier k)
    = Ok (root, {| kind := k; nodes := [root]; explored_nodes := [] |})
    /\ node_parent root = None /\ node_coord root = s
    /\ inv g0 R C s m {| kind := k; nodes := [root]; explored_nodes := [] |}.
Proof.
  intros Hm (c & Hc & Hw). pose proof Hm as (HR & HC & Hs & Hrel).
  destruct (grid_rel_cell _ _ _ _ Hrel Hc) as (c' & Hc' & Hmk).
  destruct s as [x y] eqn:Es.
  set (root := {| node_state := c'; node_parent := None;
                  node_x := x; node_y := y; node_action := None |}).
  exists root. split.
  { unfold seed. rewrite Hs. rewrite (get_cell_cell _ _ _ _ Hc'). reflexivity. }
  split; [reflexivity|]. split; [reflexivity|].
  constructor; simpl.
  - exact Hm.
  - constructor; [intros [] | constructor].
  - intros n [<-|[]]. split; simpl; [|reflexivity].
    exists c. auto.
  - left. reflexivity.
  - intros u q [].
  - intros u [].
  - intros n [<-|[]] _. reflexivity.
Qed.
End Seed.

(** ** Parent chains and path reconstruction *)

Lemma depth_eq (n : Node) :
  depth n = match node_parent n with
            | Some p => S (depth p)
            | None => O
            end.
Proof. destruct n; reflexivity. Qed.

Lemma chain_eq (n : Node) :
  chain n = n :: match node_parent n with
                 | Some p => chain p
                 | None => []
                 end.
Proof. destruct n; reflexivity. Qed.

Lemma mark_path_eq (arr : grid) (n : Node) :
  mark_path arr n =
  if negb (Ascii.eqb (node_state n) START) then
    arr' <- set_cell arr (node_x n) (node_y n) PATH ;;
    match node_parent n with
    | Some p => mark_path arr' p
    | None => Raise AttributeError
    end
  else Ok arr.
Proof. destruct n; reflexivity. Qed.

Lemma chain_length (n : Node) : length (chain n) = S (depth n).
Proof.
  remember (depth n) as d eqn:Hd. revert n Hd.
  induction d as [|d IH]; intros n Hd; rewrite chain_eq; rewrite depth_eq in Hd;
    destruct (node_parent n) as [p|]; simpl; try discriminate; auto.
Qed.

Lemma chain_nonempty (n : Node) : chain n <> [].
Proof. rewrite chain_eq. discriminate. Qed.

Lemma inner_length (n p : Node) :
  node_parent n = Some p -> S (length (inner n)) = depth n.
Proof.
  intros Hp. unfold inner. rewrite chain_eq, Hp. simpl.
  rewrite (depth_eq n), Hp. f_equal.
  pose proof (chain_length p) as Hl. pose proof (chain_nonempty p) as Hne.
  destruct (exists_last Hne) as (l & a & E). rewrite E in *.
  rewrite removelast_last. rewrite length_app in Hl. simpl in Hl. lia.
Qed.

Lemma removelast_chain (n a : Node) :
  In a (removelast (chain n)) ->
  In a (chain n) /\ exists p, node_parent a = Some p.
Proof.
  remember (depth n) as d eqn:Hd. revert n Hd.
  induction d as [|d IH]; intros n Hd; rewrite chain_eq; rewrite depth_eq in Hd;
    destruct (node_parent n) as [p|] eqn:Hp; try discriminate; simpl.
  - intros [].
  - pose proof (chain_nonempty p) as Hne.
    destruct (chain p) as [|b l] eqn:Ec; [congruence|].
    rewrite <- Ec in *. intros [<-|Ha].
    + split; [left; reflexivity | eauto].
    + destruct (IH p) as [H1 H2]; auto; try lia.
Qed.

Section Path.
Variable g0 : grid.
Variables R C : Z.
Variable s : coord.
Hypothesis Hstart : startable g0 R C s.

Lemma state_start_iff (m : Maze) (f : Frontier) (n : Node) :
  inv g0 R C s m f -> In n (explored_nodes f ++ nodes f) ->
  node_state n = START <-> node_parent n = None.
Proof.
  intros Hinv Hn. destruct Hstart as (_ & Hs & Huniq).
  destruct (inv_node _ _ _ _ _ _ Hinv n Hn) as [(c & Hc & _ & Hmk) Hpar].
  split.
  - intros E. rewrite E in Hmk. apply marked_start in Hmk.
    assert (Ec : c = START) by (apply Hmk; reflexivity). subst c.
    apply (inv_rootless _ _ _ _ _ _ Hinv n Hn). apply Huniq. exact Hc.
  - intros E. rewrite E in Hpar. rewrite Hpar, Hs in Hc.
    inversion Hc; subst c. apply (marked_start _ _ Hmk). reflexivity.
Qed.

Lemma chain_explored (m : Maze) (f : Frontier) : forall (d : nat) (n a : Node),
  inv g0 R C s m f -> depth n = d ->
  In n (explored_nodes f ++ nodes f) -> In a (chain n) ->
  a = n \/ In a (explored_nodes f).
Proof.
  induction d as [|d IH]; intros n a Hinv Hd Hn Ha;
    rewrite chain_eq in Ha; rewrite depth_eq in Hd;
    destruct (node_parent n) as [p|] eqn:Hp; try discriminate;
    destruct Ha as [<-|Ha]; auto; try contradiction.
  right. destruct (inv_node _ _ _ _ _ _ Hinv n Hn) as [_ Hpar].
  rewrite Hp in Hpar. destruct Hpar as [Hpe _].
  destruct (IH p a Hinv) as [->|H]; auto; try lia.
  apply in_or_app. left. exact Hpe.
Qed.

(** [mark_path] marks the nodes of the chain below the root and stops
    at the root. *)
Lemma mark_path_spec (m : Maze) (f : Frontier) :
  inv g0 R C s m f ->
  forall (d : nat) (n : Node) (arr : grid),
    depth n = d -> In n (explored_nodes f) ->
    (forall q, cell g0 q <> None -> cell arr q <> None) ->
    exists arr',
      mark_path arr n = Ok arr'
      /\ forall q,
           (In q (coords (removelast (chain n))) -> cell arr' q = Some PATH)
           /\ (~ In q (coords (removelast (chain n))) ->
               cell arr' q = cell arr q).
Proof.
  intros Hinv. induction d as [|d IH]; intros n arr Hd Hn Hdom;
    assert (Hn' : In n (explored_nodes f ++ nodes f))
      by (apply in_or_app; left; exact Hn);
    pose proof (state_start_iff m f n Hinv Hn') as Hst;
    rewrite mark_path_eq, chain_eq; rewrite depth_eq in Hd;
    destruct (node_parent n) as [p|] eqn:Hp; try discriminate.
  - assert (E : node_state n = START) by (apply Hst; reflexivity).
    rewrite E. simpl. exists arr. split; auto. intros q. simpl. tauto.
  - assert (NE : node_state n <> START).
    { intros E. apply Hst in E. discriminate. }
    apply Ascii.eqb_neq in NE. rewrite NE. simpl.
    destruct (inv_node _ _ _ _ _ _ Hinv n Hn') as [(c & Hc & _) Hpar].
    rewrite Hp in Hpar. destruct Hpar as [Hpe _].
    assert (Hca : cell arr (node_coord n) <> None)
      by (apply Hdom; congruence).
    destruct (cell arr (node_coord n)) as [c1|] eqn:Hc1; [|congruence].
    destruct (set_cell_cell arr (node_x n) (node_y n) c1 PATH Hc1)
      as (arr1 & Hset & Harr1).
    rewrite Hset. simpl.
    destruct (IH p arr1) as (arr' & Hmp & Hspec); auto; try lia.
    { intros q Hq. rewrite Harr1.
      destruct (coord_eq_dec q (node_x n, node_y n)); [discriminate | auto]. }
    exists arr'. split; auto. intros q.
    pose proof (chain_nonempty p) as Hne.
    destruct (chain p) as [|b l] eqn:Ec; [congruence|]. rewrite <- Ec in *.
    change (removelast (n :: chain p)) with
      (match chain p with [] => [] | _ :: _ => n :: removelast (chain p) end).
    rewrite Ec. rewrite <- Ec. simpl.
    destruct (Hspec q) as [H1 H2]. split.
    + intros [E|Hq]; auto.
      destruct (in_dec coord_eq_dec q (coords (removelast (chain p))))
        as [Hi|Hni]; auto.
      rewrite (H2 Hni), Harr1.
      destruct (coord_eq_dec q (node_x n, node_y n)); [auto|].
      exfalso. apply n0. rewrite <- E. reflexivity.
    + intros Hq. rewrite H2 by tauto. rewrite Harr1.
      destruct (coord_eq_dec q (node_x n, node_y n)) as [E|NE']; auto.
      exfalso. apply Hq. left. rewrite E. reflexivity.
Qed.
End Path.

(** ** The whole search *)

Lemma startable_passable (g : grid) (R C : Z) (s : coord) :
  startable g R C s -> passable g s.
Proof.
  intros (_ & Hs & _). exists START. split; auto. discriminate.
Qed.

Lemma ready_maze_ok (m : Maze) (R C : Z) (s : coord) :
  ready m R C s -> maze_ok (maze_arr m) R C s m.
Proof.
  intros (HR & HC & Hs & _). repeat split; auto. apply grid_rel_refl.
Qed.

Section Search.
Variable g0 : grid.
Variables R C : Z.
Variable s : coord.
Hypothesis Hstart : startable g0 R C s.

Variable P : Frontier -> Prop.
Hypothesis P_step :
  forall m f u rest news f1 f2,
    inv g0 R C s m f -> P f -> iteration g0 f u rest news f1 f2 ->
    node_state u <> TARGET -> P f2.

Lemma search_run (fuel : nat) (m : Maze) (k : discipline) :
  maze_ok g0 R C s m ->
  (forall root, node_parent root = None -> node_coord root = s ->
                P {| kind := k; nodes := [root]; explored_nodes := [] |}) ->
  R * C <= Z.of_nat fuel ->
  exists r m' f',
    search fuel m (new_frontier k) = Ok (r, m', f')
    /\ maze_ok g0 R C s m'
    /\ steps m' = steps m + len (explored_nodes f')
    /\ kind f' = k
    /\ match r with
       | None => inv g0 R C s m' f' /\ P f' /\ nodes f' = []
       | Some t => found_at g0 R C s P t f'
       end.
Proof.
  intros Hm HP Hfuel. destruct Hstart as (Hbounds & _).
  destruct (seed_inv g0 R C s m k Hm (startable_passable _ _ _ _ Hstart))
    as (root & Hseed & Hpar & Hco & Hinv).
  destruct (solve_loop_run g0 R C s Hbounds P P_step fuel m _ Hinv
              (HP root Hpar Hco))
    as (r & m' & f' & Hrun & Hm' & Hsteps & Hk & Hr).
  { simpl. unfold len. simpl. lia. }
  exists r, m', f'. split.
  { unfold search. rewrite Hseed. simpl. exact Hrun. }
  split; auto. split.
  { simpl in Hsteps. unfold len in Hsteps at 2. simpl in Hsteps. lia. }
  split; auto.
Qed.

Lemma found_at_size (t : Node) (f' : Frontier) :
  found_at g0 R C s P t f' ->
  len (explored_nodes f') <= R * C
  /\ NoDup (coords (explored_nodes f' ++ nodes f')).
Proof.
  intros (_ & m1 & f1 & rest & Hinv & _ & Hp & ->). simpl.
  destruct Hstart as (Hbounds & _). split.
  - pose proof (inv_size g0 R C s Hbounds m1 f1 Hinv) as Hs.
    pose proof (pops_length _ _ _ Hp) as Hl.
    unfold len in *. rewrite length_app. simpl. lia.
  - apply (pops_nodup f1 t rest _ Hp). apply (inv_nodup _ _ _ _ _ _ Hinv).
Qed.

Lemma apply_solution_spec (m' : Maze) (t : Node) (f' : Frontier) :
  found_at g0 R C s P t f' -> maze_ok g0 R C s m' ->
  exists m2 p,
    node_parent t = Some p
    /\ _apply_solution m' t = Ok m2
    /\ rows_count m2 = rows_count m' /\ cells_count m2 = cells_count m'
    /\ start_point m2 = start_point m' /\ end_point m2 = end_point m'
    /\ steps m2 = steps m'
    /\ forall q,
         (In q (coords (inner t)) ->
            cell (maze_arr m2) q = Some PATH
            /\ exists c, cell g0 q = Some c
                         /\ c <> START /\ c <> TARGET /\ c <> WALL)
         /\ (~ In q (coords (inner t)) ->
               cell (maze_arr m2) q = cell (maze_arr m') q).
Proof.
  intros (Ht & m1 & f1 & rest & Hinv & _ & Hp & Hf') Hm'.
  assert (Htn : In t (explored_nodes f1 ++ nodes f1)).
  { apply in_or_app. right. eapply pops_In; eauto. }
  destruct (node_parent t) as [p|] eqn:Hpar.
  2:{ exfalso. apply (state_start_iff g0 R C s Hstart m1 f1 t Hinv Htn) in Hpar.
      rewrite Ht in Hpar. discriminate. }
  destruct (inv_node _ _ _ _ _ _ Hinv t Htn) as [_ Hpt].
  rewrite Hpar in Hpt. destruct Hpt as [Hpe _].
  destruct Hm' as (HR & HC & Hs & Hrel).
  destruct (mark_path_spec g0 R C s Hstart m1 f1 Hinv (depth p) p
              (maze_arr m') eq_refl Hpe)
    as (arr' & Hmp & Hspec).
  { intros q Hq. destruct (cell g0 q) as [c|] eqn:Hc; [|congruence].
    destruct (grid_rel_cell _ _ _ _ Hrel Hc) as (c' & -> & _). discriminate. }
  exists (set_maze_arr m' arr'), p. split; auto. split.
  { unfold _apply_solution. rewrite Hpar, Hmp. reflexivity. }
  simpl. repeat (split; [reflexivity|]).
  assert (Ein : inner t = removelast (chain p)).
  { unfold inner. rewrite (chain_eq t), Hpar. reflexivity. }
  rewrite Ein. intros q. destruct (Hspec q) as [H1 H2]. split; auto.
  intros Hq. split; auto.
  unfold coords in Hq. apply in_map_iff in Hq. destruct Hq as (a & <- & Ha).
  apply removelast_chain in Ha. destruct Ha as [Ha (pa & Hpa)].
  assert (Hae : In a (explored_nodes f1)).
  { destruct (chain_explored g0 R C s m1 f1 (depth p) p a Hinv eq_refl)
      as [->|H]; auto.
    apply in_or_app. left. exact Hpe. }
  assert (Han : In a (explored_nodes f1 ++ nodes f1))
    by (apply in_or_app; left; exact Hae).
  destruct (inv_node _ _ _ _ _ _ Hinv a Han) as [(c & Hc & Hw & Hmk) _].
  exists c. split; auto. split; [|split; auto].
  - intros E. subst c. destruct Hstart as (_ & _ & Huniq).
    apply Huniq in Hc.
    rewrite (inv_rootless _ _ _ _ _ _ Hinv a Han Hc) in Hpa. discriminate.
  - intros E. subst c.
    apply (inv_nontarget _ _ _ _ _ _ Hinv a Hae).
    apply (marked_target _ _ Hmk). reflexivity.
Qed.
End Search.

Lemma marked_path_start (g0 g1 g2 : grid) (R C : Z) (s : coord) (l : list coord) :
  startable g0 R C s -> grid_rel g0 g1 ->
  (forall q,
     (In q l -> cell g2 q = Some PATH
                /\ exists c, cell g0 q = Some c
                             /\ c <> START /\ c <> TARGET /\ c <> WALL)
     /\ (~ In q l -> cell g2 q = cell g1 q)) ->
  startable g2 R C s.
Proof.
  intros (Hb & Hs & Huniq) Hrel Hspec.
  assert (Hcases : forall q,
    (cell g2 q = Some PATH /\ exists c, cell g0 q = Some c /\ c <> START)
    \/ (cell g2 q = cell g1 q)).
  { intros q. destruct (in_dec coord_eq_dec q l) as [Hi|Hni].
    - left. destruct (proj1 (Hspec q) Hi) as (H1 & c & Hc & Hns & _). eauto.
    - right. apply (proj2 (Hspec q) Hni). }
  split; [|split].
  - intros q. rewrite <- (Hb q). destruct (Hcases q) as [(E & c & Hc & _)|E].
    + rewrite E, Hc. split; discriminate.
    + rewrite E. specialize (Hrel q).
      destruct (cell g0 q), (cell g1 q); try contradiction;
        split; congruence.
  - destruct (Hcases s) as [(_ & c & Hc & Hns)|E].
    + congruence.
    + rewrite E. destruct (grid_rel_cell _ _ _ _ Hrel Hs) as (c' & Hc' & Hmk).
      rewrite Hc'. f_equal. apply (marked_start _ _ Hmk). reflexivity.
  - intros p Hp. apply Huniq. destruct (Hcases p) as [(E & _)|E].
    + rewrite E in Hp. discriminate.
    + rewrite E in Hp.
      destruct (grid_rel_cell_inv _ _ _ _ Hrel Hp) as (c & Hc & Hmk).
      rewrite Hc. f_equal. apply (marked_start _ _ Hmk). reflexivity.
Qed.

(** [solve] returns on every ready maze, and leaves it ready. *)
Lemma solve_total (m : Maze) (R C : Z) (s : coord) (k : discipline) (fuel : nat) :
  ready m R C s -> R * C <= Z.of_nat fuel ->
  exists b m' f',
    solve fuel m (new_frontier k) = Ok (b, m', f')
    /\ ready m' R C s
    /\ steps m' = steps m + len (explored_nodes f')
    /\ len (explored_nodes f') <= R * C
    /\ NoDup (coords (explored_nodes f' ++ nodes f'))
    /\ kind f' = k.
Proof.
  intros Hready Hfuel. pose proof Hready as (HR & HC & Hs & Hst).
  pose proof (ready_maze_ok _ _ _ _ Hready) as Hm.
  destruct (search_run (maze_arr m) R C s Hst (fun _ => True)
              (fun _ _ _ _ _ _ _ _ _ _ _ => I) fuel m k Hm (fun _ _ _ => I) Hfuel)
    as (r & m1 & f' & Hrun & Hm1 & Hsteps & Hk & Hr).
  unfold solve. rewrite Hrun. simpl.
  destruct Hm1 as (HR1 & HC1 & Hs1 & Hrel). destruct r as [t|].
  - destruct (apply_solution_spec (maze_arr m) R C s Hst _ m1 t f' Hr)
      as (m2 & p & Hp & Happ & E1 & E2 & E3 & E4 & E5 & Hspec).
    { repeat split; auto. }
    destruct (found_at_size (maze_arr m) R C s Hst _ t f' Hr) as [Hsz Hnd].
    rewrite Happ. simpl. exists true, m2, f'.
    split; [reflexivity|]. split.
    { split; [congruence|]. split; [congruence|]. split; [congruence|].
      eapply marked_path_start; eauto. }
    split; [congruence|]. split; [exact Hsz|]. split; [exact Hnd | exact Hk].
  - destruct Hr as (Hinv & _ & Hn). exists false, m1, f'.
    split; [reflexivity|]. split.
    { split; [congruence|]. split; [congruence|]. split; [congruence|].
      apply (marked_path_start (maze_arr m) (maze_arr m1) (maze_arr m1) R C s []);
        auto.
      intros q. split; [intros [] | auto]. }
    split; [exact Hsteps|]. destruct Hst as (Hb & Hst). split.
    { pose proof (inv_size _ R C s Hb m1 f' Hinv).
      pose proof (len_nonneg (nodes f')). lia. }
    split; [apply (inv_nodup _ _ _ _ _ _ Hinv) | exact Hk].
Qed.

Lemma valid_grid_ready (g : grid) :
  valid_grid g ->
  exists m s t,
    Maze_init g = Ok m /\ maze_arr m = g /\ steps m = 0
    /\ rows_count m = len g /\ cells_count m = len (hd [] g)
    /\ start_point m = Some s /\ end_point m = Some t
    /\ ready m (len g) (len (hd [] g)) s
    /\ cell g t = Some TARGET
    /\ (forall p, cell g p = Some TARGET -> p = t).
Proof.
  intros Hv. destruct (valid_grid_init g Hv) as (s & t & Hi & Hs & Ht & Hus & Hut).
  destruct (valid_grid_inv g Hv) as (_ & Hrect & _).
  eexists; exists s, t. split; [exact Hi|]. simpl.
  repeat (split; [reflexivity|]). split; [|split; auto].
  unfold ready, startable. simpl. repeat (split; [reflexivity|]).
  split; [apply rectangular_bounds; auto | split; auto].
Qed.

(** ** Exceptions of the loop *)

Lemma raises_only_Ok {A} (allowed : exn -> Prop) (a : A) :
  raises_only allowed (Ok a).
Proof. intros e H. discriminate. Qed.

Lemma raises_only_bind {A B} (allowed : exn -> Prop)
      (r : result A) (k : A -> result B) :
  raises_only allowed r -> (forall a, r = Ok a -> raises_only allowed (k a)) ->
  raises_only allowed (bind r k).
Proof.
  intros Hr Hk e. destruct r as [a|e']; simpl.
  - apply Hk. reflexivity.
  - intros H. apply Hr. inversion H. reflexivity.
Qed.

Lemma subscript_raises {A} (s : site) (l : list A) (i : Z) :
  raises_only (fun e => e = IndexError s) (subscript s l i).
Proof.
  intros e. unfold subscript. destruct (py_index (len l) i) as [k|].
  - destruct (nth_error l k); intros H; inversion H; reflexivity.
  - intros H; inversion H; reflexivity.
Qed.

Lemma store_raises {A} (s : site) (l : list A) (i : Z) (v : A) :
  raises_only (fun e => e = IndexError s) (store s l i v).
Proof.
  intros e. unfold store. destruct (py_index (len l) i) as [k|];
    intros H; inversion H; reflexivity.
Qed.

Lemma raises_only_weaken {A} (P Q : exn -> Prop) (r : result A) :
  (forall e, P e -> Q e) -> raises_only P r -> raises_only Q r.
Proof. intros H Hr e He. apply H, Hr, He. Qed.

Lemma grid_not_pending (e : exn) : e = IndexError GridCell -> not_pending e.
Proof. intros ->. discriminate. Qed.

Lemma get_cell_raises (g : grid) (x y : Z) :
  raises_only not_pending (get_cell g x y).
Proof.
  unfold get_cell. apply raises_only_bind.
  - eapply raises_only_weaken; [apply grid_not_pending | apply subscript_raises].
  - intros row _.
    eapply raises_only_weaken; [apply grid_not_pending | apply subscript_raises].
Qed.

Lemma set_cell_raises (g : grid) (x y : Z) (v : ascii) :
  raises_only not_pending (set_cell g x y v).
Proof.
  unfold set_cell. apply raises_only_bind.
  - eapply raises_only_weaken; [apply grid_not_pending | apply subscript_raises].
  - intros row _. apply raises_only_bind.
    + eapply raises_only_weaken; [apply grid_not_pending | apply store_raises].
    + intros row' _.
      eapply raises_only_weaken; [apply grid_not_pending | apply store_raises].
Qed.

Lemma next_cell_raises (m : Maze) (x y : Z) (mv : Movement) :
  raises_only not_pending (_next_cell m x y mv).
Proof.
  assert (H : forall q b, raises_only not_pending
            (if b : bool then Ok None
             else c <- get_cell (maze_arr m) (fst q) (snd q) ;;
                  if Ascii.eqb c WALL then Ok None else Ok (Some q))).
  { intros q b. destruct b; [apply raises_only_Ok|].
    apply raises_only_bind; [apply get_cell_raises|].
    intros c _. destruct (Ascii.eqb c WALL); apply raises_only_Ok. }
  destruct mv; simpl.
  - apply (H (x - 1, y)).
  - apply (H (x, y - 1)).
  - apply (H (x + 1, y)).
  - apply (H (x, y + 1)).
Qed.

Lemma neighbors_loop_raises (m : Maze) (u : Node) : forall mvs acc,
  raises_only not_pending (neighbors_loop m u mvs acc).
Proof.
  induction mvs as [|mv mvs IH]; intros acc; simpl.
  - apply raises_only_Ok.
  - apply raises_only_bind; [apply next_cell_raises|].
    intros [[x y]|] _; [|apply IH].
    apply raises_only_bind; [apply get_cell_raises|].
    intros st _. apply IH.
Qed.

Lemma pop_and_mark_raises (m : Maze) (f : Frontier) :
  is_empty f = false -> raises_only not_pending (pop_and_mark m f).
Proof.
  intros Hne. unfold pop_and_mark.
  destruct (remove_nonempty f Hne) as (u & rest & _ & ->). simpl.
  apply raises_only_bind; [apply get_cell_raises|].
  intros c _. apply raises_only_bind; [apply set_cell_raises|].
  intros arr _. apply raises_only_Ok.
Qed.

Lemma solve_loop_raises : forall (fuel : nat) (m : Maze) (f : Frontier),
  raises_only not_pending (solve_loop fuel m f).
Proof.
  induction fuel as [|fuel IH]; intros m f.
  - simpl. destruct (is_empty f); [apply raises_only_Ok|].
    intros e H. inversion H. discriminate.
  - rewrite solve_loop_S. destruct (is_empty f) eqn:He; [apply raises_only_Ok|].
    apply raises_only_bind; [apply pop_and_mark_raises; exact He|].
    intros [[u m1] f1] _.
    destruct (Ascii.eqb (node_state u) TARGET); [apply raises_only_Ok|].
    apply raises_only_bind.
    + unfold expand. apply raises_only_bind; [apply neighbors_loop_raises|].
      intros l _. apply raises_only_Ok.
    + intros f2 _. apply IH.
Qed.

Lemma mark_path_raises : forall (d : nat) (n : Node) (arr : grid),
  depth n = d -> raises_only not_pending (mark_path arr n).
Proof.
  induction d as [|d IH]; intros n arr Hd; rewrite mark_path_eq;
    rewrite depth_eq in Hd;
    (destruct (negb (Ascii.eqb (node_state n) START)); [|apply raises_only_Ok]);
    (apply raises_only_bind; [apply set_cell_raises|]); intros arr' _;
    destruct (node_parent n) as [p|]; try discriminate.
  - intros e H. inversion H. discriminate.
  - apply IH. lia.
Qed.

Lemma solve_raises (fuel : nat) (m : Maze) (f : Frontier) :
  raises_only not_pending (solve fuel m f).
Proof.
  unfold solve, search. apply raises_only_bind.
  - apply raises_only_bind.
    + unfold seed. destruct (start_point m) as [[x y]|].
      * apply raises_only_bind; [apply get_cell_raises|].
        intros st _. apply raises_only_Ok.
      * intros e H. inversion H. discriminate.
    + intros [root f0] _. apply solve_loop_raises.
  - intros [[[t|] m1] f1] _; [|apply raises_only_Ok].
    apply raises_only_bind; [|intros; apply raises_only_Ok].
    unfold _apply_solution. destruct (node_parent t) as [p|].
    + apply raises_only_bind; [|intros; apply raises_only_Ok].
      apply (mark_path_raises (depth p)). reflexivity.
    + intros e H. inversion H. discriminate.
Qed.

(** ** Step counter and explored list *)

Lemma pop_and_mark_Ok_inv (m m1 : Maze) (f f1 : Frontier) (u : Node) :
  pop_and_mark m f = Ok (u, m1, f1) ->
  steps m1 = steps m + 1 /\ explored_nodes f1 = explored_nodes f ++ [u]
  /\ is_empty f = false.
Proof.
  unfold pop_and_mark. intros H. inv_bind H. destruct a as [u' f'].
  inv_bind Hk. inv_bind Hk0. inversion Hk; subst.
  pose proof (remove_Ok_nonempty _ _ _ Hr) as Hne.
  apply remove_Ok_inv in Hr. destruct Hr as (rest & _ & ->).
  simpl. auto.
Qed.

Lemma expand_explored (m : Maze) (f f2 : Frontier) (u : Node) :
  expand m f u = Ok f2 -> explored_nodes f2 = explored_nodes f.
Proof.
  unfold expand. intros H. inv_bind H. inversion Hk; subst.
  destruct (fold_add_spec a f) as (news & -> & _). reflexivity.
Qed.

Lemma solve_loop_steps : forall (fuel : nat) (m m' : Maze) (f f' : Frontier) r,
  solve_loop fuel m f = Ok (r, m', f') ->
  steps m' - len (explored_nodes f') = steps m - len (explored_nodes f).
Proof.
  induction fuel as [|fuel IH]; intros m m' f f' r H.
  - simpl in H. destruct (is_empty f); inversion H; subst. reflexivity.
  - rewrite solve_loop_S in H. destruct (is_empty f).
    { inversion H; subst. reflexivity. }
    inv_bind H. destruct a as [[u m1] f1].
    apply pop_and_mark_Ok_inv in Hr. destruct Hr as (Hs & He & _).
    assert (Hl : len (explored_nodes f1) = len (explored_nodes f) + 1).
    { rewrite He. unfold len. rewrite length_app. simpl. lia. }
    destruct (Ascii.eqb (node_state u) TARGET).
    + inversion Hk; subst. lia.
    + inv_bind Hk. apply expand_explored in Hr. apply IH in Hk0.
      rewrite Hr in Hk0. lia.
Qed.

Lemma mark_path_Ok_steps (m m2 : Maze) (t : Node) :
  _apply_solution m t = Ok m2 -> steps m2 = steps m.
Proof.
  unfold _apply_solution. destruct (node_parent t); [|discriminate].
  intros H. inv_bind H. inversion Hk; subst. reflexivity.
Qed.

(** After any [solve] call the step counter has grown by the number of
    nodes that the call moved to the explored list. *)
Lemma solve_steps (fuel : nat) (m m' : Maze) (f f' : Frontier) (b : bool) :
  solve fuel m f = Ok (b, m', f') ->
  steps m' = steps m + (len (explored_nodes f') - len (explored_nodes f)).
Proof.
  unfold solve, search. intros H. inv_bind H. destruct a as [[r m1] f1].
  inv_bind Hr. destruct a as [root f0].
  assert (He : explored_nodes f0 = explored_nodes f).
  { unfold seed in Hr0. destruct (start_point m) as [[x y]|]; [|discriminate].
    inv_bind Hr0. inversion Hk1; subst. apply add_explored. }
  apply solve_loop_steps in Hk0. rewrite He in Hk0.
  destruct r as [t|].
  - inv_bind Hk. inversion Hk1; subst.
    apply mark_path_Ok_steps in Hr. lia.
  - inversion Hk; subst. lia.
Qed.

(** ** Concrete runs *)

(** Scenario A of the specification: the queue frontier goes around the
    wall in 4 moves and 8 steps. *)
Example run_queue_around_wall :
  run QueueFrontier ["A  "; " # "; "  B"]%string
  = Ok (true, 8, ["A//"; "*#/"; "**B"]%string).
Proof. reflexivity. Qed.

Example run_stack_around_wall :
  run StackFrontier ["A  "; " # "; "  B"]%string
  = Ok (true, 5, ["A**"; " #*"; "  B"]%string).
Proof. reflexivity. Qed.

(** Scenario C: the target is walled off. *)
Example run_walled_off :
  run QueueFrontier ["A#B"]%string = Ok (false, 1, ["A#B"]%string).
Proof. reflexivity. Qed.

(** Construction accepts a second start marker; the walk back along the
    parent links then stops at the first node whose state is the start
    marker, which need not be the root. *)
Example run_second_start_on_the_way :
  run QueueFrontier ["B A A"]%string = Ok (true, 5, ["B*A/A"]%string).
Proof. reflexivity. Qed.

(** ** Breadth-first search *)

Lemma levels_head (d : nat) (u : Node) (rest : list Node) :
  levels d (u :: rest) -> forall n, In n (u :: rest) -> (depth u <= depth n)%nat.
Proof.
  intros (q1 & q2 & E & H1 & H2) n Hn.
  assert (Hall : forall a, In a (u :: rest) -> depth a = d \/ depth a = S d).
  { intros a Ha. rewrite E in Ha. apply in_app_or in Ha.
    rewrite Forall_forall in H1, H2. destruct Ha; [left | right]; auto. }
  destruct q1 as [|a q1]; simpl in E.
  - subst q2. rewrite Forall_forall in H2.
    rewrite (H2 u), (H2 n); auto. left; reflexivity.
  - inversion E; subst a. inversion H1; subst.
    destruct (Hall n Hn); lia.
Qed.

Lemma levels_step (d : nat) (u : Node) (rest news : list Node) :
  levels d (u :: rest) -> Forall (fun n => depth n = S (depth u)) news ->
  exists d', levels d' (rest ++ news).
Proof.
  intros (q1 & q2 & E & H1 & H2) Hn.
  destruct q1 as [|a q1]; simpl in E.
  - subst q2. inversion H2; subst. exists (S d), rest, news.
    split; auto. split; auto.
    rewrite H3 in Hn. exact Hn.
  - injection E as Ea Er. subst a rest. inversion H1 as [|? ? Hd Hq1]; subst.
    exists (depth u), q1, (q2 ++ news).
    split; [symmetry; apply app_assoc|]. split; auto.
    apply Forall_app. split; auto.
Qed.

Section Bfs.
Variable g0 : grid.
Variables R C : Z.
Variable s : coord.

(** A cell outside the frontier is farther away than the head of the
    queue. *)
Lemma bfs_far (m : Maze) (f : Frontier) (u : Node) (rest : list Node) :
  inv g0 R C s m f -> inv_bfs g0 s f -> nodes f = u :: rest ->
  forall k c, walk g0 s k c ->
    In c (coords (explored_nodes f ++ nodes f)) \/ (S (depth u) <= k)%nat.
Proof.
  intros Hinv Hbfs Hq k c Hw. induction Hw as [|k p q Hw IH Hadj Hpass].
  - left. apply (inv_root _ _ _ _ _ _ Hinv).
  - destruct IH as [Hin|Hk]; [|right; lia].
    unfold coords in Hin. apply in_map_iff in Hin.
    destruct Hin as (n & Hc & Hn). subst p.
    destruct (in_app_or _ _ _ Hn) as [He|Hp].
    + left. apply (inv_closed _ _ _ _ _ _ Hinv n q); auto.
    + right. destruct (bfs_levels _ _ _ Hbfs) as (d & Hlev).
      rewrite Hq in Hlev, Hp.
      pose proof (levels_head d u rest Hlev n Hp) as Hle.
      destruct (bfs_depth _ _ _ Hbfs n Hn) as [_ Hmin].
      specialize (Hmin k Hw). lia.
Qed.

Lemma inv_bfs_step (m : Maze) (f : Frontier) (u : Node)
      (rest news : list Node) (f1 f2 : Frontier) :
  inv g0 R C s m f -> inv_bfs g0 s f -> iteration g0 f u rest news f1 f2 ->
  node_state u <> TARGET -> inv_bfs g0 s f2.
Proof.
  intros Hinv Hbfs It _.
  pose proof (it_pops _ _ _ _ _ _ _ It) as Hp.
  pose proof (bfs_kind _ _ _ Hbfs) as Hk.
  unfold pops in Hp. rewrite Hk in Hp.
  assert (Hun : In u (explored_nodes f ++ nodes f)).
  { apply in_or_app. right. rewrite Hp. left. reflexivity. }
  assert (Hnew : forall n, In n news -> depth n = S (depth u)).
  { intros n Hn. destruct (it_news _ _ _ _ _ _ _ It n Hn) as (Hpar & _).
    rewrite (depth_eq n), Hpar. reflexivity. }
  constructor.
  - rewrite (it_f2 _ _ _ _ _ _ _ It). exact Hk.
  - intros n Hn. apply (iteration_old _ _ _ _ _ _ _ _ It) in Hn.
    destruct Hn as [Hn|Hn]; [apply (bfs_depth _ _ _ Hbfs n Hn)|].
    destruct (it_news _ _ _ _ _ _ _ It n Hn) as (Hpar & Hadj & c & Hc & Hw & _).
    rewrite (Hnew n Hn). split.
    + apply (walk_move g0 s (depth u) (node_coord u) (node_coord n)); auto.
      * apply (bfs_depth _ _ _ Hbfs u Hun).
      * exists c. auto.
    + intros k' Hw'.
      destruct (bfs_far m f u rest Hinv Hbfs Hp k' _ Hw') as [Hin|Hle]; auto.
      exfalso. apply (proj2 (it_fresh _ _ _ _ _ _ _ It) n Hn). exact Hin.
  - destruct (bfs_levels _ _ _ Hbfs) as (d & Hlev). rewrite Hp in Hlev.
    rewrite (it_f2 _ _ _ _ _ _ _ It). simpl.
    apply (levels_step d u rest news Hlev).
    apply Forall_forall. exact Hnew.
Qed.

Lemma inv_bfs_init (root : Node) :
  node_parent root = None -> node_coord root = s ->
  inv_bfs g0 s {| kind := QueueFrontier; nodes := [root];
                  explored_nodes := [] |}.
Proof.
  intros Hpar Hco. constructor; simpl.
  - reflexivity.
  - intros n [<-|[]]. rewrite depth_eq, Hpar, Hco. split.
    + apply walk_here.
    + intros k' _. lia.
  - exists (depth root), [root], []. split; auto.
Qed.

(** When the loop runs out of nodes, every reachable cell was explored. *)
Lemma exhausted_closed (m : Maze) (f : Frontier) :
  inv g0 R C s m f -> nodes f = [] ->
  forall k c, walk g0 s k c -> In c (coords (explored_nodes f)).
Proof.
  intros Hinv Hq k c Hw.
  pose proof (inv_root _ _ _ _ _ _ Hinv) as Hroot.
  pose proof (inv_closed _ _ _ _ _ _ Hinv) as Hcl.
  rewrite Hq, app_nil_r in Hroot, Hcl.
  induction Hw as [|k p q Hw IH Hadj Hpass]; auto.
  unfold coords in IH. apply in_map_iff in IH.
  destruct IH as (n & <- & Hn). apply (Hcl n q); auto.
Qed.

Lemma exhausted_unreachable (m : Maze) (f : Frontier) (tg : coord) :
  inv g0 R C s m f -> nodes f = [] -> cell g0 tg = Some TARGET ->
  ~ reachable g0 s tg.
Proof.
  intros Hinv Hq Htg (k & Hw).
  pose proof (exhausted_closed m f Hinv Hq k tg Hw) as Hin.
  unfold coords in Hin. apply in_map_iff in Hin.
  destruct Hin as (n & Hc & Hn).
  apply (inv_nontarget _ _ _ _ _ _ Hinv n Hn).
  assert (Hn' : In n (explored_nodes f ++ nodes f))
    by (apply in_or_app; left; exact Hn).
  destruct (inv_node _ _ _ _ _ _ Hinv n Hn') as [(c & Hcc & _ & Hmk) _].
  rewrite Hc, Htg in Hcc. inversion Hcc; subst c.
  apply (marked_target _ _ Hmk). reflexivity.
Qed.

(** The node popped with the target state sits on a target cell. *)
Lemma found_at_target (P : Frontier -> Prop) (t : Node) (f' : Frontier) :
  found_at g0 R C s P t f' ->
  cell g0 (node_coord t) = Some TARGET.
Proof.
  intros (Ht & m1 & f1 & rest & Hinv & _ & Hp & _).
  assert (Htn : In t (explored_nodes f1 ++ nodes f1)).
  { apply in_or_app. right. eapply pops_In; eauto. }
  destruct (inv_node _ _ _ _ _ _ Hinv t Htn) as [(c & Hc & _ & Hmk) _].
  rewrite Hc. f_equal. apply (marked_target _ _ Hmk). exact Ht.
Qed.
End Bfs.

(** ** [solve] as a whole, under an additional invariant *)

Lemma solve_run (g0 : grid) (R C : Z) (s : coord) (P : Frontier -> Prop)
      (fuel : nat) (m : Maze) (k : discipline) :
  startable g0 R C s ->
  (forall m f u rest news f1 f2,
      inv g0 R C s m f -> P f -> iteration g0 f u rest news f1 f2 ->
      node_state u <> TARGET -> P f2) ->
  maze_ok g0 R C s m ->
  (forall root, node_parent root = None -> node_coord root = s ->
                P {| kind := k; nodes := [root]; explored_nodes := [] |}) ->
  R * C <= Z.of_nat fuel ->
  exists r m1 f',
    search fuel m (new_frontier k) = Ok (r, m1, f')
    /\ maze_ok g0 R C s m1
    /\ steps m1 = steps m + len (explored_nodes f')
    /\ match r with
       | None =>
           inv g0 R C s m1 f' /\ P f' /\ nodes f' = []
           /\ solve fuel m (new_frontier k) = Ok (false, m1, f')
       | Some t =>
           found_at g0 R C s P t f'
           /\ exists m2 p,
                node_parent t = Some p
                /\ solve fuel m (new_frontier k) = Ok (true, m2, f')
                /\ steps m2 = steps m1
                /\ forall q,
                     (In q (coords (inner t)) ->
                        cell (maze_arr m2) q = Some PATH
                        /\ exists c, cell g0 q = Some c
                             /\ c <> START /\ c <> TARGET /\ c <> WALL)
                     /\ (~ In q (coords (inner t)) ->
                           cell (maze_arr m2) q = cell (maze_arr m1) q)
       end.
Proof.
  intros Hst Pstep Hm Pinit Hfuel.
  destruct (search_run g0 R C s Hst P Pstep fuel m k Hm Pinit Hfuel)
    as (r & m1 & f' & Hrun & Hm1 & Hsteps & Hk & Hr).
  exists r, m1, f'. split; auto. split; auto. split; auto.
  destruct r as [t|].
  - split; auto.
    destruct (apply_solution_spec g0 R C s Hst P m1 t f' Hr Hm1)
      as (m2 & p & Hp & Happ & _ & _ & _ & _ & E5 & Hspec).
    exists m2, p. split; auto. split; auto.
    unfold solve. rewrite Hrun. simpl. rewrite Happ. reflexivity.
  - destruct Hr as (Hinv & HP & Hn). repeat (split; auto).
    unfold solve. rewrite Hrun. reflexivity.
Qed.

Lemma chain_last (n : Node) :
  exists r, chain n = removelast (chain n) ++ [r] /\ node_parent r = None.
Proof.
  remember (depth n) as d eqn:Hd. revert n Hd.
  induction d as [|d IH]; intros n Hd; rewrite chain_eq; rewrite depth_eq in Hd;
    destruct (node_parent n) as [p|] eqn:Hp; try discriminate.
  - exists n. split; auto.
  - destruct (IH p) as (r & Hc & Hr); [lia|].
    exists r. split; auto.
    pose proof (chain_nonempty p) as Hne.
    destruct (chain p) as [|b l] eqn:Ec; [congruence|]. rewrite <- Ec in *.
    change (removelast (n :: chain p)) with
      (match chain p with [] => [] | _ :: _ => n :: removelast (chain p) end).
    rewrite Ec. rewrite <- Ec. simpl. f_equal. exact Hc.
Qed.

Lemma map_injective_on {A B} (f : A -> B) (l : list A) (a b : A) :
  NoDup (map f l) -> In a l -> In b l -> f a = f b -> a = b.
Proof.
  induction l as [|c l IH]; simpl; intros Hnd Ha Hb E; [contradiction|].
  inversion Hnd; subst. destruct Ha as [->|Ha], Hb as [->|Hb]; auto.
  - exfalso. apply H1. rewrite E. apply in_map. exact Hb.
  - exfalso. apply H1. rewrite <- E. apply in_map. exact Ha.
Qed.

(** The parent chain of the popped target node runs from the target
    cell through the inner nodes to the start cell. *)
Lemma found_chain_coords (g0 : grid) (R C : Z) (s : coord) (P : Frontier -> Prop)
      (t p : Node) (f' : Frontier) :
  found_at g0 R C s P t f' -> node_parent t = Some p ->
  coords (chain t) = node_coord t :: coords (inner t) ++ [s]
  /\ depth t = S (length (inner t)).
Proof.
  intros Hf Hp. split; [|symmetry; eapply inner_length; eauto].
  destruct Hf as (_ & m1 & f1 & rest & Hinv & _ & Hpops & _).
  assert (Htn : In t (explored_nodes f1 ++ nodes f1)).
  { apply in_or_app. right. eapply pops_In; eauto. }
  destruct (inv_node _ _ _ _ _ _ Hinv t Htn) as [_ Hpt].
  rewrite Hp in Hpt. destruct Hpt as [Hpe _].
  unfold inner. rewrite (chain_eq t), Hp. simpl.
  destruct (chain_last p) as (r & Hc & Hr).
  rewrite Hc at 1. unfold coords. rewrite map_app. simpl.
  f_equal. f_equal. f_equal.
  assert (Hrc : In r (chain p)).
  { rewrite Hc. apply in_or_app. right. left. reflexivity. }
  assert (Hre : In r (explored_nodes f1 ++ nodes f1)).
  { apply in_or_app. left.
    destruct (chain_explored g0 R C s m1 f1 (depth p) p r Hinv eq_refl)
      as [->|H]; auto.
    apply in_or_app. left. exact Hpe. }
  destruct (inv_node _ _ _ _ _ _ Hinv r Hre) as [_ Hrp].
  rewrite Hr in Hrp. exact Hrp.
Qed.

Lemma chain_is_path (g0 : grid) (R C : Z) (s : coord) (m : Maze) (f : Frontier) :
  inv g0 R C s m f ->
  forall (d : nat) (n : Node),
    depth n = d -> In n (explored_nodes f ++ nodes f) ->
    is_path g0 (coords (chain n)).
Proof.
  intros Hinv. induction d as [|d IH]; intros n Hd Hn;
    destruct (inv_node _ _ _ _ _ _ Hinv n Hn) as [(c & Hc & Hw & _) Hpar];
    rewrite chain_eq; rewrite depth_eq in Hd;
    destruct (node_parent n) as [p|] eqn:Hp; try discriminate; simpl.
  - split; auto. exists c; auto.
  - destruct Hpar as [Hpe Hadj]. split; [exists c; auto|].
    assert (Hip : is_path g0 (coords (chain p))).
    { apply IH; [lia|]. apply in_or_app. left. exact Hpe. }
    destruct (chain p) as [|b l] eqn:Ec.
    { exfalso. apply (chain_nonempty p). exact Ec. }
    rewrite chain_eq in Ec. inversion Ec; subst b.
    simpl. split; auto. rewrite H1. exact Hip.
Qed.

Lemma found_chain_is_path (g0 : grid) (R C : Z) (s : coord)
      (P : Frontier -> Prop) (t : Node) (f' : Frontier) :
  found_at g0 R C s P t f' -> is_path g0 (coords (chain t)).
Proof.
  intros (_ & m1 & f1 & rest & Hinv & _ & Hpops & _).
  apply (chain_is_path g0 R C s m1 f1 Hinv (depth t) t eq_refl).
  apply in_or_app. right. eapply pops_In; eauto.
Qed.

Lemma chain_depth_le : forall (d : nat) (n a : Node),
  depth n = d -> In a (chain n) -> (depth a <= depth n)%nat.
Proof.
  induction d as [|d IH]; intros n a Hd Ha; rewrite chain_eq in Ha;
    rewrite (depth_eq n); rewrite depth_eq in Hd;
    destruct (node_parent n) as [p|] eqn:Hp; try discriminate;
    destruct Ha as [<-|Ha]; try contradiction.
  - rewrite depth_eq, Hp. lia.
  - rewrite depth_eq, Hp. lia.
  - specialize (IH p a). assert (depth p = d) by lia. auto.
Qed.

Lemma chain_nodup (g0 : grid) (R C : Z) (s : coord) (m : Maze) (f : Frontier) :
  inv g0 R C s m f ->
  forall (d : nat) (n : Node),
    depth n = d -> In n (explored_nodes f ++ nodes f) ->
    NoDup (coords (chain n)).
Proof.
  intros Hinv. induction d as [|d IH]; intros n Hd Hn;
    destruct (inv_node _ _ _ _ _ _ Hinv n Hn) as [_ Hpar];
    rewrite chain_eq; pose proof Hd as Hd'; rewrite depth_eq in Hd';
    destruct (node_parent n) as [p|] eqn:Hp; try discriminate; simpl.
  - constructor; [intros [] | constructor].
  - destruct Hpar as [Hpe _].
    assert (Hpn : In p (explored_nodes f ++ nodes f))
      by (apply in_or_app; left; exact Hpe).
    constructor; [|apply IH; auto; lia].
    intros Hc. apply in_map_iff in Hc. destruct Hc as (a & Hca & Ha).
    assert (Han : In a (explored_nodes f ++ nodes f)).
    { destruct (chain_explored g0 R C s m f (depth p) p a Hinv eq_refl Hpn Ha)
        as [->|H]; auto.
      apply in_or_app. left. exact H. }
    assert (E : a = n).
    { apply (map_injective_on node_coord (explored_nodes f ++ nodes f)); auto.
      apply (inv_nodup _ _ _ _ _ _ Hinv). }
    subst a. pose proof (chain_depth_le (depth p) p n eq_refl Ha). lia.
Qed.

(** * The claims *)

(** ** C1: the queue frontier finds a shortest path *)

(** C1. On every valid grid whose target is reachable from the start
    through non-wall cells, [solve] with the FIFO frontier returns [True];
    the node it pops at the target has a parent chain that runs from the
    target back to the start, and the number of moves on that chain is the
    shortest-path distance from start to target in the 4-connected grid of
    non-wall cells.  The path reconstructed in the grid is that chain: the
    cells that hold the path marker after [solve] are those that held it
    in the input and the cells of the nodes strictly between the two ends
    of the chain, which are pairwise distinct and one fewer than the
    shortest distance; the start and target cells keep their markers. *)
Theorem queue_solve_finds_shortest_path
        (g : grid) (m : Maze) (s tg : coord) (fuel : nat) :
  valid_grid g -> Maze_init g = Ok m ->
  start_point m = Some s -> end_point m = Some tg ->
  reachable g s tg ->
  len g * len (hd [] g) <= Z.of_nat fuel ->
  exists t m1 m2 f',
    search fuel m (new_frontier QueueFrontier) = Ok (Some t, m1, f')
    /\ solve fuel m (new_frontier QueueFrontier) = Ok (true, m2, f')
    /\ coords (chain t) = tg :: coords (inner t) ++ [s]
    /\ is_path g (coords (chain t))
    /\ length (chain t) = S (depth t)
    /\ shortest g s tg (depth t)
    /\ (forall q, cell (maze_arr m2) q = Some PATH
                  <-> In q (coords (inner t)) \/ cell g q = Some PATH)
    /\ NoDup (coords (inner t))
    /\ S (length (coords (inner t))) = depth t
    /\ cell (maze_arr m2) s = Some START
    /\ cell (maze_arr m2) tg = Some TARGET.
Proof.
  intros Hv Hi Hs Ht Hreach Hfuel.
  destruct (valid_grid_ready g Hv)
    as (m0 & s0 & t0 & Hi0 & Hg & _ & HR & HC & Hs0 & Ht0 & Hready & Htg & Hut).
  rewrite Hi in Hi0. inversion Hi0; subst m0.
  rewrite Hs in Hs0. inversion Hs0; subst s0.
  rewrite Ht in Ht0. inversion Ht0; subst t0.
  pose proof Hready as (_ & _ & _ & Hst). rewrite Hg in Hst.
  pose proof (ready_maze_ok _ _ _ _ Hready) as Hm. rewrite Hg in Hm.
  destruct (solve_run g _ _ s (inv_bfs g s) fuel m QueueFrontier Hst
              (inv_bfs_step g _ _ s) Hm (inv_bfs_init g s) Hfuel)
    as (r & m1 & f' & Hrun & Hm1 & Hsteps & Hr).
  destruct r as [t|].
  - destruct Hr as (Hfound & m2 & p & Hp & Hsolve & _ & Hspec).
    pose proof (found_at_target g _ _ s _ t f' Hfound) as Hct.
    apply Hut in Hct.
    destruct (found_chain_coords g _ _ s _ t p f' Hfound Hp) as [Hch Hd].
    pose proof (found_chain_is_path g _ _ s _ t f' Hfound) as Hpath.
    destruct Hst as (_ & Hcs & _).
    destruct Hm1 as (_ & _ & _ & Hrel).
    assert (Hkeep : forall q, cell (maze_arr m1) q = Some PATH
                              <-> cell g q = Some PATH).
    { intros q. specialize (Hrel q).
      destruct (cell g q) as [c|], (cell (maze_arr m1) q) as [c'|];
        try contradiction; [|tauto].
      destruct Hrel as [->|[-> ->]]; [tauto|].
      split; intros H; inversion H. }
    assert (Hns : ~ In s (coords (inner t))).
    { intros Hin. destruct (proj1 (Hspec s) Hin) as (_ & c & Hc & Hn & _).
      congruence. }
    assert (Hnt : ~ In tg (coords (inner t))).
    { intros Hin. destruct (proj1 (Hspec tg) Hin) as (_ & c & Hc & _ & Hn & _).
      congruence. }
    destruct Hfound as (_ & m3 & f1 & rest & Hinv & Hbfs & Hpops & _).
    assert (Htn : In t (explored_nodes f1 ++ nodes f1)).
    { apply in_or_app. right. eapply pops_In; eauto. }
    pose proof (chain_nodup g _ _ s m3 f1 Hinv (depth t) t eq_refl Htn) as Hnd.
    exists t, m1, m2, f'. split; auto. split; auto.
    split; [rewrite Hch, Hct; reflexivity|].
    split; [exact Hpath|].
    split; [apply chain_length|].
    split; [rewrite <- Hct; apply (bfs_depth _ _ _ Hbfs); exact Htn|].
    split.
    { intros q. destruct (Hspec q) as [H1 H2].
      destruct (in_dec coord_eq_dec q (coords (inner t))) as [Hq|Hq].
      - split; [intros _; left; exact Hq | intros _; apply H1, Hq].
      - rewrite (H2 Hq), Hkeep. split; [auto | intros [H|H]; tauto]. }
    split.
    { rewrite Hch in Hnd. apply NoDup_cons_iff in Hnd. destruct Hnd as [_ Hnd].
      apply NoDup_remove_1 in Hnd. rewrite app_nil_r in Hnd. exact Hnd. }
    split; [unfold coords; rewrite length_map; symmetry; exact Hd|].
    split.
    + rewrite (proj2 (Hspec s) Hns).
      destruct (grid_rel_cell _ _ _ _ Hrel Hcs) as (c' & -> & Hmk).
      f_equal. apply (marked_start _ _ Hmk). reflexivity.
    + rewrite (proj2 (Hspec tg) Hnt).
      destruct (grid_rel_cell _ _ _ _ Hrel Htg) as (c' & -> & Hmk).
      f_equal. apply (marked_target _ _ Hmk). reflexivity.
  - exfalso. destruct Hr as (Hinv & _ & Hn & _).
    apply (exhausted_unreachable g _ _ s m1 f' tg Hinv Hn Htg Hreach).
Qed.

Lemma queue_solve_finds_shortest_path_witness :
  let m := {| maze_arr := around_wall;
              start_point := Some (0, 0);
              end_point := Some (2, 2);
              rows_count := 3;
              cells_count := 3;
              steps := 0 |} in
  exists t m1 m2 f',
    search 9 m (new_frontier QueueFrontier) = Ok (Some t, m1, f')
    /\ solve 9 m (new_frontier QueueFrontier) = Ok (true, m2, f')
    /\ coords (chain t) = (2, 2) :: coords (inner t) ++ [(0, 0)]
    /\ is_path around_wall (coords (chain t))
    /\ length (chain t) = S (depth t)
    /\ shortest around_wall (0, 0) (2, 2) (depth t)
    /\ (forall q, cell (maze_arr m2) q = Some PATH
                  <-> In q (coords (inner t)) \/ cell around_wall q = Some PATH)
    /\ NoDup (coords (inner t))
    /\ S (length (coords (inner t))) = depth t
    /\ cell (maze_arr m2) (0, 0) = Some START
    /\ cell (maze_arr m2) (2, 2) = Some TARGET.
Proof.
  intros m.
  apply (queue_solve_finds_shortest_path around_wall m (0, 0) (2, 2) 9).
  - reflexivity.
  - reflexivity.
  - reflexivity.
  - reflexivity.
  - exists 4%nat.
    apply (walk_move _ _ _ (2, 1));
      [|exists RIGHT; reflexivity
       |exists TARGET; split; [reflexivity | discriminate]].
    apply (walk_move _ _ _ (2, 0));
      [|exists RIGHT; reflexivity
       |exists OPEN; split; [reflexivity | discriminate]].
    apply (walk_move _ _ _ (1, 0));
      [|exists DOWN; reflexivity
       |exists OPEN; split; [reflexivity | discriminate]].
    apply (walk_move _ _ _ (0, 0));
      [|exists DOWN; reflexivity
       |exists OPEN; split; [reflexivity | discriminate]].
    apply walk_here.
  - vm_compute. discriminate.
Defined.

(** ** C2: termination within rows x cols pops *)

(** C2. On every valid grid and with either frontier discipline, [solve]
    returns (given rows x cols units of fuel, one per loop iteration); the
    number of loop iterations counted in [steps] is the number of nodes
    popped into the explored list, it is at most rows x cols, and the
    coordinates of all nodes ever added to the frontier (explored and
    pending together) are pairwise distinct. *)
Theorem solve_terminates_within_grid_size
        (g : grid) (k : discipline) (fuel : nat) :
  valid_grid g ->
  len g * len (hd [] g) <= Z.of_nat fuel ->
  exists m b m' f',
    Maze_init g = Ok m
    /\ solve fuel m (new_frontier k) = Ok (b, m', f')
    /\ steps m' = len (explored_nodes f')
    /\ len (explored_nodes f') <= rows_count m * cells_count m
    /\ NoDup (coords (explored_nodes f' ++ nodes f')).
Proof.
  intros Hv Hfuel.
  destruct (valid_grid_ready g Hv)
    as (m & s & t & Hi & Hg & Hst & HR & HC & Hs & Ht & Hready & _).
  destruct (solve_total m _ _ s k fuel Hready Hfuel)
    as (b & m' & f' & Hsolve & _ & Hsteps & Hsz & Hnd & _).
  exists m, b, m', f'. rewrite HR, HC.
  repeat (split; auto). lia.
Qed.

Lemma solve_terminates_witness :
  exists m b m' f',
    Maze_init around_wall = Ok m
    /\ solve 9 m (new_frontier StackFrontier) = Ok (b, m', f')
    /\ steps m' = len (explored_nodes f')
    /\ len (explored_nodes f') <= rows_count m * cells_count m
    /\ NoDup (coords (explored_nodes f' ++ nodes f')).
Proof.
  apply (solve_terminates_within_grid_size around_wall StackFrontier 9).
  - reflexivity.
  - vm_compute. discriminate.
Defined.

(** ** C3: pending and explored stay disjoint *)

Lemma NoDup_app_disjoint {A} (l1 l2 : list A) (a : A) :
  NoDup (l1 ++ l2) -> In a l1 -> In a l2 -> False.
Proof.
  induction l1 as [|b l1 IH]; simpl; intros Hnd H1 H2; [contradiction|].
  inversion Hnd; subst. destruct H1 as [->|H1].
  - apply H3. apply in_or_app. right. exact H2.
  - apply IH; auto.
Qed.

Lemma reachable_frontier_nodup (k : discipline) (f : Frontier) :
  reachable_frontier k f -> NoDup (coords (explored_nodes f ++ nodes f)).
Proof.
  induction 1 as [|f n Hf IH|f n f' Hf IH Hr].
  - simpl. constructor.
  - destruct (add_cases f n) as [[-> _]|[-> Hfresh]]; auto. simpl.
    unfold coords in *. rewrite app_assoc, map_app. simpl.
    apply NoDup_app; auto.
    + constructor; [intros [] | constructor].
    + intros c Hc [<-|[]]. contradiction.
  - apply remove_Ok_inv in Hr. destruct Hr as (rest & Hp & ->). simpl.
    apply (pops_nodup f n rest _ Hp IH).
Qed.

(** C3. In every frontier state reached from an empty frontier by [add]
    and (successful) [remove] operations, no coordinate is in both the
    pending list and the explored list, and no coordinate occurs twice in
    the pending list. *)
Theorem frontier_pending_explored_disjoint (k : discipline) (f : Frontier) :
  reachable_frontier k f ->
  (forall c, ~ (In c (coords (nodes f)) /\ In c (coords (explored_nodes f))))
  /\ NoDup (coords (nodes f)).
Proof.
  intros Hf. apply reachable_frontier_nodup in Hf.
  unfold coords in *. rewrite map_app in Hf. split.
  - intros c [H1 H2]. eapply NoDup_app_disjoint; eauto.
  - eapply NoDup_app_remove_l; eauto.
Qed.

Lemma frontier_pending_explored_disjoint_witness :
  let a := {| node_state := START; node_parent := None;
              node_x := 0; node_y := 0; node_action := None |} in
  let b := {| node_state := OPEN; node_parent := Some a;
              node_x := 0; node_y := 1; node_action := Some RIGHT |} in
  let f := {| kind := StackFrontier; nodes := [a]; explored_nodes := [b] |} in
  (forall c, ~ (In c (coords (nodes f)) /\ In c (coords (explored_nodes f))))
  /\ NoDup (coords (nodes f)).
Proof.
  intros a b f.
  apply (frontier_pending_explored_disjoint StackFrontier f).
  apply (reach_remove StackFrontier
           (add (add (new_frontier StackFrontier) a) b) b f).
  - apply reach_add. apply reach_add. apply reach_new.
  - reflexivity.
Defined.

(** ** C4: which grids construction rejects *)

(** C4 (as the code has it). Construction raises its configuration error
    exactly when the grid is empty, or some row's length differs from the
    first row's, or no cell holds the start marker, or no cell holds the
    target marker; every other grid -- also one with several start or
    target markers -- is accepted. *)
Theorem Maze_init_raises_iff (g : grid) :
  ((exists msg, Maze_init g = Raise (ConfigError msg))
   <-> (g = [] \/ rectangular g = false
        \/ count_cells START g = 0%nat \/ count_cells TARGET g = 0%nat))
  /\ ((exists m, Maze_init g = Ok m)
      <-> (g <> [] /\ rectangular g = true
           /\ (1 <= count_cells START g)%nat
           /\ (1 <= count_cells TARGET g)%nat)).
Proof.
  pose proof (Maze_init_cases g) as H.
  destruct (Maze_init g) as [m|e].
  - destruct H as (Hne & Hrect & _ & (s & _ & Hs) & (t & _ & Ht)).
    apply count_cells_pos in Hs, Ht. split; split.
    + intros (msg & E). discriminate.
    + intros [E|[E|[E|E]]]; exfalso; try congruence; lia.
    + intros _. auto.
    + intros _. eauto.
  - destruct H as ((msg & ->) & Hd). split; split.
    + intros _. exact Hd.
    + intros _. eauto.
    + intros (m & E). discriminate.
    + intros (Hne & Hrect & HA & HB). exfalso.
      destruct Hd as [E|[E|[E|E]]]; try congruence; lia.
Qed.

(** C4, as stated, fails: a grid with two start markers is accepted. *)
Lemma Maze_init_accepts_duplicate_start :
  ~ ((1 < count_cells START two_starts)%nat ->
     exists e, Maze_init two_starts = Raise e).
Proof.
  intros H. destruct H as (e & He).
  - vm_compute. lia.
  - vm_compute in He. discriminate.
Qed.

(** ** C5: the explored mark only replaces open cells *)

Lemma pop_and_mark_cells (m m1 : Maze) (f f1 : Frontier) (u : Node) (c0 : ascii) :
  pop_and_mark m f = Ok (u, m1, f1) ->
  cell (maze_arr m) (node_coord u) = Some c0 ->
  forall p, cell (maze_arr m1) p =
            if coord_eq_dec p (node_coord u)
            then Some (if Ascii.eqb c0 OPEN then EXPLORED else c0)
            else cell (maze_arr m) p.
Proof.
  unfold pop_and_mark. intros H Hc. inv_bind H. destruct a as [u' f'].
  inv_bind Hk. inv_bind Hk0. inversion Hk; subst. simpl in *.
  unfold node_coord in Hc.
  rewrite (get_cell_cell _ _ _ _ Hc) in Hr0. inversion Hr0; subst a.
  destruct (set_cell_cell (maze_arr m) (node_x u) (node_y u) c0
              (if Ascii.eqb c0 OPEN then EXPLORED else c0) Hc)
    as (g' & Hset & Hg').
  rewrite Hset in Hr1. inversion Hr1; subst a0. exact Hg'.
Qed.

(** C5. The explored-marking step of an iteration rewrites only the cell
    of the popped node, and only from the open marker to the explored
    marker; so on every valid grid and with either discipline the grid at
    the end of the loop differs from the initial grid only in cells that
    were open and are now marked explored: start, target and wall cells
    are never overwritten by it. *)
Theorem explored_mark_only_on_open_cells
        (g : grid) (k : discipline) (fuel : nat) :
  valid_grid g ->
  len g * len (hd [] g) <= Z.of_nat fuel ->
  (forall m f u m1 f1 c0,
      pop_and_mark m f = Ok (u, m1, f1) ->
      cell (maze_arr m) (node_coord u) = Some c0 ->
      forall p, cell (maze_arr m1) p =
                if coord_eq_dec p (node_coord u)
                then Some (if Ascii.eqb c0 OPEN then EXPLORED else c0)
                else cell (maze_arr m) p)
  /\ exists m r m1 f1,
       Maze_init g = Ok m
       /\ search fuel m (new_frontier k) = Ok (r, m1, f1)
       /\ (forall p, match cell g p, cell (maze_arr m1) p with
                     | Some c, Some c' => c' = c \/ (c = OPEN /\ c' = EXPLORED)
                     | None, None => True
                     | _, _ => False
                     end)
       /\ (forall p c, cell g p = Some c ->
                       c = START \/ c = TARGET \/ c = WALL ->
                       cell (maze_arr m1) p = Some c).
Proof.
  intros Hv Hfuel. split; [intros; eapply pop_and_mark_cells; eauto|].
  destruct (valid_grid_ready g Hv)
    as (m & s & t & Hi & Hg & _ & HR & HC & Hs & Ht & Hready & _).
  pose proof Hready as (_ & _ & _ & Hst).
  pose proof (ready_maze_ok _ _ _ _ Hready) as Hm.
  destruct (search_run (maze_arr m) _ _ s Hst (fun _ => True)
              (fun _ _ _ _ _ _ _ _ _ _ _ => I) fuel m k Hm (fun _ _ _ => I) Hfuel)
    as (r & m1 & f' & Hrun & Hm1 & _).
  destruct Hm1 as (_ & _ & _ & Hrel). rewrite Hg in Hrel.
  exists m, r, m1, f'. split; auto. split; auto. split; [exact Hrel|].
  intros p c Hc Hkind.
  destruct (grid_rel_cell _ _ _ _ Hrel Hc) as (c' & Hc' & [->|[-> _]]); auto.
  exfalso. destruct Hkind as [E|[E|E]]; discriminate E.
Qed.

Lemma explored_mark_only_on_open_cells_witness :
  (forall m f u m1 f1 c0,
      pop_and_mark m f = Ok (u, m1, f1) ->
      cell (maze_arr m) (node_coord u) = Some c0 ->
      forall p, cell (maze_arr m1) p =
                if coord_eq_dec p (node_coord u)
                then Some (if Ascii.eqb c0 OPEN then EXPLORED else c0)
                else cell (maze_arr m) p)
  /\ exists m r m1 f1,
       Maze_init around_wall = Ok m
       /\ search 9 m (new_frontier StackFrontier) = Ok (r, m1, f1)
       /\ (forall p, match cell around_wall p, cell (maze_arr m1) p with
                     | Some c, Some c' => c' = c \/ (c = OPEN /\ c' = EXPLORED)
                     | None, None => True
                     | _, _ => False
                     end)
       /\ (forall p c, cell around_wall p = Some c ->
                       c = START \/ c = TARGET \/ c = WALL ->
                       cell (maze_arr m1) p = Some c).
Proof.
  apply (explored_mark_only_on_open_cells around_wall StackFrontier 9).
  - reflexivity.
  - vm_compute. discriminate.
Defined.

(** ** C6: path markers lie strictly between start and target *)

(** C6. When [solve] finds the target on a valid grid, with either
    frontier, the parent chain of the popped target node runs from the
    target cell back to the start cell, and path reconstruction writes
    the path marker on exactly the coordinates of the nodes strictly
    between the two ends of that chain: every other cell keeps what it
    held at the end of the loop, and neither the start cell nor the
    target cell is among the marked coordinates; both keep their own
    markers. *)
Theorem path_markers_strictly_between
        (g : grid) (m : Maze) (s tg : coord) (k : discipline) (fuel : nat) :
  valid_grid g -> Maze_init g = Ok m ->
  start_point m = Some s -> end_point m = Some tg ->
  len g * len (hd [] g) <= Z.of_nat fuel ->
  succeeded (solve fuel m (new_frontier k)) = true ->
  exists t m1 m2 f',
    search fuel m (new_frontier k) = Ok (Some t, m1, f')
    /\ solve fuel m (new_frontier k) = Ok (true, m2, f')
    /\ coords (chain t) = tg :: coords (inner t) ++ [s]
    /\ is_path g (coords (chain t))
    /\ (forall q,
          (In q (coords (inner t)) -> cell (maze_arr m2) q = Some PATH)
          /\ (~ In q (coords (inner t)) ->
                cell (maze_arr m2) q = cell (maze_arr m1) q))
    /\ ~ In s (coords (inner t))
    /\ ~ In tg (coords (inner t))
    /\ cell (maze_arr m2) s = Some START
    /\ cell (maze_arr m2) tg = Some TARGET.
Proof.
  intros Hv Hi Hs Ht Hfuel Hsucc.
  destruct (valid_grid_ready g Hv)
    as (m0 & s0 & t0 & Hi0 & Hg & _ & HR & HC & Hs0 & Ht0 & Hready & Htg & Hut).
  rewrite Hi in Hi0. inversion Hi0; subst m0.
  rewrite Hs in Hs0. inversion Hs0; subst s0.
  rewrite Ht in Ht0. inversion Ht0; subst t0.
  pose proof Hready as (_ & _ & _ & Hst). rewrite Hg in Hst.
  pose proof (ready_maze_ok _ _ _ _ Hready) as Hm. rewrite Hg in Hm.
  destruct (solve_run g _ _ s (fun _ => True) fuel m k Hst
              (fun _ _ _ _ _ _ _ _ _ _ _ => I) Hm (fun _ _ _ => I) Hfuel)
    as (r & m1 & f' & Hrun & Hm1 & Hsteps & Hr).
  destruct r as [t|].
  2:{ destruct Hr as (_ & _ & _ & Hsolve). rewrite Hsolve in Hsucc.
      discriminate. }
  destruct Hr as (Hfound & m2 & p & Hp & Hsolve & _ & Hspec).
  pose proof (found_at_target g _ _ s _ t f' Hfound) as Hct.
  apply Hut in Hct.
  destruct (found_chain_coords g _ _ s _ t p f' Hfound Hp) as [Hch _].
  destruct Hst as (_ & Hcs & _).
  assert (Hns : ~ In s (coords (inner t))).
  { intros Hin. destruct (proj1 (Hspec s) Hin) as (_ & c & Hc & Hn & _).
    congruence. }
  assert (Hnt : ~ In tg (coords (inner t))).
  { intros Hin. destruct (proj1 (Hspec tg) Hin) as (_ & c & Hc & _ & Hn & _).
    congruence. }
  destruct Hm1 as (_ & _ & _ & Hrel).
  exists t, m1, m2, f'. split; auto. split; auto.
  split; [rewrite Hch, Hct; reflexivity|].
  split; [eapply found_chain_is_path; eauto|].
  split.
  { intros q. destruct (Hspec q) as [H1 H2]. split; auto.
    intros Hq. apply H1. exact Hq. }
  split; auto. split; auto. split.
  - rewrite (proj2 (Hspec s) Hns).
    destruct (grid_rel_cell _ _ _ _ Hrel Hcs) as (c' & -> & Hmk).
    f_equal. apply (marked_start _ _ Hmk). reflexivity.
  - rewrite (proj2 (Hspec tg) Hnt).
    destruct (grid_rel_cell _ _ _ _ Hrel Htg) as (c' & -> & Hmk).
    f_equal. apply (marked_target _ _ Hmk). reflexivity.
Qed.

Lemma path_markers_strictly_between_witness :
  let m := {| maze_arr := around_wall;
              start_point := Some (0, 0);
              end_point := Some (2, 2);
              rows_count := 3;
              cells_count := 3;
              steps := 0 |} in
  exists t m1 m2 f',
    search 9 m (new_frontier StackFrontier) = Ok (Some t, m1, f')
    /\ solve 9 m (new_frontier StackFrontier) = Ok (true, m2, f')
    /\ coords (chain t) = (2, 2) :: coords (inner t) ++ [(0, 0)]
    /\ is_path around_wall (coords (chain t))
    /\ (forall q,
          (In q (coords (inner t)) -> cell (maze_arr m2) q = Some PATH)
          /\ (~ In q (coords (inner t)) ->
                cell (maze_arr m2) q = cell (maze_arr m1) q))
    /\ ~ In (0, 0) (coords (inner t))
    /\ ~ In (2, 2) (coords (inner t))
    /\ cell (maze_arr m2) (0, 0) = Some START
    /\ cell (maze_arr m2) (2, 2) = Some TARGET.
Proof.
  intros m.
  apply (path_markers_strictly_between around_wall m (0, 0) (2, 2)
           StackFrontier 9); reflexivity || (vm_compute; discriminate).
Defined.

(** ** C7: a second add of the same coordinate changes nothing *)

(** C7. After [add] of a node, a second [add] of any node equal to it
    under [Node.__eq__] (same coordinates, whatever its state, action and
    parent) leaves the frontier, and so the pending list and its size,
    unchanged. *)
Theorem add_idempotent_on_coordinates (f : Frontier) (n n' : Node) :
  node_eqb n n' = true ->
  add (add f n) n' = add f n
  /\ nodes (add (add f n) n') = nodes (add f n)
  /\ length (nodes (add (add f n) n')) = length (nodes (add f n)).
Proof.
  intros E. apply node_eqb_coord in E.
  assert (H : add (add f n) n' = add f n).
  { destruct (add_cases (add f n) n') as [[H _]|[_ H]]; auto.
    exfalso. apply H. rewrite <- E. apply add_covers. }
  rewrite H. auto.
Qed.

Lemma add_idempotent_on_coordinates_witness :
  let a := {| node_state := OPEN; node_parent := None;
              node_x := 2; node_y := 5; node_action := None |} in
  let b := {| node_state := EXPLORED; node_parent := Some a;
              node_x := 2; node_y := 5; node_action := Some DOWN |} in
  let f := new_frontier QueueFrontier in
  add (add f a) b = add f a
  /\ nodes (add (add f a) b) = nodes (add f a)
  /\ length (nodes (add (add f a) b)) = length (nodes (add f a)).
Proof.
  intros a b f. apply (add_idempotent_on_coordinates f a b). reflexivity.
Defined.

(** ** C8: remove is never called on an empty frontier *)

(** C8. [solve] never raises the [IndexError] of [self.nodes[-1]] or
    [self.nodes[0]]: for every maze, frontier (of either discipline) and
    amount of fuel, the loop calls [remove] only after [is_empty] was
    false, where [remove] returns a node; and on a valid grid with a
    fresh frontier [solve] raises nothing at all. *)
Theorem solve_never_pops_empty (g : grid) (k : discipline) (fuel : nat) :
  valid_grid g ->
  len g * len (hd [] g) <= Z.of_nat fuel ->
  (forall fuel' m f, solve fuel' m f <> Raise (IndexError PendingList))
  /\ (forall f, is_empty f = false -> exists n f', remove f = Ok (n, f'))
  /\ (forall f n f', remove f = Ok (n, f') -> is_empty f = false)
  /\ exists m b m' f',
       Maze_init g = Ok m /\ solve fuel m (new_frontier k) = Ok (b, m', f').
Proof.
  intros Hv Hfuel. split; [|split; [|split]].
  - intros fuel' m f H. apply (solve_raises fuel' m f) in H. apply H. reflexivity.
  - intros f Hne. destruct (remove_nonempty f Hne) as (u & rest & _ & Hr). eauto.
  - intros f n f'. apply remove_Ok_nonempty.
  - destruct (valid_grid_ready g Hv)
      as (m & s & t & Hi & _ & _ & _ & _ & _ & _ & Hready & _).
    destruct (solve_total m _ _ s k fuel Hready Hfuel)
      as (b & m' & f' & Hsolve & _).
    exists m, b, m', f'. split; auto.
Qed.

Lemma solve_never_pops_empty_witness :
  (forall fuel' m f, solve fuel' m f <> Raise (IndexError PendingList))
  /\ (forall f, is_empty f = false -> exists n f', remove f = Ok (n, f'))
  /\ (forall f n f', remove f = Ok (n, f') -> is_empty f = false)
  /\ exists m b m' f',
       Maze_init corridor = Ok m
       /\ solve 3 m (new_frontier QueueFrontier) = Ok (b, m', f').
Proof.
  apply (solve_never_pops_empty corridor QueueFrontier 3).
  - reflexivity.
  - vm_compute. discriminate.
Defined.

(** ** C9: start and target next to each other *)

Section OneMove.
Variable g0 : grid.
Variables R C : Z.
Variables s tg : coord.
Hypothesis Hs : cell g0 s = Some START.
Hypothesis Htg : cell g0 tg = Some TARGET.
Hypothesis Hadj : adjacent s tg.

Lemma one_move_step (m : Maze) (f : Frontier) (u : Node)
      (rest news : list Node) (f1 f2 : Frontier) :
  inv g0 R C s m f -> one_move_inv s tg f ->
  iteration g0 f u rest news f1 f2 ->
  node_state u <> TARGET -> one_move_inv s tg f2.
Proof.
  intros Hinv HP It Hnt. right.
  pose proof (it_pops _ _ _ _ _ _ _ It) as Hp.
  rewrite (it_f2 _ _ _ _ _ _ _ It). simpl.
  destruct HP as [(He & root & Hq & Hpar & Hco)|(b & root & Hb & Hcb & Hpb & Hpr)].
  - assert (E : u = root /\ rest = []).
    { unfold pops in Hp. rewrite Hq in Hp. destruct (kind f).
      - change [root] with ([] ++ [root]) in Hp.
        apply app_inj_tail in Hp. destruct Hp; subst; auto.
      - inversion Hp; auto. }
    destruct E as [-> ->].
    assert (Hpass : passable g0 tg).
    { exists TARGET. split; auto. discriminate. }
    rewrite <- Hco in Hadj.
    pose proof (it_all _ _ _ _ _ _ _ It tg Hadj Hpass) as Hin.
    rewrite He in Hin. simpl in Hin. destruct Hin as [E|Hin].
    { exfalso. rewrite Hco in E. rewrite E, Htg in Hs. discriminate. }
    unfold coords in Hin. apply in_map_iff in Hin.
    destruct Hin as (b & Hcb & Hb).
    exists b, root. split; auto. split; auto. split; auto.
    apply (it_news _ _ _ _ _ _ _ It b Hb).
  - exists b, root. split; [|auto].
    apply in_or_app. left.
    assert (Hbu : b <> u).
    { intros ->. apply Hnt.
      assert (Hun : In u (explored_nodes f ++ nodes f))
        by (apply in_or_app; right; exact Hb).
      destruct (inv_node _ _ _ _ _ _ Hinv u Hun) as [(c & Hc & _ & Hmk) _].
      rewrite Hcb, Htg in Hc. inversion Hc; subst c.
      apply (marked_target _ _ Hmk). reflexivity. }
    unfold pops in Hp. destruct (kind f); rewrite Hp in Hb.
    + apply in_app_or in Hb. destruct Hb as [Hb|[Hb|[]]]; auto.
      congruence.
    + destruct Hb as [Hb|Hb]; auto. congruence.
Qed.

Lemma one_move_init (k : discipline) (root : Node) :
  node_parent root = None -> node_coord root = s ->
  one_move_inv s tg {| kind := k; nodes := [root]; explored_nodes := [] |}.
Proof.
  intros Hpar Hco. left. split; auto. exists root. auto.
Qed.

(** The popped target node is the child of the root. *)
Lemma one_move_found (t : Node) (f' : Frontier) :
  found_at g0 R C s (one_move_inv s tg) t f' ->
  node_coord t = tg ->
  exists root, node_parent t = Some root /\ node_parent root = None
               /\ node_coord root = s
               /\ 2 <= len (explored_nodes f').
Proof.
  intros (Ht & m1 & f1 & rest & Hinv & HP & Hp & ->) Hct. simpl.
  assert (Htq : In t (nodes f1)) by (eapply pops_In; eauto).
  assert (Htn : In t (explored_nodes f1 ++ nodes f1))
    by (apply in_or_app; right; exact Htq).
  destruct HP as [(He & root & Hq & Hpar & Hco)|(b & root & Hb & Hcb & Hpb & Hpr)].
  - exfalso. rewrite Hq in Htq. destruct Htq as [<-|[]].
    rewrite Hco in Hct. rewrite Hct, Htg in Hs. discriminate.
  - assert (E : t = b).
    { apply (map_injective_on node_coord (explored_nodes f1 ++ nodes f1));
        auto.
      - apply (inv_nodup _ _ _ _ _ _ Hinv).
      - apply in_or_app. right. exact Hb.
      - congruence. }
    subst b. exists root. split; auto. split; auto.
    destruct (inv_node _ _ _ _ _ _ Hinv t Htn) as [_ Hpt].
    rewrite Hpb in Hpt. destruct Hpt as [Hre _].
    assert (Hrn : In root (explored_nodes f1 ++ nodes f1))
      by (apply in_or_app; left; exact Hre).
    destruct (inv_node _ _ _ _ _ _ Hinv root Hrn) as [_ Hrp].
    rewrite Hpr in Hrp. split; auto.
    unfold len. rewrite length_app. simpl.
    destruct (explored_nodes f1); [contradiction | simpl; lia].
Qed.
End OneMove.

(** C9 (as the code has it). On every valid grid whose start and target
    cells are 4-directionally adjacent, [solve] with either discipline
    returns [True]; the popped target node is the child of the root, so
    the path has exactly 1 move and no cell receives the path marker; the
    step counter at return is at least 2 and at most rows x cols. *)
Theorem adjacent_target_one_move
        (g : grid) (m : Maze) (s tg : coord) (k : discipline) (fuel : nat) :
  valid_grid g -> Maze_init g = Ok m ->
  start_point m = Some s -> end_point m = Some tg ->
  adjacent s tg ->
  len g * len (hd [] g) <= Z.of_nat fuel ->
  exists t root m1 m2 f',
    search fuel m (new_frontier k) = Ok (Some t, m1, f')
    /\ solve fuel m (new_frontier k) = Ok (true, m2, f')
    /\ node_coord t = tg /\ node_parent t = Some root
    /\ node_coord root = s /\ node_parent root = None
    /\ depth t = 1%nat /\ inner t = []
    /\ (forall q, cell (maze_arr m2) q = cell (maze_arr m1) q)
    /\ (forall q, cell (maze_arr m2) q = Some PATH -> cell g q = Some PATH)
    /\ 2 <= steps m2 <= rows_count m * cells_count m.
Proof.
  intros Hv Hi Hs Ht Hadj Hfuel.
  destruct (valid_grid_ready g Hv)
    as (m0 & s0 & t0 & Hi0 & Hg & Hst0 & HR & HC & Hs0 & Ht0 & Hready & Htg & Hut).
  rewrite Hi in Hi0. inversion Hi0; subst m0.
  rewrite Hs in Hs0. inversion Hs0; subst s0.
  rewrite Ht in Ht0. inversion Ht0; subst t0.
  pose proof Hready as (_ & _ & _ & Hst). rewrite Hg in Hst.
  pose proof (ready_maze_ok _ _ _ _ Hready) as Hm. rewrite Hg in Hm.
  pose proof Hst as (_ & Hcs & _).
  destruct (solve_run g _ _ s (one_move_inv s tg) fuel m k Hst
              (one_move_step g _ _ s tg Hcs Htg Hadj) Hm
              (one_move_init s tg k) Hfuel)
    as (r & m1 & f' & Hrun & Hm1 & Hsteps & Hr).
  destruct r as [t|].
  2:{ exfalso. destruct Hr as (Hinv & _ & Hn & _).
      apply (exhausted_unreachable g _ _ s m1 f' tg Hinv Hn Htg).
      exists 1%nat. apply (walk_move g s 0 s tg); auto.
      - apply walk_here.
      - exists TARGET. split; auto. discriminate. }
  destruct Hr as (Hfound & m2 & p & Hp & Hsolve & Hst2 & Hspec).
  pose proof (found_at_target g _ _ s _ t f' Hfound) as Hct.
  apply Hut in Hct.
  destruct (one_move_found g _ _ s tg Hcs Htg t f' Hfound Hct)
    as (root & Hpt & Hpr & Hcr & Hlen).
  destruct (found_at_size g _ _ s Hst _ t f' Hfound) as [Hsz _].
  assert (Hin : inner t = []).
  { unfold inner. rewrite (chain_eq t), Hpt. simpl.
    rewrite (chain_eq root), Hpr. reflexivity. }
  rewrite Hin in Hspec.
  assert (Hsame : forall q, cell (maze_arr m2) q = cell (maze_arr m1) q).
  { intros q. apply (proj2 (Hspec q)). intros []. }
  destruct Hm1 as (_ & _ & _ & Hrel).
  exists t, root, m1, m2, f'.
  split; auto. split; auto. split; auto. split; auto. split; auto.
  split; auto. split.
  { rewrite (depth_eq t), Hpt, (depth_eq root), Hpr. reflexivity. }
  split; auto. split; auto. split.
  - intros q Hq. rewrite Hsame in Hq.
    destruct (grid_rel_cell_inv _ _ _ _ Hrel Hq) as (c & Hc & [E|[_ E]]).
    + congruence.
    + discriminate E.
  - rewrite HR, HC. lia.
Qed.

Lemma adjacent_target_one_move_witness :
  let m := {| maze_arr := detour;
              start_point := Some (1, 0);
              end_point := Some (1, 1);
              rows_count := 2;
              cells_count := 2;
              steps := 0 |} in
  exists t root m1 m2 f',
    search 4 m (new_frontier QueueFrontier) = Ok (Some t, m1, f')
    /\ solve 4 m (new_frontier QueueFrontier) = Ok (true, m2, f')
    /\ node_coord t = (1, 1) /\ node_parent t = Some root
    /\ node_coord root = (1, 0) /\ node_parent root = None
    /\ depth t = 1%nat /\ inner t = []
    /\ (forall q, cell (maze_arr m2) q = cell (maze_arr m1) q)
    /\ (forall q, cell (maze_arr m2) q = Some PATH -> cell detour q = Some PATH)
    /\ 2 <= steps m2 <= rows_count m * cells_count m.
Proof.
  intros m.
  apply (adjacent_target_one_move detour m (1, 0) (1, 1) QueueFrontier 4).
  - reflexivity.
  - reflexivity.
  - reflexivity.
  - reflexivity.
  - exists RIGHT. reflexivity.
  - vm_compute. discriminate.
Defined.

(** C9, as stated, fails: with the target to the right of the start and an
    open cell above the start, the FIFO frontier pops that open cell
    first, and the step counter at return is 3. *)
Lemma adjacent_target_steps_not_two :
  ~ (forall m b m' f',
       Maze_init detour = Ok m ->
       solve 4 m (new_frontier QueueFrontier) = Ok (b, m', f') ->
       steps m' = 2).
Proof.
  intros H.
  destruct (solve 4 {| maze_arr := detour;
                       start_point := Some (1, 0);
                       end_point := Some (1, 1);
                       rows_count := 2;
                       cells_count := 2;
                       steps := 0 |} (new_frontier QueueFrontier))
    as [[[b m'] f']|e] eqn:E.
  - specialize (H _ b m' f' eq_refl E).
    vm_compute in E. inversion E; subst. discriminate H.
  - vm_compute in E. discriminate E.
Qed.

(** ** C10: the step counter accumulates over calls *)

(** C10. Construction sets the step counter to 0 and [solve] never resets
    it: any [solve] call that returns leaves the counter at its value
    before the call plus the number of nodes the call popped; on a valid
    grid a first [solve] ends with the number of its pops and a second
    [solve] on the same maze object (fresh frontier, either discipline)
    ends with the total over both calls. *)
Theorem steps_accumulate_over_calls
        (g : grid) (k1 k2 : discipline) (fuel1 fuel2 : nat) :
  valid_grid g ->
  len g * len (hd [] g) <= Z.of_nat fuel1 ->
  len g * len (hd [] g) <= Z.of_nat fuel2 ->
  (forall fuel m f b m' f',
     solve fuel m f = Ok (b, m', f') ->
     steps m' = steps m + (len (explored_nodes f') - len (explored_nodes f)))
  /\ exists m b1 m1 f1 b2 m2 f2,
       Maze_init g = Ok m /\ steps m = 0
       /\ solve fuel1 m (new_frontier k1) = Ok (b1, m1, f1)
       /\ steps m1 = len (explored_nodes f1)
       /\ solve fuel2 m1 (new_frontier k2) = Ok (b2, m2, f2)
       /\ steps m2 = len (explored_nodes f1) + len (explored_nodes f2).
Proof.
  intros Hv Hf1 Hf2. split; [intros; eapply solve_steps; eauto|].
  destruct (valid_grid_ready g Hv)
    as (m & s & t & Hi & Hg & Hst & HR & HC & Hs & Ht & Hready & _).
  destruct (solve_total m _ _ s k1 fuel1 Hready Hf1)
    as (b1 & m1 & f1 & Hsolve1 & Hready1 & Hsteps1 & _).
  destruct (solve_total m1 _ _ s k2 fuel2 Hready1 Hf2)
    as (b2 & m2 & f2 & Hsolve2 & _ & Hsteps2 & _).
  exists m, b1, m1, f1, b2, m2, f2.
  repeat (split; auto); lia.
Qed.

Lemma steps_accumulate_over_calls_witness :
  (forall fuel m f b m' f',
     solve fuel m f = Ok (b, m', f') ->
     steps m' = steps m + (len (explored_nodes f') - len (explored_nodes f)))
  /\ exists m b1 m1 f1 b2 m2 f2,
       Maze_init around_wall = Ok m /\ steps m = 0
       /\ solve 9 m (new_frontier QueueFrontier) = Ok (b1, m1, f1)
       /\ steps m1 = len (explored_nodes f1)
       /\ solve 9 m1 (new_frontier StackFrontier) = Ok (b2, m2, f2)
       /\ steps m2 = len (explored_nodes f1) + len (explored_nodes f2).
Proof.
  apply (steps_accumulate_over_calls around_wall QueueFrontier StackFrontier 9 9).
  - reflexivity.
  - vm_compute. discriminate.
  - vm_compute. discriminate.
Defined.

(** * Further properties of the code *)

(** ** Frontier: what remove does, and in which order *)

Lemma remove_empty (f : Frontier) :
  nodes f = [] -> remove f = Raise (IndexError PendingList).
Proof.
  intros E. unfold remove. rewrite E. destruct (kind f); reflexivity.
Qed.

(** X1. [remove] raises [IndexError] exactly on an empty pending list, for
    both disciplines; otherwise it returns a node that was pending, takes
    exactly that node out of the pending list and appends it to the
    explored list. *)
Theorem remove_cases (f : Frontier) :
  match nodes f with
  | [] => remove f = Raise (IndexError PendingList)
  | _ :: _ =>
      exists n f',
        remove f = Ok (n, f')
        /\ kind f' = kind f
        /\ Permutation (nodes f) (n :: nodes f')
        /\ explored_nodes f' = explored_nodes f ++ [n]
  end.
Proof.
  destruct (nodes f) as [|a l] eqn:E.
  - apply remove_empty. exact E.
  - assert (Hne : is_empty f = false).
    { apply is_empty_false. rewrite E. discriminate. }
    destruct (remove_nonempty f Hne) as (u & rest & Hp & Hr).
    eexists u, _. split; [exact Hr|]. simpl. split; auto. split; auto.
    rewrite <- E. unfold pops in Hp. destruct (kind f); rewrite Hp.
    + apply Permutation_sym, Permutation_cons_append.
    + apply Permutation_refl.
Qed.

Lemma fold_add_fresh (l : list Node) : forall f : Frontier,
  NoDup (coords l) ->
  (forall n, In n l -> ~ In (node_coord n) (coords (explored_nodes f ++ nodes f))) ->
  fold_left add l f = {| kind := kind f; nodes := nodes f ++ l;
                         explored_nodes := explored_nodes f |}.
Proof.
  induction l as [|a l IH]; intros f Hnd Hfresh; simpl.
  - rewrite app_nil_r. apply frontier_eta.
  - inversion Hnd as [|? ? Ha Hl]; subst.
    destruct (add_cases f a) as [[_ Hin]|[E _]].
    { exfalso. apply (Hfresh a); [left; reflexivity | exact Hin]. }
    rewrite E. rewrite IH; simpl; auto.
    + rewrite <- app_assoc. reflexivity.
    + intros n Hn Hc. unfold coords in Hc.
      rewrite app_assoc, map_app in Hc. apply in_app_or in Hc.
      destruct Hc as [Hc|[Hc|[]]].
      * apply (Hfresh n); [right; exact Hn | exact Hc].
      * apply Ha. rewrite Hc. apply in_map. exact Hn.
Qed.

Lemma remove_queue (a : Node) (l e : list Node) :
  remove {| kind := QueueFrontier; nodes := a :: l; explored_nodes := e |}
  = Ok (a, {| kind := QueueFrontier; nodes := l; explored_nodes := e ++ [a] |}).
Proof. reflexivity. Qed.

Lemma remove_stack (a : Node) (l e : list Node) :
  remove {| kind := StackFrontier; nodes := l ++ [a]; explored_nodes := e |}
  = Ok (a, {| kind := StackFrontier; nodes := l; explored_nodes := e ++ [a] |}).
Proof.
  set (f := {| kind := StackFrontier; nodes := l ++ [a]; explored_nodes := e |}).
  assert (Hne : is_empty f = false).
  { apply is_empty_false. simpl. destruct l; discriminate. }
  destruct (remove_nonempty f Hne) as (u & rest & Hp & Hr).
  unfold pops in Hp. simpl in Hp. apply app_inj_tail in Hp.
  destruct Hp as [-> ->]. exact Hr.
Qed.

Lemma drain_S (n : nat) (f : Frontier) :
  drain (S n) f =
  ('(node, f) <- remove f ;;
   '(rest, f) <- drain n f ;;
   Ok (node :: rest, f)).
Proof. reflexivity. Qed.

Lemma drain_queue (l : list Node) : forall e,
  drain (length l) {| kind := QueueFrontier; nodes := l; explored_nodes := e |}
  = Ok (l, {| kind := QueueFrontier; nodes := []; explored_nodes := e ++ l |}).
Proof.
  induction l as [|a l IH]; intros e.
  - simpl. rewrite app_nil_r. reflexivity.
  - simpl length. rewrite drain_S, remove_queue. cbn [bind].
    rewrite IH. cbn [bind]. rewrite <- app_assoc. reflexivity.
Qed.

Lemma drain_stack (l : list Node) : forall e,
  drain (length l) {| kind := StackFrontier; nodes := l; explored_nodes := e |}
  = Ok (rev l, {| kind := StackFrontier; nodes := [];
                  explored_nodes := e ++ rev l |}).
Proof.
  induction l as [|a l IH] using rev_ind; intros e.
  - simpl. rewrite app_nil_r. reflexivity.
  - rewrite length_app. simpl length. rewrite Nat.add_1_r.
    rewrite drain_S, remove_stack. cbn [bind].
    rewrite IH. cbn [bind].
    rewrite rev_app_distr. simpl. rewrite <- app_assoc. reflexivity.
Qed.

(** X2. Nodes with pairwise different coordinates, none of them explored,
    added to a frontier with nothing pending, come back from as many
    [remove] calls in insertion order from the queue frontier and in
    reverse insertion order from the stack frontier; the pending list is
    then empty and the explored list has grown by these nodes in removal
    order. *)
Theorem frontier_removal_order (k : discipline) (l e : list Node) :
  NoDup (coords l) ->
  (forall n, In n l -> ~ In (node_coord n) (coords e)) ->
  let order := match k with
               | QueueFrontier => l
               | StackFrontier => rev l
               end in
  drain (length l)
        (fold_left add l {| kind := k; nodes := []; explored_nodes := e |})
  = Ok (order, {| kind := k; nodes := []; explored_nodes := e ++ order |}).
Proof.
  intros Hnd Hfresh order.
  rewrite fold_add_fresh; simpl; auto.
  - destruct k; [apply drain_stack | apply drain_queue].
  - intros n Hn. rewrite app_nil_r. apply Hfresh. exact Hn.
Qed.

Lemma frontier_removal_order_witness :
  let a := {| node_state := START; node_parent := None;
              node_x := 0; node_y := 0; node_action := None |} in
  let b := {| node_state := OPEN; node_parent := Some a;
              node_x := 0; node_y := 1; node_action := Some RIGHT |} in
  let c := {| node_state := OPEN; node_parent := Some a;
              node_x := 1; node_y := 0; node_action := Some DOWN |} in
  drain 2 (fold_left add [b; c]
             {| kind := StackFrontier; nodes := []; explored_nodes := [a] |})
  = Ok ([c; b], {| kind := StackFrontier; nodes := [];
                   explored_nodes := [a] ++ [c; b] |}).
Proof.
  intros a b c.
  apply (frontier_removal_order StackFrontier [b; c] [a]).
  - repeat constructor; simpl; intuition discriminate.
  - intros n [<-|[<-|[]]] [H|[]]; discriminate H.
Defined.

(** ** The search: dimensions of the grid *)

Lemma subscript_Ok_inv {A} (s : site) (l : list A) (i : Z) (a : A) :
  subscript s l i = Ok a ->
  exists k, py_index (len l) i = Some k /\ nth_error l k = Some a.
Proof.
  unfold subscript. destruct (py_index (len l) i) as [k|]; [|discriminate].
  destruct (nth_error l k) as [b|] eqn:E; [|discriminate].
  intros H. inversion H; subst. eauto.
Qed.

Lemma store_Ok_inv {A} (s : site) (l l' : list A) (i : Z) (v : A) :
  store s l i v = Ok l' ->
  exists k, py_index (len l) i = Some k /\ l' = replace_nth k l v.
Proof.
  unfold store. destruct (py_index (len l) i) as [k|]; [|discriminate].
  intros H. inversion H; subst. eauto.
Qed.

Lemma replace_nth_map_length (k : nat) (g : grid) (row row' : list ascii) :
  nth_error g k = Some row -> length row' = length row ->
  map (@length ascii) (replace_nth k g row') = map (@length ascii) g.
Proof.
  revert k. induction g as [|r g IH]; intros [|k] Hk Hl; simpl in *;
    try discriminate.
  - inversion Hk; subst. rewrite Hl. reflexivity.
  - f_equal. apply IH; auto.
Qed.

Lemma set_cell_shape (g g' : grid) (x y : Z) (v : ascii) :
  set_cell g x y v = Ok g' ->
  map (@length ascii) g' = map (@length ascii) g.
Proof.
  unfold set_cell. intros H. inv_bind H. inv_bind Hk.
  apply subscript_Ok_inv in Hr. destruct Hr as (k & Hk1 & Hn).
  apply store_Ok_inv in Hr0. destruct Hr0 as (k' & _ & ->).
  apply store_Ok_inv in Hk0. destruct Hk0 as (k2 & Hk2 & ->).
  rewrite Hk1 in Hk2. inversion Hk2; subst k2.
  apply (replace_nth_map_length k g a); auto.
  apply replace_nth_length.
Qed.

Lemma same_dimensions_refl (m : Maze) : same_dimensions m m.
Proof. repeat split. Qed.

Lemma same_dimensions_trans (m1 m2 m3 : Maze) :
  same_dimensions m1 m2 -> same_dimensions m2 m3 -> same_dimensions m1 m3.
Proof.
  intros (A1 & A2 & A3 & A4 & A5) (B1 & B2 & B3 & B4 & B5).
  repeat split; congruence.
Qed.

Lemma pop_and_mark_dimensions (m m1 : Maze) (f f1 : Frontier) (u : Node) :
  pop_and_mark m f = Ok (u, m1, f1) -> same_dimensions m m1.
Proof.
  unfold pop_and_mark. intros H. inv_bind H. destruct a as [u' f'].
  inv_bind Hk. inv_bind Hk0. inversion Hk; subst.
  apply set_cell_shape in Hr1. repeat split; auto.
Qed.

Lemma solve_loop_dimensions : forall (fuel : nat) (m m' : Maze) (f f' : Frontier) r,
  solve_loop fuel m f = Ok (r, m', f') -> same_dimensions m m'.
Proof.
  induction fuel as [|fuel IH]; intros m m' f f' r H.
  - simpl in H. destruct (is_empty f); inversion H; subst.
    apply same_dimensions_refl.
  - rewrite solve_loop_S in H. destruct (is_empty f).
    { inversion H; subst. apply same_dimensions_refl. }
    inv_bind H. destruct a as [[u m1] f1].
    apply pop_and_mark_dimensions in Hr.
    destruct (Ascii.eqb (node_state u) TARGET).
    + inversion Hk; subst. exact Hr.
    + inv_bind Hk. apply IH in Hk0.
      eapply same_dimensions_trans; eauto.
Qed.

Lemma mark_path_shape : forall (d : nat) (n : Node) (arr arr' : grid),
  depth n = d -> mark_path arr n = Ok arr' ->
  map (@length ascii) arr' = map (@length ascii) arr.
Proof.
  induction d as [|d IH]; intros n arr arr' Hd H; rewrite mark_path_eq in H;
    rewrite depth_eq in Hd;
    (destruct (negb (Ascii.eqb (node_state n) START));
     [|inversion H; subst; reflexivity]);
    inv_bind H; destruct (node_parent n) as [p|]; try discriminate.
  apply set_cell_shape in Hr. rewrite <- Hr. apply (IH p); auto; lia.
Qed.

Lemma solve_dimensions (fuel : nat) (m m' : Maze) (f f' : Frontier) (b : bool) :
  solve fuel m f = Ok (b, m', f') -> same_dimensions m m'.
Proof.
  intros H.
  unfold solve, search in H. inv_bind H. destruct a as [[r m1] f1].
  inv_bind Hr. destruct a as [root f0].
  apply solve_loop_dimensions in Hk0. destruct r as [t|].
  - inv_bind Hk. inversion Hk1; subst.
    eapply same_dimensions_trans; [exact Hk0|].
    unfold _apply_solution in Hr. destruct (node_parent t) as [p|]; [|discriminate].
    inv_bind Hr. inversion Hk; subst.
    apply (mark_path_shape (depth p)) in Hr1; auto.
    repeat split; auto.
  - inversion Hk; subst. exact Hk0.
Qed.

(** X3. [solve] never changes the dimensions of the grid, nor the row and
    cell counts and the start and end points of the maze: whenever it
    returns, for any maze, frontier and discipline, every row of the grid
    has the length it had before the call. *)
Theorem solve_keeps_dimensions (fuel : nat) (m : Maze) (f : Frontier) :
  match solve fuel m f with
  | Ok (_, m', _) => same_dimensions m m'
  | Raise _ => True
  end.
Proof.
  destruct (solve fuel m f) as [[[b m'] f']|e] eqn:H; [|exact I].
  eapply solve_dimensions; eauto.
Qed.

(** ** The search: what it finds and what it leaves in the grid *)

Lemma valid_solve_run (g : grid) (m : Maze) (s tg : coord)
      (k : discipline) (fuel : nat) :
  valid_grid g -> Maze_init g = Ok m ->
  start_point m = Some s -> end_point m = Some tg ->
  len g * len (hd [] g) <= Z.of_nat fuel ->
  startable g (len g) (len (hd [] g)) s
  /\ cell g tg = Some TARGET
  /\ (forall p, cell g p = Some TARGET -> p = tg)
  /\ steps m = 0
  /\ exists r m1 f',
       search fuel m (new_frontier k) = Ok (r, m1, f')
       /\ maze_ok g (len g) (len (hd [] g)) s m1
       /\ steps m1 = steps m + len (explored_nodes f')
       /\ match r with
          | None =>
              inv g (len g) (len (hd [] g)) s m1 f' /\ nodes f' = []
              /\ solve fuel m (new_frontier k) = Ok (false, m1, f')
          | Some t =>
              found_at g (len g) (len (hd [] g)) s (fun _ => True) t f'
              /\ exists m2 p,
                   node_parent t = Some p
                   /\ solve fuel m (new_frontier k) = Ok (true, m2, f')
                   /\ steps m2 = steps m1
                   /\ forall q,
                        (In q (coords (inner t)) ->
                           cell (maze_arr m2) q = Some PATH
                           /\ exists c, cell g q = Some c
                                /\ c <> START /\ c <> TARGET /\ c <> WALL)
                        /\ (~ In q (coords (inner t)) ->
                              cell (maze_arr m2) q = cell (maze_arr m1) q)
          end.
Proof.
  intros Hv Hi Hs Ht Hfuel.
  destruct (valid_grid_ready g Hv)
    as (m0 & s0 & t0 & Hi0 & Hg & Hst0 & HR & HC & Hs0 & Ht0 & Hready & Htg & Hut).
  rewrite Hi in Hi0. inversion Hi0; subst m0.
  rewrite Hs in Hs0. inversion Hs0; subst s0.
  rewrite Ht in Ht0. inversion Ht0; subst t0.
  pose proof Hready as (_ & _ & _ & Hst). rewrite Hg in Hst.
  pose proof (ready_maze_ok _ _ _ _ Hready) as Hm. rewrite Hg in Hm.
  split; auto. split; auto. split; auto. split; auto.
  destruct (solve_run g _ _ s (fun _ => True) fuel m k Hst
              (fun _ _ _ _ _ _ _ _ _ _ _ => I) Hm (fun _ _ _ => I) Hfuel)
    as (r & m1 & f' & Hrun & Hm1 & Hsteps & Hr).
  exists r, m1, f'. split; auto. split; auto. split; auto.
  destruct r as [t|]; auto.
  destruct Hr as (Hinv & _ & Hn & Hsolve). auto.
Qed.

Lemma node_walk (g0 : grid) (R C : Z) (s : coord) (m : Maze) (f : Frontier) :
  inv g0 R C s m f ->
  forall (d : nat) (n : Node),
    depth n = d -> In n (explored_nodes f ++ nodes f) ->
    walk g0 s d (node_coord n).
Proof.
  intros Hinv. induction d as [|d IH]; intros n Hd Hn;
    destruct (inv_node _ _ _ _ _ _ Hinv n Hn) as [(c & Hc & Hw & _) Hpar];
    rewrite depth_eq in Hd;
    destruct (node_parent n) as [p|] eqn:Hp; try discriminate.
  - rewrite Hpar. apply walk_here.
  - destruct Hpar as [Hpe Hadj].
    apply (walk_move g0 s d (node_coord p)); auto.
    + apply IH; [lia|]. apply in_or_app. left. exact Hpe.
    + exists c. auto.
Qed.

Lemma found_at_reachable (g0 : grid) (R C : Z) (s : coord)
      (P : Frontier -> Prop) (t : Node) (f' : Frontier) :
  found_at g0 R C s P t f' -> reachable g0 s (node_coord t).
Proof.
  intros (_ & m1 & f1 & rest & Hinv & _ & Hpops & _).
  exists (depth t). apply (node_walk g0 R C s m1 f1 Hinv); auto.
  apply in_or_app. right. eapply pops_In; eauto.
Qed.

(** X4. The search is sound and complete with either frontier: on a valid
    grid [solve] returns [True] exactly when the target cell can be
    reached from the start cell through non-wall cells, and [False]
    exactly when it cannot. *)
Theorem solve_true_iff_reachable
        (g : grid) (m : Maze) (s tg : coord) (k : discipline) (fuel : nat) :
  valid_grid g -> Maze_init g = Ok m ->
  start_point m = Some s -> end_point m = Some tg ->
  len g * len (hd [] g) <= Z.of_nat fuel ->
  exists b m' f',
    solve fuel m (new_frontier k) = Ok (b, m', f')
    /\ (b = true <-> reachable g s tg).
Proof.
  intros Hv Hi Hs Ht Hfuel.
  destruct (valid_solve_run g m s tg k fuel Hv Hi Hs Ht Hfuel)
    as (Hst & Htg & Hut & _ & r & m1 & f' & _ & _ & _ & Hr).
  destruct r as [t|].
  - destruct Hr as (Hfound & m2 & p & _ & Hsolve & _).
    exists true, m2, f'. split; auto. split; auto. intros _.
    pose proof (found_at_target g _ _ s _ t f' Hfound) as Hct.
    apply Hut in Hct. rewrite <- Hct.
    eapply found_at_reachable; eauto.
  - destruct Hr as (Hinv & Hn & Hsolve).
    exists false, m1, f'. split; auto. split; [discriminate|].
    intros Hreach. exfalso.
    apply (exhausted_unreachable g _ _ s m1 f' tg Hinv Hn Htg Hreach).
Qed.

Lemma solve_true_iff_reachable_witness :
  let m := {| maze_arr := around_wall;
              start_point := Some (0, 0);
              end_point := Some (2, 2);
              rows_count := 3;
              cells_count := 3;
              steps := 0 |} in
  exists b m' f',
    solve 9 m (new_frontier StackFrontier) = Ok (b, m', f')
    /\ (b = true <-> reachable around_wall (0, 0) (2, 2)).
Proof.
  intros m.
  apply (solve_true_iff_reachable around_wall m (0, 0) (2, 2) StackFrontier 9);
    reflexivity || (vm_compute; discriminate).
Defined.

(** X5. When [solve] returns [False] on a valid grid, the pending list is
    empty, the target cannot be reached, the explored list holds exactly
    the cells that can be reached from the start, and no cell of the grid
    has received the path marker. *)
Theorem solve_false_explores_reachable_cells
        (g : grid) (m : Maze) (s tg : coord) (k : discipline) (fuel : nat) :
  valid_grid g -> Maze_init g = Ok m ->
  start_point m = Some s -> end_point m = Some tg ->
  len g * len (hd [] g) <= Z.of_nat fuel ->
  succeeded (solve fuel m (new_frontier k)) = false ->
  exists m' f',
    solve fuel m (new_frontier k) = Ok (false, m', f')
    /\ nodes f' = []
    /\ ~ reachable g s tg
    /\ (forall c, In c (coords (explored_nodes f')) <-> reachable g s c)
    /\ grid_rel g (maze_arr m').
Proof.
  intros Hv Hi Hs Ht Hfuel Hfail.
  destruct (valid_solve_run g m s tg k fuel Hv Hi Hs Ht Hfuel)
    as (Hst & Htg & Hut & _ & r & m1 & f' & _ & Hm1 & _ & Hr).
  destruct r as [t|].
  { destruct Hr as (_ & m2 & p & _ & Hsolve & _).
    rewrite Hsolve in Hfail. discriminate. }
  destruct Hr as (Hinv & Hn & Hsolve).
  exists m1, f'. split; auto. split; auto. split.
  { apply (exhausted_unreachable g _ _ s m1 f' tg Hinv Hn Htg). }
  split; [|apply Hm1].
  intros c. split.
  - intros Hc. unfold coords in Hc. apply in_map_iff in Hc.
    destruct Hc as (n & <- & Hin). exists (depth n).
    apply (node_walk g _ _ s m1 f' Hinv); auto.
    apply in_or_app. left. exact Hin.
  - intros (d & Hw). apply (exhausted_closed g _ _ s m1 f' Hinv Hn d c Hw).
Qed.

Lemma solve_false_explores_reachable_cells_witness :
  let g := grid_of ["A #"%string; "##B"%string] in
  let m := {| maze_arr := g;
              start_point := Some (0, 0);
              end_point := Some (1, 2);
              rows_count := 2;
              cells_count := 3;
              steps := 0 |} in
  exists m' f',
    solve 6 m (new_frontier QueueFrontier) = Ok (false, m', f')
    /\ nodes f' = []
    /\ ~ reachable g (0, 0) (1, 2)
    /\ (forall c, In c (coords (explored_nodes f')) <-> reachable g (0, 0) c)
    /\ grid_rel g (maze_arr m').
Proof.
  intros g m.
  apply (solve_false_explores_reachable_cells g m (0, 0) (1, 2) QueueFrontier 6);
    reflexivity || (vm_compute; discriminate).
Defined.

Lemma valid_solve_cells
      (g : grid) (m : Maze) (s tg : coord) (k : discipline) (fuel : nat) :
  valid_grid g -> Maze_init g = Ok m ->
  start_point m = Some s -> end_point m = Some tg ->
  len g * len (hd [] g) <= Z.of_nat fuel ->
  exists b m' f',
    solve fuel m (new_frontier k) = Ok (b, m', f')
    /\ (forall p, match cell g p, cell (maze_arr m') p with
                  | Some c, Some c' => solved_cell c c'
                  | None, None => True
                  | _, _ => False
                  end).
Proof.
  intros Hv Hi Hs Ht Hfuel.
  destruct (valid_solve_run g m s tg k fuel Hv Hi Hs Ht Hfuel)
    as (Hst & Htg & Hut & _ & r & m1 & f' & _ & Hm1 & _ & Hr).
  destruct Hm1 as (_ & _ & _ & Hrel).
  destruct r as [t|].
  - destruct Hr as (_ & m2 & p0 & _ & Hsolve & _ & Hspec).
    exists true, m2, f'. split; auto. intros p.
    destruct (in_dec coord_eq_dec p (coords (inner t))) as [Hin|Hnin].
    + destruct (proj1 (Hspec p) Hin) as (-> & c & -> & H1 & H2 & H3).
      right. right. auto.
    + rewrite (proj2 (Hspec p) Hnin). specialize (Hrel p).
      destruct (cell g p), (cell (maze_arr m1) p); auto.
      destruct Hrel as [->|[-> ->]]; [left | right; left]; auto.
  - destruct Hr as (_ & _ & Hsolve).
    exists false, m1, f'. split; auto. intros p. specialize (Hrel p).
    destruct (cell g p), (cell (maze_arr m1) p); auto.
    destruct Hrel as [->|[-> ->]]; [left | right; left]; auto.
Qed.

(** X6. After [solve] on a valid grid every cell holds what it held
    before, or was open and is now marked explored, or holds the path
    marker and was not a start, target or wall cell: start, target and
    wall cells are the same after the call, for both disciplines and
    both outcomes. *)
Theorem solve_rewrites_only_open_path_cells
        (g : grid) (m : Maze) (s tg : coord) (k : discipline) (fuel : nat) :
  valid_grid g -> Maze_init g = Ok m ->
  start_point m = Some s -> end_point m = Some tg ->
  len g * len (hd [] g) <= Z.of_nat fuel ->
  exists b m' f',
    solve fuel m (new_frontier k) = Ok (b, m', f')
    /\ (forall p, match cell g p, cell (maze_arr m') p with
                  | Some c, Some c' => solved_cell c c'
                  | None, None => True
                  | _, _ => False
                  end)
    /\ (forall p c, cell g p = Some c ->
                    c = START \/ c = TARGET \/ c = WALL ->
                    cell (maze_arr m') p = Some c).
Proof.
  intros Hv Hi Hs Ht Hfuel.
  destruct (valid_solve_cells g m s tg k fuel Hv Hi Hs Ht Hfuel)
    as (b & m' & f' & Hsolve & Hcells).
  exists b, m', f'. split; auto. split; auto.
  intros p c Hc Hkind. specialize (Hcells p). rewrite Hc in Hcells.
  destruct (cell (maze_arr m') p) as [c'|]; [|contradiction].
  destruct Hcells as [->|[[-> _]|(_ & H1 & H2 & H3)]]; auto;
    exfalso; destruct Hkind as [E|[E|E]]; try discriminate E; auto.
Qed.

Lemma solve_rewrites_only_open_path_cells_witness :
  let m := {| maze_arr := around_wall;
              start_point := Some (0, 0);
              end_point := Some (2, 2);
              rows_count := 3;
              cells_count := 3;
              steps := 0 |} in
  exists b m' f',
    solve 9 m (new_frontier QueueFrontier) = Ok (b, m', f')
    /\ (forall p, match cell around_wall p, cell (maze_arr m') p with
                  | Some c, Some c' => solved_cell c c'
                  | None, None => True
                  | _, _ => False
                  end)
    /\ (forall p c, cell around_wall p = Some c ->
                    c = START \/ c = TARGET \/ c = WALL ->
                    cell (maze_arr m') p = Some c).
Proof.
  intros m.
  apply (solve_rewrites_only_open_path_cells around_wall m (0, 0) (2, 2)
           QueueFrontier 9);
    reflexivity || (vm_compute; discriminate).
Defined.

(** X7. The path that [solve] reconstructs on a valid grid is a simple
    path, with either frontier: the parent chain of the popped target
    node runs from the target to the start through non-wall cells, one
    move at a time, visits no coordinate twice, and consists of explored
    nodes only, so its number of nodes is at most the step counter. *)
Theorem found_path_is_simple
        (g : grid) (m : Maze) (s tg : coord) (k : discipline) (fuel : nat) :
  valid_grid g -> Maze_init g = Ok m ->
  start_point m = Some s -> end_point m = Some tg ->
  len g * len (hd [] g) <= Z.of_nat fuel ->
  succeeded (solve fuel m (new_frontier k)) = true ->
  exists t m1 m2 f',
    search fuel m (new_frontier k) = Ok (Some t, m1, f')
    /\ solve fuel m (new_frontier k) = Ok (true, m2, f')
    /\ coords (chain t) = tg :: coords (inner t) ++ [s]
    /\ is_path g (coords (chain t))
    /\ NoDup (coords (chain t))
    /\ (forall n, In n (chain t) -> In n (explored_nodes f'))
    /\ Z.of_nat (length (chain t)) <= steps m2.
Proof.
  intros Hv Hi Hs Ht Hfuel Hsucc.
  destruct (valid_solve_run g m s tg k fuel Hv Hi Hs Ht Hfuel)
    as (Hst & Htg & Hut & Hs0 & r & m1 & f' & Hrun & Hm1 & Hsteps & Hr).
  destruct r as [t|].
  2:{ destruct Hr as (_ & _ & Hsolve). rewrite Hsolve in Hsucc. discriminate. }
  destruct Hr as (Hfound & m2 & p & Hp & Hsolve & Hst2 & _).
  pose proof (found_at_target g _ _ s _ t f' Hfound) as Hct.
  apply Hut in Hct.
  destruct (found_chain_coords g _ _ s _ t p f' Hfound Hp) as [Hch _].
  pose proof (found_chain_is_path g _ _ s _ t f' Hfound) as Hpath.
  destruct Hfound as (_ & m3 & f1 & rest & Hinv & _ & Hpops & Hf').
  assert (Htn : In t (explored_nodes f1 ++ nodes f1)).
  { apply in_or_app. right. eapply pops_In; eauto. }
  pose proof (chain_nodup g _ _ s m3 f1 Hinv (depth t) t eq_refl Htn) as Hnd.
  assert (Hincl : forall n, In n (chain t) -> In n (explored_nodes f')).
  { intros n Hn. rewrite Hf'. simpl. apply in_or_app.
    destruct (chain_explored g _ _ s m3 f1 (depth t) t n Hinv eq_refl Htn Hn)
      as [->|H]; [right; left; reflexivity | left; exact H]. }
  exists t, m1, m2, f'. split; auto. split; auto.
  split; [rewrite Hch, Hct; reflexivity|].
  split; auto. split; auto. split; auto.
  rewrite Hst2, Hsteps, Hs0. unfold len. apply inj_le.
  apply NoDup_incl_length; [|exact Hincl].
  apply (NoDup_map_inv node_coord). exact Hnd.
Qed.

Lemma found_path_is_simple_witness :
  let m := {| maze_arr := around_wall;
              start_point := Some (0, 0);
              end_point := Some (2, 2);
              rows_count := 3;
              cells_count := 3;
              steps := 0 |} in
  exists t m1 m2 f',
    search 9 m (new_frontier StackFrontier) = Ok (Some t, m1, f')
    /\ solve 9 m (new_frontier StackFrontier) = Ok (true, m2, f')
    /\ coords (chain t) = (2, 2) :: coords (inner t) ++ [(0, 0)]
    /\ is_path around_wall (coords (chain t))
    /\ NoDup (coords (chain t))
    /\ (forall n, In n (chain t) -> In n (explored_nodes f'))
    /\ Z.of_nat (length (chain t)) <= steps m2.
Proof.
  intros m.
  apply (found_path_is_simple around_wall m (0, 0) (2, 2) StackFrontier 9);
    reflexivity || (vm_compute; discriminate).
Defined.

(** X8. A frontier is used up by a failed search: when [solve] has
    returned [False] on a valid grid, a further [solve] call on the same
    maze with the same frontier object adds nothing (the start is already
    explored), pops nothing, and returns [False] with the maze, its step
    counter and the frontier unchanged. *)
Theorem solve_again_with_exhausted_frontier
        (g : grid) (m : Maze) (s tg : coord) (k : discipline) (fuel : nat) :
  valid_grid g -> Maze_init g = Ok m ->
  start_point m = Some s -> end_point m = Some tg ->
  len g * len (hd [] g) <= Z.of_nat fuel ->
  succeeded (solve fuel m (new_frontier k)) = false ->
  exists m1 f1,
    solve fuel m (new_frontier k) = Ok (false, m1, f1)
    /\ forall fuel', solve fuel' m1 f1 = Ok (false, m1, f1).
Proof.
  intros Hv Hi Hs Ht Hfuel Hfail.
  destruct (valid_solve_run g m s tg k fuel Hv Hi Hs Ht Hfuel)
    as (Hst & Htg & Hut & _ & r & m1 & f' & _ & Hm1 & _ & Hr).
  destruct r as [t|].
  { destruct Hr as (_ & m2 & p & _ & Hsolve & _).
    rewrite Hsolve in Hfail. discriminate. }
  destruct Hr as (Hinv & Hn & Hsolve).
  exists m1, f'. split; auto. intros fuel'.
  destruct Hm1 as (_ & _ & Hs1 & Hrel). destruct Hst as (_ & Hcs & _).
  destruct (grid_rel_cell _ _ _ _ Hrel Hcs) as (c' & Hc' & _).
  destruct s as [x y].
  unfold solve, search, seed. rewrite Hs1.
  rewrite (get_cell_cell _ _ _ _ Hc'). cbn [bind].
  set (root := {| node_state := c'; node_parent := None; node_x := x;
                  node_y := y; node_action := None |}).
  assert (Hadd : add f' root = f').
  { destruct (add_cases f' root) as [[E _]|[_ Hfresh]]; auto.
    exfalso. apply Hfresh. apply (inv_root _ _ _ _ _ _ Hinv). }
  rewrite Hadd. rewrite solve_loop_empty.
  - reflexivity.
  - unfold is_empty. rewrite Hn. reflexivity.
Qed.

Lemma solve_again_with_exhausted_frontier_witness :
  let g := grid_of ["A #"%string; "##B"%string] in
  let m := {| maze_arr := g;
              start_point := Some (0, 0);
              end_point := Some (1, 2);
              rows_count := 2;
              cells_count := 3;
              steps := 0 |} in
  exists m1 f1,
    solve 6 m (new_frontier StackFrontier) = Ok (false, m1, f1)
    /\ forall fuel', solve fuel' m1 f1 = Ok (false, m1, f1).
Proof.
  intros g m.
  apply (solve_again_with_exhausted_frontier g m (0, 0) (1, 2) StackFrontier 6);
    reflexivity || (vm_compute; discriminate).
Defined.

(** ** Neighbours *)

Lemma open_cell_passable (g : grid) (p : coord) :
  open_cell g p = true <-> passable g p.
Proof.
  unfold open_cell, passable. destruct (cell g p) as [c|].
  - rewrite negb_true_iff, Ascii.eqb_neq. split.
    + intros H. exists c. auto.
    + intros (c' & E & H). inversion E; subst. exact H.
  - split; [discriminate | intros (c & E & _); discriminate].
Qed.

Lemma neighbors_loop_order (m : Maze) (R C : Z) (s : coord) (u : Node) :
  bounds (maze_arr m) R C -> maze_ok (maze_arr m) R C s m ->
  in_grid R C (node_coord u) ->
  forall mvs acc,
  exists l, neighbors_loop m u mvs acc = Ok (acc ++ l)
    /\ coords l = filter (open_cell (maze_arr m))
                         (map (fun mv => move mv (node_coord u)) mvs)
    /\ (forall n, In n l ->
          node_parent n = Some u
          /\ cell (maze_arr m) (node_coord n) = Some (node_state n)
          /\ exists mv, node_action n = Some mv
                        /\ node_coord n = move mv (node_coord u)).
Proof.
  intros Hb Hm Hu. induction mvs as [|mv mvs IH]; intros acc.
  - exists []. simpl. rewrite app_nil_r. split; [reflexivity|].
    split; [reflexivity | intros ? []].
  - cbn [neighbors_loop map filter].
    destruct (next_cell_spec (maze_arr m) R C s Hb m (node_x u) (node_y u) mv Hm Hu)
      as (r & Hr & Hspec).
    rewrite Hr. cbn [bind]. fold (node_coord u) in Hspec.
    destruct r as [[x y]|].
    + destruct Hspec as (Hq & c & c' & Hc & Hcw & Hg & Hmk).
      simpl in Hg. rewrite (get_cell_cell _ _ _ _ Hc) in Hg.
      inversion Hg; subst c'.
      unfold _get_state. rewrite (get_cell_cell _ _ _ _ Hc). cbn [bind].
      assert (Hopen : open_cell (maze_arr m) (move mv (node_coord u)) = true).
      { apply open_cell_passable. rewrite <- Hq. exists c. auto. }
      rewrite Hopen.
      set (nn := {| node_state := c; node_parent := Some u;
                    node_x := x; node_y := y; node_action := Some mv |}).
      destruct (IH (acc ++ [nn])) as (l & Hl & Hco & Hall).
      exists (nn :: l). rewrite <- app_assoc in Hl. split; [exact Hl|].
      split.
      * simpl. rewrite Hco. f_equal. exact Hq.
      * intros n [<-|Hn]; [|apply Hall; exact Hn].
        split; [reflexivity|]. split; [exact Hc|].
        exists mv. split; [reflexivity | exact Hq].
    + assert (Hopen : open_cell (maze_arr m) (move mv (node_coord u)) = false).
      { destruct (open_cell (maze_arr m) (move mv (node_coord u))) eqn:E; auto.
        exfalso. apply Hspec. apply open_cell_passable. exact E. }
      rewrite Hopen. apply IH.
Qed.

(** [_get_neighbors] reads the grid and the two counts of the maze, and
    nothing else. *)
Lemma neighbors_loop_fields (m m' : Maze) (u : Node) :
  maze_arr m' = maze_arr m -> rows_count m' = rows_count m ->
  cells_count m' = cells_count m ->
  forall mvs acc, neighbors_loop m' u mvs acc = neighbors_loop m u mvs acc.
Proof.
  intros Ha Hr Hc. induction mvs as [|mv mvs IH]; intros acc; [reflexivity|].
  cbn [neighbors_loop].
  assert (E : _next_cell m' (node_x u) (node_y u) mv
              = _next_cell m (node_x u) (node_y u) mv).
  { unfold _next_cell. rewrite Ha, Hr, Hc. reflexivity. }
  rewrite E. destruct (_next_cell m (node_x u) (node_y u) mv) as [[[x y]|]|e];
    cbn [bind]; [|apply IH|reflexivity].
  unfold _get_state. rewrite Ha.
  destruct (get_cell (maze_arr m) x y); cbn [bind]; [apply IH|reflexivity].
Qed.

(** X9. For a maze whose row and cell counts are those of its rectangular
    grid (whatever its start and end points and however many start
    markers the grid holds) and a node inside the grid, [_get_neighbors]
    returns, in the order UP, LEFT, DOWN, RIGHT, exactly the adjacent
    coordinates that lie inside the grid and are not walls -- at most
    four, never wrapping around an edge of the grid -- each as a node
    whose parent is the given node, whose action is the move made and
    whose state is the current content of its cell. *)
Theorem get_neighbors_exact (m : Maze) (u : Node) :
  rectangular (maze_arr m) = true ->
  rows_count m = len (maze_arr m) ->
  cells_count m = len (hd [] (maze_arr m)) ->
  in_grid (rows_count m) (cells_count m) (node_coord u) ->
  exists l,
    _get_neighbors m u = Ok l
    /\ coords l = filter (open_cell (maze_arr m))
                         (map (fun mv => move mv (node_coord u))
                              [UP; LEFT; DOWN; RIGHT])
    /\ (length l <= 4)%nat
    /\ (forall n, In n l ->
          in_grid (rows_count m) (cells_count m) (node_coord n)
          /\ node_parent n = Some u
          /\ cell (maze_arr m) (node_coord n) = Some (node_state n)
          /\ node_state n <> WALL
          /\ exists mv, node_action n = Some mv
                        /\ node_coord n = move mv (node_coord u)).
Proof.
  intros Hrect HR HC Hu.
  pose proof (rectangular_bounds (maze_arr m) Hrect) as Hb.
  rewrite <- HR, <- HC in Hb.
  set (m0 := {| maze_arr := maze_arr m;
                start_point := Some (0, 0);
                end_point := end_point m;
                rows_count := rows_count m;
                cells_count := cells_count m;
                steps := steps m |}).
  assert (Hm : maze_ok (maze_arr m0) (rows_count m) (cells_count m) (0, 0) m0).
  { split; [reflexivity|]. split; [reflexivity|]. split; [reflexivity|].
    apply grid_rel_refl. }
  destruct (neighbors_loop_order m0 (rows_count m) (cells_count m) (0, 0) u
              Hb Hm Hu movements [])
    as (l & Hl & Hco & Hall).
  rewrite (neighbors_loop_fields m m0 u eq_refl eq_refl eq_refl) in Hl.
  change (maze_arr m0) with (maze_arr m) in Hco, Hall.
  exists l. split; [exact Hl|]. split; [exact Hco|]. split.
  - rewrite <- (length_map node_coord). fold (coords l). rewrite Hco.
    etransitivity; [apply filter_length_le|]. simpl. lia.
  - intros n Hn. destruct (Hall n Hn) as (Hp & Hc & Hmv).
    assert (Hop : open_cell (maze_arr m) (node_coord n) = true).
    { assert (Hin : In (node_coord n) (coords l)) by (apply in_map; exact Hn).
      rewrite Hco in Hin. apply filter_In in Hin. apply Hin. }
    split; [apply Hb; congruence|]. split; auto. split; auto. split; auto.
    unfold open_cell in Hop. rewrite Hc in Hop.
    apply negb_true_iff, Ascii.eqb_neq in Hop. exact Hop.
Qed.

Lemma get_neighbors_exact_witness :
  let m := second_start_maze in
  let u := {| node_state := OPEN; node_parent := None;
              node_x := 0; node_y := 1; node_action := None |} in
  exists l,
    _get_neighbors m u = Ok l
    /\ coords l = filter (open_cell (maze_arr m))
                         (map (fun mv => move mv (node_coord u))
                              [UP; LEFT; DOWN; RIGHT])
    /\ (length l <= 4)%nat
    /\ (forall n, In n l ->
          in_grid (rows_count m) (cells_count m) (node_coord n)
          /\ node_parent n = Some u
          /\ cell (maze_arr m) (node_coord n) = Some (node_state n)
          /\ node_state n <> WALL
          /\ exists mv, node_action n = Some mv
                        /\ node_coord n = move mv (node_coord u)).
Proof.
  intros m u. apply (get_neighbors_exact m u).
  - reflexivity.
  - reflexivity.
  - reflexivity.
  - unfold in_grid. simpl. lia.
Defined.

(** ** Construction: which marker is taken, which error is raised *)

Section ScanLast.
Variable sel : option coord * option coord -> option coord.
Variable ch : ascii.
Hypothesis Hsel : forall i j acc c,
  sel (scan_cell i j acc c) = if Ascii.eqb c ch then Some (i, j) else sel acc.

Lemma scan_row_last (i : Z) : forall row j acc,
  (sel (scan_row i j row acc) = sel acc
   /\ forall k, nth_error row k <> Some ch)
  \/ (exists k, sel (scan_row i j row acc) = Some (i, j + Z.of_nat k)
                /\ nth_error row k = Some ch
                /\ forall k', nth_error row k' = Some ch -> (k' <= k)%nat).
Proof.
  induction row as [|c row IH]; intros j acc; simpl.
  - left. split; auto. intros [|k]; discriminate.
  - destruct (IH (j + 1) (scan_cell i j acc c)) as [[E Hno]|(k & E & Hk & Hmax)].
    + rewrite E, Hsel. destruct (Ascii.eqb_spec c ch) as [->|NE].
      * right. exists O. split; [f_equal; f_equal; lia|]. split; auto.
        intros [|k'] Hk'; [lia|]. simpl in Hk'. exfalso. apply (Hno k'). exact Hk'.
      * left. split; auto. intros [|k] Hk; simpl in Hk.
        -- inversion Hk. contradiction.
        -- apply (Hno k). exact Hk.
    + right. exists (S k). split; [rewrite E; f_equal; f_equal; lia|].
      split; auto. intros [|k'] Hk'; [lia|]. simpl in Hk'.
      apply Hmax in Hk'. lia.
Qed.

Lemma scan_rows_last : forall rows i acc,
  (sel (scan_rows i rows acc) = sel acc
   /\ forall r row k, nth_error rows r = Some row -> nth_error row k <> Some ch)
  \/ (exists r k row,
        sel (scan_rows i rows acc) = Some (i + Z.of_nat r, Z.of_nat k)
        /\ nth_error rows r = Some row /\ nth_error row k = Some ch
        /\ forall r' row' k',
             nth_error rows r' = Some row' -> nth_error row' k' = Some ch ->
             (r' < r)%nat \/ (r' = r /\ (k' <= k)%nat)).
Proof.
  induction rows as [|row rows IH]; intros i acc; simpl.
  - left. split; auto. intros [|r]; discriminate.
  - destruct (IH (i + 1) (scan_row i 0 row acc))
      as [[E Hno]|(r & k & row' & E & Hr & Hk & Hmax)].
    + rewrite E.
      destruct (scan_row_last i row 0 acc) as [[E' Hno']|(k & E' & Hk & Hmax)].
      * left. split; auto. intros [|r] row' k Hr; simpl in Hr.
        -- inversion Hr; subst. apply Hno'.
        -- apply (Hno r row' k Hr).
      * right. exists O, k, row. split; [rewrite E'; f_equal; f_equal; lia|].
        split; auto. split; auto.
        intros [|r'] row' k' Hr' Hk'; simpl in Hr'.
        -- inversion Hr'; subst. right. split; auto.
        -- exfalso. apply (Hno r' row' k' Hr'). exact Hk'.
    + right. exists (S r), k, row'. split; [rewrite E; f_equal; f_equal; lia|].
      split; auto. split; auto.
      intros [|r'] row2 k' Hr' Hk'; simpl in Hr'; [left; lia|].
      destruct (Hmax r' row2 k' Hr' Hk') as [H|[H1 H2]]; [left | right]; lia.
Qed.

Hypothesis Hsel0 : sel (None, None) = None.

Lemma scan_takes_last (g : grid) (p : coord) :
  sel (_get_start_end_points g) = Some p ->
  cell g p = Some ch
  /\ forall q, cell g q = Some ch -> row_major_le q p.
Proof.
  unfold _get_start_end_points. intros H.
  destruct (scan_rows_last g 0 (None, None))
    as [[E _]|(r & k & row & E & Hr & Hk & Hmax)].
  - rewrite E, Hsel0 in H. discriminate.
  - rewrite E in H. inversion H; subst p. split.
    + simpl. eapply cell_nth; eauto.
    + intros [x y] Hq.
      apply cell_Some_inv in Hq as (Hx & Hy & row' & Hr' & Hk').
      unfold row_major_le. simpl.
      destruct (Hmax _ _ _ Hr' Hk') as [Hlt|[He Hle]]; [left | right]; lia.
Qed.
End ScanLast.

(** X10. When several cells hold the start marker (or the target
    marker), construction takes the last one in row-major order: the
    start point of a constructed maze holds the start marker and no cell
    after it does, and likewise for the end point and the target marker. *)
Theorem Maze_init_takes_last_markers (g : grid) (m : Maze) :
  Maze_init g = Ok m ->
  exists s t,
    start_point m = Some s /\ end_point m = Some t
    /\ cell g s = Some START
    /\ (forall q, cell g q = Some START -> row_major_le q s)
    /\ cell g t = Some TARGET
    /\ (forall q, cell g q = Some TARGET -> row_major_le q t).
Proof.
  intros Hi. pose proof (Maze_init_cases g) as H. rewrite Hi in H.
  destruct H as (_ & _ & Hm & (s & Hs & _) & (t & Ht & _)).
  exists s, t. split; auto. split; auto.
  rewrite Hm in Hs, Ht. simpl in Hs, Ht.
  destruct (scan_takes_last fst START) with (g := g) (p := s) as [H1 H2]; auto.
  { intros i j acc c. unfold scan_cell.
    destruct (Ascii.eqb c START); [reflexivity|].
    destruct (Ascii.eqb c TARGET); reflexivity. }
  destruct (scan_takes_last snd TARGET) with (g := g) (p := t) as [H3 H4]; auto.
  intros i j acc c. unfold scan_cell.
  destruct (Ascii.eqb_spec c START) as [->|NE]; [reflexivity|].
  destruct (Ascii.eqb c TARGET); reflexivity.
Qed.

Lemma Maze_init_takes_last_markers_witness :
  let m := {| maze_arr := second_start;
              start_point := Some (0, 4);
              end_point := Some (0, 0);
              rows_count := 1;
              cells_count := 5;
              steps := 0 |} in
  exists s t,
    start_point m = Some s /\ end_point m = Some t
    /\ cell second_start s = Some START
    /\ (forall q, cell second_start q = Some START -> row_major_le q s)
    /\ cell second_start t = Some TARGET
    /\ (forall q, cell second_start q = Some TARGET -> row_major_le q t).
Proof.
  intros m. apply (Maze_init_takes_last_markers second_start m). reflexivity.
Defined.

Lemma count_zero_iff_not_found (g : grid) (c : ascii) (r : option coord) :
  match r with
  | Some p => cell g p = Some c
  | None => count_cells c g = 0%nat
  end ->
  (count_cells c g =? 0)%nat = match r with Some _ => false | None => true end.
Proof.
  destruct r as [p|]; intros H.
  - apply count_cells_pos in H. apply Nat.eqb_neq. lia.
  - rewrite H. reflexivity.
Qed.

(** X11. Construction tests in a fixed order and reports the first
    defect only: an empty grid gives "Maze is empty"; otherwise rows of
    different lengths give the row-width message, also when markers are
    missing; otherwise a missing start or target marker gives the
    start-and-end-points message; otherwise the maze is built with the
    grid's dimensions and a step counter of 0. *)
Theorem Maze_init_first_defect (g : grid) :
  Maze_init g =
  match g with
  | [] => Raise (ConfigError "Maze is empty")
  | row0 :: _ =>
      if negb (rectangular g)
      then Raise (ConfigError "Maze rows must have the same number of cells")
      else if (count_cells START g =? 0)%nat || (count_cells TARGET g =? 0)%nat
           then Raise (ConfigError "Maze doesn't contain start and end points")
           else Ok {| maze_arr := g;
                      start_point := fst (_get_start_end_points g);
                      end_point := snd (_get_start_end_points g);
                      rows_count := len g;
                      cells_count := len row0;
                      steps := 0 |}
  end.
Proof.
  pose proof (count_zero_iff_not_found g START _ (scan_start g)) as HA.
  pose proof (count_zero_iff_not_found g TARGET _ (scan_end g)) as HB.
  rewrite HA, HB. unfold Maze_init, _validate_maze_points.
  destruct (_get_start_end_points g) as [sp ep]. cbn [fst snd].
  destruct g as [|row0 g']; [reflexivity|].
  assert (Hl : (len (row0 :: g') <? 1) = false).
  { apply Z.ltb_ge. unfold len. simpl. lia. }
  rewrite Hl, subscript_head. cbn [bind].
  rewrite existsb_negb_forallb.
  change (forallb (fun row => len row =? len row0) (row0 :: g'))
    with (rectangular (row0 :: g')).
  destruct (rectangular (row0 :: g')); cbn [negb]; [|reflexivity].
  destruct sp as [s|], ep as [t|]; reflexivity.
Qed.

(** ** Reading and writing the maze file *)

Lemma rstrip_cons (ch c : ascii) (l : list ascii) :
  c <> ch -> rstrip ch (c :: l) = c :: rstrip ch l.
Proof.
  intros NE. simpl. destruct (rstrip ch l); auto.
  apply Ascii.eqb_neq in NE. rewrite NE. reflexivity.
Qed.

(** [_parse_maze_file], one character at a time. *)
Lemma parse_cons (c : ascii) (text : list ascii) :
  _parse_maze_file (c :: text) =
  if Ascii.eqb c NEWLINE then [] :: _parse_maze_file text
  else match _parse_maze_file text with
       | [] => [[c]]
       | r :: rs => (c :: r) :: rs
       end.
Proof.
  unfold _parse_maze_file. cbn [file_lines].
  destruct (Ascii.eqb_spec c NEWLINE) as [->|NE].
  - reflexivity.
  - destruct (file_lines text) as [|l ls]; cbn [map].
    + f_equal. apply (rstrip_cons NEWLINE c [] NE).
    + f_equal. apply (rstrip_cons NEWLINE c l NE).
Qed.

Lemma parse_nil : _parse_maze_file [] = [].
Proof. reflexivity. Qed.

Lemma parse_row (row rest : list ascii) :
  ~ In NEWLINE row ->
  _parse_maze_file (row ++ NEWLINE :: rest) = row :: _parse_maze_file rest.
Proof.
  induction row as [|c row IH]; intros Hno.
  - simpl app. rewrite parse_cons. rewrite Ascii.eqb_refl. reflexivity.
  - simpl app. rewrite parse_cons.
    assert (NE : c <> NEWLINE) by (intros ->; apply Hno; left; reflexivity).
    apply Ascii.eqb_neq in NE. rewrite NE.
    rewrite IH; [reflexivity|]. intros H. apply Hno. right. exact H.
Qed.

Lemma write_rows_spec (g : grid) :
  write_rows g = (map (fun row => row ++ [NEWLINE]) g,
                  concat (map (fun row => row ++ [NEWLINE]) g)).
Proof.
  induction g as [|row g IH]; simpl; auto.
  rewrite IH. reflexivity.
Qed.

Lemma parse_written (g : grid) :
  (forall row, In row g -> ~ In NEWLINE row) ->
  _parse_maze_file (concat (map (fun row => row ++ [NEWLINE]) g)) = g.
Proof.
  induction g as [|row g IH]; intros Hno; [reflexivity|].
  simpl. rewrite <- app_assoc. simpl.
  rewrite parse_row by (apply Hno; left; reflexivity).
  f_equal. apply IH. intros r Hr. apply Hno. right. exact Hr.
Qed.

Lemma parse_no_newline (text : list ascii) : forall row,
  In row (_parse_maze_file text) -> ~ In NEWLINE row.
Proof.
  induction text as [|c text IH]; intros row.
  - rewrite parse_nil. intros [].
  - rewrite parse_cons. destruct (Ascii.eqb_spec c NEWLINE) as [->|NE].
    + intros [<-|H]; [intros [] | apply IH; exact H].
    + destruct (_parse_maze_file text) as [|r rs].
      * intros [<-|[]] [E|[]]. congruence.
      * intros [<-|H].
        -- intros [E|Hr]; [congruence|].
           apply (IH r); [left; reflexivity | exact Hr].
        -- apply IH. right. exact H.
Qed.

(** X12. No cell of a grid read by [_parse_maze_file] holds a newline:
    the rows are the lines of the file without their line ends. *)
Theorem parsed_rows_have_no_newline (text : list ascii) (row : list ascii) :
  In row (_parse_maze_file text) -> ~ In NEWLINE row.
Proof. apply parse_no_newline. Qed.

Lemma parsed_rows_have_no_newline_witness :
  ~ In NEWLINE (row_of "A B").
Proof.
  apply (parsed_rows_have_no_newline
           (list_ascii_of_string "A B
# #
") (row_of "A B")).
  left. reflexivity.
Defined.

(** [write_solved_maze_file] by the parts of the file name. *)
Lemma write_by_parts (h : host) (filename : list ascii) (m : Maze) :
  write_solved_maze_file h filename m =
  match split DOT filename with
  | p0 :: p1 :: _ =>
      let name := p0 ++ list_ascii_of_string "_solved." ++ p1 in
      let text := concat (map (fun row => row ++ [NEWLINE]) (maze_arr m)) in
      match file_write h name text with
      | None =>
          Ok (set_maze_arr m (map (fun row => row ++ [NEWLINE]) (maze_arr m)),
              (name, text))
      | Some e => Raise (raised e)
      end
  | _ => Raise (IndexError NameParts)
  end.
Proof.
  unfold write_solved_maze_file.
  destruct (split DOT filename) as [|p0 [|p1 ps]] eqn:E.
  - reflexivity.
  - rewrite subscript_head. reflexivity.
  - rewrite subscript_head. cbn [bind].
    rewrite (subscript_nth NameParts (p0 :: p1 :: ps) 1 p1);
      [|lia | reflexivity].
    cbn [bind]. rewrite write_rows_spec. reflexivity.
Qed.

(** X13. What [write_solved_maze_file] writes reads back as the grid:
    when no cell holds a newline, [_parse_maze_file] applied to the text
    written gives the grid the maze had before the call; the call itself
    leaves every row of the maze's grid with a newline appended. *)
Theorem written_maze_reads_back
        (h : host) (filename : list ascii) (m m' : Maze)
        (name text : list ascii) :
  write_solved_maze_file h filename m = Ok (m', (name, text)) ->
  (forall row, In row (maze_arr m) -> ~ In NEWLINE row) ->
  _parse_maze_file text = maze_arr m
  /\ maze_arr m' = map (fun row => row ++ [NEWLINE]) (maze_arr m)
  /\ steps m' = steps m.
Proof.
  rewrite write_by_parts. intros H Hno.
  destruct (split DOT filename) as [|p0 [|p1 ps]]; try discriminate.
  cbv zeta in H.
  destruct (file_write h _ _); [discriminate|].
  inversion H; subst. simpl.
  split; [apply parse_written; exact Hno | auto].
Qed.

Lemma written_maze_reads_back_witness :
  let h := {| file_read := fun _ => inr OS_error;
              file_write := fun _ _ => None;
              image_save := fun _ _ => None |} in
  let m := {| maze_arr := grid_of ["A/"%string; "*B"%string];
              start_point := Some (0, 0);
              end_point := Some (1, 1);
              rows_count := 2;
              cells_count := 2;
              steps := 3 |} in
  let m' := set_maze_arr m (map (fun row => row ++ [NEWLINE]) (maze_arr m)) in
  let text := list_ascii_of_string "A/
*B
" in
  _parse_maze_file text = maze_arr m
  /\ maze_arr m' = map (fun row => row ++ [NEWLINE]) (maze_arr m)
  /\ steps m' = steps m.
Proof.
  intros h m m' text.
  apply (written_maze_reads_back h (list_ascii_of_string "m.txt") m m'
           (list_ascii_of_string "m_solved.txt") text).
  - reflexivity.
  - intros row [<-|[<-|[]]]; vm_compute; intuition discriminate.
Defined.

(** X14. A maze file read and written back reads the same: for every
    text, writing the rows that [_parse_maze_file] reads from it gives a
    text from which [_parse_maze_file] reads the same rows. *)
Theorem read_write_read (text : list ascii) :
  _parse_maze_file (snd (write_rows (_parse_maze_file text)))
  = _parse_maze_file text.
Proof.
  rewrite write_rows_spec. simpl. apply parse_written.
  intros row. apply parse_no_newline.
Qed.

(** X15. The newline at the end of the last line of a maze file is
    optional: a non-empty text that does not end with a newline is read
    as the same grid with and without a newline added at its end. *)
Theorem final_newline_is_optional (text : list ascii) :
  text <> [] -> last text NEWLINE <> NEWLINE ->
  _parse_maze_file (text ++ [NEWLINE]) = _parse_maze_file text.
Proof.
  induction text as [|c text IH]; intros Hne Hlast; [congruence|].
  destruct text as [|d text].
  - simpl in Hlast. simpl app. rewrite !parse_cons.
    apply Ascii.eqb_neq in Hlast. rewrite Hlast, Ascii.eqb_refl.
    rewrite parse_nil. reflexivity.
  - change ((c :: d :: text) ++ [NEWLINE])
      with (c :: ((d :: text) ++ [NEWLINE])).
    rewrite (parse_cons c ((d :: text) ++ [NEWLINE])),
            (parse_cons c (d :: text)).
    rewrite IH; [reflexivity | discriminate | exact Hlast].
Qed.

Lemma final_newline_is_optional_witness :
  _parse_maze_file (list_ascii_of_string "A B" ++ [NEWLINE])
  = _parse_maze_file (list_ascii_of_string "A B").
Proof.
  apply (final_newline_is_optional (list_ascii_of_string "A B")).
  - discriminate.
  - discriminate.
Defined.

Lemma parse_row_twice (row rest : list ascii) :
  ~ In NEWLINE row ->
  _parse_maze_file (row ++ NEWLINE :: NEWLINE :: rest)
  = row :: [] :: _parse_maze_file rest.
Proof.
  intros Hno. rewrite parse_row by exact Hno.
  f_equal; try (apply (parse_row [] rest); intros []).
Qed.

Lemma parse_written_twice (g : grid) :
  (forall row, In row g -> ~ In NEWLINE row) ->
  _parse_maze_file (concat (map (fun row => row ++ [NEWLINE; NEWLINE]) g))
  = flat_map (fun row => [row; []]) g.
Proof.
  induction g as [|row g IH]; intros Hno; [reflexivity|].
  simpl. rewrite <- app_assoc. simpl.
  rewrite parse_row_twice by (apply Hno; left; reflexivity).
  f_equal. f_equal. apply IH. intros r Hr. apply Hno. right. exact Hr.
Qed.

(** X16. [write_solved_maze_file] is not repeatable: it appends the
    newline to the rows of the maze itself, so a second call writes every
    row followed by two newlines, and that text reads back with an empty
    row after every row of the grid. *)
Theorem second_write_doubles_newlines
        (h : host) (filename : list ascii) (m m1 m2 : Maze)
        (name1 text1 name2 text2 : list ascii) :
  write_solved_maze_file h filename m = Ok (m1, (name1, text1)) ->
  write_solved_maze_file h filename m1 = Ok (m2, (name2, text2)) ->
  (forall row, In row (maze_arr m) -> ~ In NEWLINE row) ->
  text2 = concat (map (fun row => row ++ [NEWLINE; NEWLINE]) (maze_arr m))
  /\ _parse_maze_file text2 = flat_map (fun row => [row; []]) (maze_arr m)
  /\ name2 = name1.
Proof.
  rewrite !write_by_parts. intros H1 H2 Hno.
  destruct (split DOT filename) as [|p0 [|p1 ps]]; try discriminate.
  cbv zeta in H1, H2.
  destruct (file_write h _ _); [discriminate|].
  inversion H1; subst. cbn [maze_arr set_maze_arr] in H2.
  destruct (file_write h _ _); [discriminate|].
  inversion H2; subst. clear H1 H2.
  assert (E : concat (map (fun row => row ++ [NEWLINE])
                        (map (fun row => row ++ [NEWLINE]) (maze_arr m)))
              = concat (map (fun row => row ++ [NEWLINE; NEWLINE]) (maze_arr m))).
  { rewrite map_map. f_equal. apply map_ext. intros row.
    rewrite <- app_assoc. reflexivity. }
  rewrite E. split; [reflexivity|]. split; [|reflexivity].
  apply parse_written_twice. exact Hno.
Qed.

Lemma second_write_doubles_newlines_witness :
  let h := {| file_read := fun _ => inr OS_error;
              file_write := fun _ _ => None;
              image_save := fun _ _ => None |} in
  let m := {| maze_arr := grid_of ["AB"%string];
              start_point := Some (0, 0);
              end_point := Some (0, 1);
              rows_count := 1;
              cells_count := 2;
              steps := 2 |} in
  let name := list_ascii_of_string "m_solved.txt" in
  let text2 := [START; TARGET; NEWLINE; NEWLINE] in
  text2 = concat (map (fun row => row ++ [NEWLINE; NEWLINE]) (maze_arr m))
  /\ _parse_maze_file text2 = flat_map (fun row => [row; []]) (maze_arr m)
  /\ name = name.
Proof.
  intros h m name text2.
  apply (second_write_doubles_newlines h (list_ascii_of_string "m.txt") m
           (set_maze_arr m [[START; TARGET; NEWLINE]])
           (set_maze_arr m [[START; TARGET; NEWLINE; NEWLINE]])
           name [START; TARGET; NEWLINE] name text2).
  - reflexivity.
  - reflexivity.
  - intros row [<-|[]]. vm_compute. intuition discriminate.
Defined.

(** ** The name of the file written *)

Lemma split_no_sep (sep : ascii) (s : list ascii) :
  ~ In sep s -> split sep s = [s].
Proof.
  induction s as [|c s IH]; intros Hno; [reflexivity|].
  simpl. assert (NE : c <> sep) by (intros ->; apply Hno; left; reflexivity).
  apply Ascii.eqb_neq in NE. rewrite NE.
  rewrite IH; [reflexivity|]. intros H. apply Hno. right. exact H.
Qed.

Lemma split_app (sep : ascii) (a b : list ascii) :
  ~ In sep a -> split sep (a ++ sep :: b) = a :: split sep b.
Proof.
  induction a as [|c a IH]; intros Hno.
  - simpl. rewrite Ascii.eqb_refl. reflexivity.
  - simpl. assert (NE : c <> sep) by (intros ->; apply Hno; left; reflexivity).
    apply Ascii.eqb_neq in NE. rewrite NE.
    rewrite IH; [reflexivity|]. intros H. apply Hno. right. exact H.
Qed.

Lemma split_nonempty (sep : ascii) (s : list ascii) : split sep s <> [].
Proof.
  destruct s as [|c s]; simpl; [discriminate|].
  destruct (Ascii.eqb c sep); [discriminate|].
  destruct (split sep s); discriminate.
Qed.

Lemma in_split_first (sep : ascii) (s : list ascii) :
  In sep s -> exists a b, s = a ++ sep :: b /\ ~ In sep a.
Proof.
  induction s as [|c s IH]; intros H; [contradiction|].
  destruct (Ascii.eqb_spec c sep) as [->|NE].
  - exists [], s. split; [reflexivity | intros []].
  - destruct H as [E|H]; [congruence|].
    destruct (IH H) as (a & b & -> & Hno).
    exists (c :: a), b. split; [reflexivity|].
    intros [E|Ha]; [congruence | contradiction].
Qed.

(** X17. [write_solved_maze_file] raises the [IndexError] of
    [filename[1]] exactly when the file name contains no dot, whatever the
    maze and the host. *)
Theorem write_needs_a_dot (h : host) (filename : list ascii) (m : Maze) :
  write_solved_maze_file h filename m = Raise (IndexError NameParts)
  <-> ~ In DOT filename.
Proof.
  rewrite write_by_parts. split.
  - intros H Hin. destruct (in_split_first DOT filename Hin) as (a & b & -> & Hno).
    rewrite split_app in H by exact Hno.
    pose proof (split_nonempty DOT b) as Hne.
    destruct (split DOT b) as [|p ps]; [congruence|]. cbv zeta in H.
    destruct (file_write h _ _) as [[|]|]; discriminate.
  - intros Hno. rewrite split_no_sep by exact Hno. reflexivity.
Qed.

(** X18. The file that [write_solved_maze_file] opens is named by the
    part of the file name before its first dot, then "_solved.", then the
    part between the first and the second dot (or the end); further
    dot-separated parts are dropped, and its text is every row followed
    by a newline.  The call returns when the host opens and writes that
    file, and raises the host's error otherwise.  "maze1.txt" gives
    "maze1_solved.txt", and "./maze1.txt" gives "_solved./maze1". *)
Theorem written_file_name
        (h : host) (filename stem rest : list ascii) (m : Maze) :
  filename = stem ++ DOT :: rest -> ~ In DOT stem ->
  let name := stem ++ list_ascii_of_string "_solved."
                   ++ hd [] (split DOT rest) in
  let text := concat (map (fun row => row ++ [NEWLINE]) (maze_arr m)) in
  write_solved_maze_file h filename m
  = match file_write h name text with
    | None =>
        Ok (set_maze_arr m (map (fun row => row ++ [NEWLINE]) (maze_arr m)),
            (name, text))
    | Some e => Raise (raised e)
    end
  /\ (~ In DOT rest -> hd [] (split DOT rest) = rest).
Proof.
  intros -> Hno name text. subst name text. rewrite write_by_parts.
  rewrite split_app by exact Hno.
  pose proof (split_nonempty DOT rest) as Hne.
  destruct (split DOT rest) as [|p ps] eqn:E; [congruence|]. cbn [hd].
  split; [reflexivity|].
  intros Hr. rewrite split_no_sep in E by exact Hr. inversion E. reflexivity.
Qed.

Lemma written_file_name_witness :
  let h := {| file_read := fun _ => inr OS_error;
              file_write := fun name _ =>
                if String.eqb (string_of_list_ascii name) "_solved./maze1"
                then Some OS_error else None;
              image_save := fun _ _ => None |} in
  (exists m' text,
     write_solved_maze_file h (list_ascii_of_string "maze1.txt")
                            second_start_maze
     = Ok (m', (list_ascii_of_string "maze1_solved.txt", text)))
  /\ write_solved_maze_file h (list_ascii_of_string "./maze1.txt")
                            second_start_maze
     = Raise OSError.
Proof.
  intros h. split.
  - destruct (written_file_name h (list_ascii_of_string "maze1.txt")
                (list_ascii_of_string "maze1") (list_ascii_of_string "txt")
                second_start_maze eq_refl) as [E _].
    + vm_compute. intuition discriminate.
    + do 2 eexists. exact E.
  - destruct (written_file_name h (list_ascii_of_string "./maze1.txt")
                [] (list_ascii_of_string "/maze1.txt")
                second_start_maze eq_refl) as [E _].
    + intros [].
    + exact E.
Defined.

(** ** Drawing *)

Lemma draw_row_In (i : Z) (r : rectangle) : forall row j,
  In r (draw_row i j row) <->
  exists k c, nth_error row k = Some c
              /\ r = cell_rectangle i (j + Z.of_nat k) c.
Proof.
  induction row as [|col row IH]; intros j; simpl.
  - split; [intros [] | intros ([|k] & c & H & _); discriminate].
  - rewrite IH. split.
    + intros [<-|(k & c & Hk & ->)].
      * exists O, col. split; [reflexivity|]. f_equal. simpl. lia.
      * exists (S k), c. split; [exact Hk|]. f_equal. lia.
    + intros ([|k] & c & Hk & ->); simpl in Hk.
      * left. inversion Hk; subst. f_equal. simpl. lia.
      * right. exists k, c. split; [exact Hk|]. f_equal. lia.
Qed.

Lemma draw_rows_In (r : rectangle) : forall rows i,
  In r (draw_rows i rows) <->
  exists ri k row c,
    nth_error rows ri = Some row /\ nth_error row k = Some c
    /\ r = cell_rectangle (i + Z.of_nat ri) (Z.of_nat k) c.
Proof.
  induction rows as [|row rows IH]; intros i; simpl.
  - split; [intros [] | intros ([|ri] & k & row & c & H & _); discriminate].
  - rewrite in_app_iff, IH, draw_row_In. split.
    + intros [(k & c & Hk & ->)|(ri & k & row' & c & Hr & Hk & ->)].
      * exists O, k, row, c. split; [reflexivity|]. split; [exact Hk|].
        f_equal; simpl; lia.
      * exists (S ri), k, row', c. split; [exact Hr|]. split; [exact Hk|].
        f_equal; lia.
    + intros ([|ri] & k & row' & c & Hr & Hk & ->); simpl in Hr.
      * left. inversion Hr; subst. exists k, c. split; [exact Hk|].
        f_equal; simpl; lia.
      * right. exists ri, k, row', c. split; [exact Hr|]. split; [exact Hk|].
        f_equal; lia.
Qed.

Lemma draw_cells (g : grid) (r : rectangle) :
  In r (draw_rows 0 g) <->
  exists x y c, cell g (x, y) = Some c /\ r = cell_rectangle x y c.
Proof.
  rewrite draw_rows_In. split.
  - intros (ri & k & row & c & Hr & Hk & ->).
    exists (Z.of_nat ri), (Z.of_nat k), c. split; [|reflexivity].
    eapply cell_nth; eauto.
  - intros (x & y & c & Hc & ->).
    apply cell_Some_inv in Hc as (Hx & Hy & row & Hr & Hk).
    exists (Z.to_nat x), (Z.to_nat y), row, c.
    split; [exact Hr|]. split; [exact Hk|]. f_equal; lia.
Qed.

Lemma draw_row_length (i : Z) : forall row j,
  length (draw_row i j row) = length row.
Proof. induction row as [|c row IH]; intros j; simpl; auto. Qed.

Lemma draw_rows_length : forall rows i,
  length (draw_rows i rows) = length (concat rows).
Proof.
  induction rows as [|row rows IH]; intros i; simpl; auto.
  rewrite !length_app, draw_row_length, IH. reflexivity.
Qed.

Lemma concat_length_uniform (g : grid) (n : Z) :
  forallb (fun row => len row =? n) g = true ->
  Z.of_nat (length (concat g)) = len g * n.
Proof.
  induction g as [|row g IH]; cbn [forallb concat]; intros H.
  - reflexivity.
  - apply andb_true_iff in H. destruct H as [H1 H2]. apply Z.eqb_eq in H1.
    rewrite length_app, Nat2Z.inj_add, (IH H2).
    change (len (row :: g)) with (Z.of_nat (S (length g))).
    rewrite Nat2Z.inj_succ. unfold len in *. nia.
Qed.

Lemma draw_image_by_save (h : host) (filename : list ascii) (m : Maze) :
  maze_arr m <> [] ->
  let width := CELL_WIDTH * len (hd [] (maze_arr m)) in
  let height := CELL_WIDTH * len (maze_arr m) in
  let rects := draw_rows 0 (maze_arr m) in
  draw_image h filename m =
    match image_save h filename (width, height) with
    | None => Ok ((width, height), rects)
    | Some e => Raise (raised e)
    end.
Proof.
  intros Hne. unfold draw_image.
  destruct (maze_arr m) as [|row0 g] eqn:E; [congruence|].
  rewrite subscript_head. reflexivity.
Qed.

Lemma draw_rows_spec (g : grid) :
  rectangular g = true ->
  let width := CELL_WIDTH * len (hd [] g) in
  let height := CELL_WIDTH * len g in
  Z.of_nat (length (draw_rows 0 g)) = len g * len (hd [] g)
  /\ (forall r, In r (draw_rows 0 g) ->
        0 <= fst (corner0 r) < width /\ 0 <= snd (corner0 r) < height
        /\ fst (corner1 r) = fst (corner0 r) + CELL_WIDTH
        /\ snd (corner1 r) = snd (corner0 r) + CELL_WIDTH
        /\ fst (corner1 r) <= width /\ snd (corner1 r) <= height).
Proof.
  intros Hrect width height. split.
  - rewrite draw_rows_length. apply concat_length_uniform. exact Hrect.
  - intros r Hr. apply draw_cells in Hr. destruct Hr as (x & y & c & Hc & ->).
    assert (Hin : in_grid (len g) (len (hd [] g)) (x, y)).
    { apply (rectangular_bounds _ Hrect). congruence. }
    destruct Hin as [Hx Hy]. simpl in Hx, Hy.
    unfold cell_rectangle, CELL_WIDTH. cbn [corner0 corner1 fst snd].
    subst width height. unfold CELL_WIDTH. lia.
Qed.

(** X19. On a rectangular grid with at least one cell [draw_image] makes
    an image of 70 times the number of columns by 70 times the number of
    rows and calls [draw.rectangle] once per cell: as many calls as the
    grid has cells, the call for the cell in row x and column y having
    the corners (70 y, 70 x) and (70 y + 70, 70 x + 70) and the colour of
    the cell's marker as fill; the first corner is a pixel of the image
    and the second is at most (width, height).  Then [img.save] decides:
    the call returns when the save succeeds and raises the save's
    [ValueError] or [OSError] otherwise. *)
Theorem draw_image_covers_grid (h : host) (filename : list ascii) (m : Maze) :
  maze_arr m <> [] -> hd [] (maze_arr m) <> [] ->
  rectangular (maze_arr m) = true ->
  let width := CELL_WIDTH * len (hd [] (maze_arr m)) in
  let height := CELL_WIDTH * len (maze_arr m) in
  let rects := draw_rows 0 (maze_arr m) in
  draw_image h filename m =
    match image_save h filename (width, height) with
    | None => Ok ((width, height), rects)
    | Some e => Raise (raised e)
    end
  /\ Z.of_nat (length rects) = len (maze_arr m) * len (hd [] (maze_arr m))
  /\ (forall r, In r rects <->
                exists x y c, cell (maze_arr m) (x, y) = Some c
                              /\ r = cell_rectangle x y c)
  /\ (forall r, In r rects ->
        0 <= fst (corner0 r) < width /\ 0 <= snd (corner0 r) < height
        /\ fst (corner1 r) = fst (corner0 r) + CELL_WIDTH
        /\ snd (corner1 r) = snd (corner0 r) + CELL_WIDTH
        /\ fst (corner1 r) <= width /\ snd (corner1 r) <= height).
Proof.
  intros Hne _ Hrect width height rects.
  split; [apply draw_image_by_save; exact Hne|].
  destruct (draw_rows_spec (maze_arr m) Hrect) as [Hcount Hcorners].
  split; [exact Hcount|]. split; [|exact Hcorners].
  intros r. apply draw_cells.
Qed.

Lemma draw_image_covers_grid_witness :
  let h := {| file_read := fun _ => inr OS_error;
              file_write := fun _ _ => None;
              image_save := fun name _ =>
                if String.eqb (string_of_list_ascii name) ".png"
                then Some Value_error else None |} in
  let m := second_start_maze in
  draw_image h (list_ascii_of_string "maze.png") m
  = Ok ((350, 70), draw_rows 0 (maze_arr m))
  /\ draw_image h (list_ascii_of_string ".png") m = Raise ValueError
  /\ Z.of_nat (length (draw_rows 0 (maze_arr m))) = 5.
Proof.
  intros h m.
  destruct (draw_image_covers_grid h (list_ascii_of_string "maze.png") m)
    as (E1 & Hcount & _); [discriminate | discriminate | reflexivity |].
  destruct (draw_image_covers_grid h (list_ascii_of_string ".png") m)
    as (E2 & _); [discriminate | discriminate | reflexivity |].
  split; [exact E1|]. split; [exact E2 | exact Hcount].
Defined.

Lemma forallb_lengths (g : grid) (n : Z) :
  forallb (fun row => len row =? n) g
  = forallb (fun k => Z.of_nat k =? n) (map (@length ascii) g).
Proof.
  induction g as [|row g IH]; simpl; auto. rewrite IH. reflexivity.
Qed.

Lemma same_lengths_rectangular (g g' : grid) :
  map (@length ascii) g' = map (@length ascii) g ->
  rectangular g' = rectangular g /\ len g' = len g
  /\ len (hd [] g') = len (hd [] g) /\ (g' = [] <-> g = []).
Proof.
  intros H. unfold rectangular. rewrite !forallb_lengths, H.
  assert (Hl : len g' = len g).
  { unfold len. rewrite <- (length_map (@length ascii) g'), H, length_map.
    reflexivity. }
  destruct g as [|r g], g' as [|r' g']; simpl in H; try discriminate.
  - repeat split; auto.
  - inversion H. unfold len at 1 3 5. simpl hd. rewrite H1.
    repeat split; auto; discriminate.
Qed.

Lemma input_grid_cell (g : grid) (p : coord) (c : ascii) :
  input_grid g = true -> cell g p = Some c -> input_marker c = true.
Proof.
  unfold input_grid. rewrite forallb_forall. intros H Hc.
  destruct p as [x y]. apply cell_Some_inv in Hc as (_ & _ & row & Hr & Hk).
  apply nth_error_In in Hr, Hk. specialize (H row Hr).
  rewrite forallb_forall in H. apply H. exact Hk.
Qed.

Lemma solved_cell_has_color (c c' : ascii) :
  input_marker c = true -> solved_cell c c' -> COLORS_get c' <> None.
Proof.
  unfold input_marker. rewrite !orb_true_iff, !Ascii.eqb_eq.
  intros Hc [->|[[_ ->]|(-> & _)]]; try discriminate.
  destruct Hc as [[[->| ->]| ->]| ->]; discriminate.
Qed.

Lemma valid_solve_steps
      (g : grid) (m : Maze) (s tg : coord) (k : discipline) (fuel : nat) :
  valid_grid g -> Maze_init g = Ok m ->
  start_point m = Some s -> end_point m = Some tg ->
  len g * len (hd [] g) <= Z.of_nat fuel ->
  exists b m' f',
    solve fuel m (new_frontier k) = Ok (b, m', f')
    /\ steps m' = len (explored_nodes f')
    /\ 1 <= steps m' <= len g * len (hd [] g).
Proof.
  intros Hv Hi Hs Ht Hfuel.
  destruct (valid_solve_run g m s tg k fuel Hv Hi Hs Ht Hfuel)
    as (Hst & Htg & Hut & Hs0 & r & m1 & f' & _ & Hm1 & Hsteps & Hr).
  destruct r as [t|].
  - destruct Hr as (Hfound & m2 & p & _ & Hsolve & Hst2 & _).
    destruct (found_at_size g _ _ s Hst _ t f' Hfound) as [Hsz _].
    exists true, m2, f'. split; auto. split; [lia|].
    destruct Hfound as (_ & m3 & f1 & rest & _ & _ & _ & Hf').
    rewrite Hf' in *. simpl in *. unfold len in *.
    rewrite length_app in *. simpl in *. lia.
  - destruct Hr as (Hinv & Hn & Hsolve).
    exists false, m1, f'. split; auto. split; [lia|].
    destruct Hst as (Hb & _).
    pose proof (inv_size g _ _ s Hb m1 f' Hinv) as Hsz.
    pose proof (inv_root _ _ _ _ _ _ Hinv) as Hroot.
    rewrite Hn, app_nil_r in Hroot. rewrite Hn in Hsz.
    unfold len in *. destruct (explored_nodes f'); [contradiction|].
    simpl in *. lia.
Qed.

(** A grid that [solve] leaves behind on a valid grid of the four input
    markers: same shape, and every cell holds a character of the colour
    table. *)
Lemma solved_grid_drawable
      (g : grid) (m : Maze) (s tg : coord) (k : discipline) (fuel : nat) :
  valid_grid g -> input_grid g = true -> Maze_init g = Ok m ->
  start_point m = Some s -> end_point m = Some tg ->
  len g * len (hd [] g) <= Z.of_nat fuel ->
  exists b m' f',
    solve fuel m (new_frontier k) = Ok (b, m', f')
    /\ 1 <= steps m' <= len g * len (hd [] g)
    /\ maze_arr m' <> []
    /\ len (maze_arr m') = len g
    /\ len (hd [] (maze_arr m')) = len (hd [] g)
    /\ Z.of_nat (length (draw_rows 0 (maze_arr m'))) = len g * len (hd [] g)
    /\ (forall r, In r (draw_rows 0 (maze_arr m')) -> fill r <> None).
Proof.
  intros Hv Hin Hi Hs Ht Hfuel.
  destruct (valid_solve_cells g m s tg k fuel Hv Hi Hs Ht Hfuel)
    as (b & m' & f' & Hsolve & Hcells).
  destruct (valid_solve_steps g m s tg k fuel Hv Hi Hs Ht Hfuel)
    as (b2 & m2 & f2 & Hsolve2 & _ & Hbound).
  rewrite Hsolve in Hsolve2. inversion Hsolve2; subst b2 m2 f2.
  pose proof (solve_dimensions _ _ _ _ _ _ Hsolve) as (Hlen & _).
  pose proof (Maze_init_cases g) as Hcase. rewrite Hi in Hcase.
  destruct Hcase as (Hne & Hrect & Hm & _).
  assert (Hg : maze_arr m = g) by (rewrite Hm; reflexivity).
  rewrite Hg in Hlen.
  destruct (same_lengths_rectangular g (maze_arr m') Hlen)
    as (Hr' & Hl1 & Hl2 & Hnil).
  assert (Hrect' : rectangular (maze_arr m') = true)
    by (rewrite Hr'; exact Hrect).
  destruct (draw_rows_spec (maze_arr m') Hrect') as [Hcount _].
  rewrite Hl1, Hl2 in Hcount.
  exists b, m', f'. split; [exact Hsolve|]. split; [exact Hbound|].
  split; [intros E; apply Hne, Hnil, E|].
  split; [exact Hl1|]. split; [exact Hl2|]. split; [exact Hcount|].
  intros r Hr. apply draw_cells in Hr. destruct Hr as (x & y & c' & Hc' & ->).
  simpl. specialize (Hcells (x, y)). rewrite Hc' in Hcells.
  destruct (cell g (x, y)) as [c|] eqn:Hc; [|contradiction].
  apply (solved_cell_has_color c c'); auto.
  eapply input_grid_cell; eauto.
Qed.

(** X20. A solved maze is drawn in full: after [solve] on a valid grid
    made of the four input markers, [draw_image] makes an image of 70
    times the columns by 70 times the rows of the grid and one
    [draw.rectangle] call per cell, each with a fill colour (no cell holds
    a character outside the colour table); it returns when [img.save]
    succeeds and raises the save's error otherwise. *)
Theorem solved_maze_is_drawn_in_full
        (h : host) (filename : list ascii)
        (g : grid) (m : Maze) (s tg : coord) (k : discipline) (fuel : nat) :
  valid_grid g -> input_grid g = true -> Maze_init g = Ok m ->
  start_point m = Some s -> end_point m = Some tg ->
  len g * len (hd [] g) <= Z.of_nat fuel ->
  let size := (CELL_WIDTH * len (hd [] g), CELL_WIDTH * len g) in
  exists b m' f',
    solve fuel m (new_frontier k) = Ok (b, m', f')
    /\ draw_image h filename m' =
         match image_save h filename size with
         | None => Ok (size, draw_rows 0 (maze_arr m'))
         | Some e => Raise (raised e)
         end
    /\ Z.of_nat (length (draw_rows 0 (maze_arr m'))) = len g * len (hd [] g)
    /\ (forall r, In r (draw_rows 0 (maze_arr m')) -> fill r <> None).
Proof.
  intros Hv Hin Hi Hs Ht Hfuel size.
  destruct (solved_grid_drawable g m s tg k fuel Hv Hin Hi Hs Ht Hfuel)
    as (b & m' & f' & Hsolve & _ & Hne & Hl1 & Hl2 & Hcount & Hfill).
  exists b, m', f'. split; [exact Hsolve|]. split; [|split; assumption].
  rewrite (draw_image_by_save h filename m' Hne). rewrite Hl1, Hl2.
  reflexivity.
Qed.

Lemma solved_maze_is_drawn_in_full_witness :
  let h := {| file_read := fun _ => inr OS_error;
              file_write := fun _ _ => None;
              image_save := fun _ _ => None |} in
  let m := {| maze_arr := around_wall;
              start_point := Some (0, 0);
              end_point := Some (2, 2);
              rows_count := 3;
              cells_count := 3;
              steps := 0 |} in
  exists b m' f',
    solve 9 m (new_frontier QueueFrontier) = Ok (b, m', f')
    /\ draw_image h (list_ascii_of_string "maze.png") m'
       = Ok ((210, 210), draw_rows 0 (maze_arr m'))
    /\ Z.of_nat (length (draw_rows 0 (maze_arr m'))) = 9
    /\ (forall r, In r (draw_rows 0 (maze_arr m')) -> fill r <> None).
Proof.
  intros h m.
  apply (solved_maze_is_drawn_in_full h (list_ascii_of_string "maze.png")
           around_wall m (0, 0) (2, 2) QueueFrontier 9);
    reflexivity || (vm_compute; discriminate).
Defined.

(** ** The script *)



(** X22. The script stops before solving or drawing anything when its
    input is unusable: with a number of command-line arguments other than
    two it prints its usage message and exits with code 1; with two
    arguments and a file whose grid is empty, has rows of different
    lengths or lacks a start or a target marker it ends with the
    configuration error of the constructor, uncaught, having printed
    nothing; and likewise with the error of [open] or of the decoding
    when the file cannot be read. *)
Theorem main_stops_on_unusable_input
        (h : host) (fuel : nat) (argv : list (list ascii)) :
  (length argv <> 2%nat ->
   main h fuel argv
   = ([Text "Invalid Command Line arguments. Maze file location required."],
      Exit 1))
  /\ (forall prog filename text,
        argv = [prog; filename] ->
        file_read h filename = inl text ->
        let g := _parse_maze_file text in
        g = [] \/ rectangular g = false
        \/ count_cells START g = 0%nat \/ count_cells TARGET g = 0%nat ->
        exists msg, main h fuel argv = ([], Uncaught (ConfigError msg)))
  /\ (forall prog filename e,
        argv = [prog; filename] ->
        file_read h filename = inr e ->
        main h fuel argv = ([], Uncaught (raised e))).
Proof.
  split; [|split].
  - intros Hlen. unfold main.
    destruct argv as [|a [|b [|c l]]]; simpl in Hlen; try congruence; eauto.
  - intros prog filename text -> Hread g Hbad. unfold main, Maze_of_file.
    rewrite Hread. fold g. pose proof (Maze_init_cases g) as Hcase.
    destruct (Maze_init g) as [m|e].
    + exfalso. destruct Hcase as (Hne & Hrect & _ & (s & _ & Hs) & (t & _ & Ht)).
      apply count_cells_pos in Hs, Ht.
      destruct Hbad as [E|[E|[E|E]]]; try congruence; lia.
    + destruct Hcase as ((msg & ->) & _). eauto.
  - intros prog filename e -> Hread. unfold main, Maze_of_file.
    rewrite Hread. reflexivity.
Qed.

Lemma main_stops_on_unusable_input_witness :
  let h := {| file_read := fun _ => inl [];
              file_write := fun _ _ => None;
              image_save := fun _ _ => None |} in
  exists msg,
    main h 0 [list_ascii_of_string "maze0.py"; list_ascii_of_string "empty.txt"]
    = ([], Uncaught (ConfigError msg)).
Proof.
  intros h.
  apply (proj1 (proj2 (main_stops_on_unusable_input h 0
                         [list_ascii_of_string "maze0.py";
                          list_ascii_of_string "empty.txt"]))
               (list_ascii_of_string "maze0.py")
               (list_ascii_of_string "empty.txt") [] eq_refl eq_refl).
  left. reflexivity.
Defined.

(** ** Path reconstruction on an arbitrary node *)

Lemma set_cell_raises_grid (g : grid) (x y : Z) (v : ascii) :
  raises_only (fun e => e = IndexError GridCell) (set_cell g x y v).
Proof.
  unfold set_cell. apply raises_only_bind; [apply subscript_raises|].
  intros row _. apply raises_only_bind; [apply store_raises|].
  intros row' _. apply store_raises.
Qed.

Lemma mark_path_by_cells : forall (d : nat) (n : Node) (arr : grid),
  depth n = d ->
  match mark_path arr n with
  | Ok arr' =>
      exists pre x post,
        chain n = pre ++ x :: post
        /\ node_state x = START
        /\ (forall y, In y pre -> node_state y <> START)
        /\ mark_cells arr pre = Ok arr'
  | Raise AttributeError =>
      (forall y, In y (chain n) -> node_state y <> START)
      /\ exists arr', mark_cells arr (chain n) = Ok arr'
  | Raise e =>
      e = IndexError GridCell
      /\ exists pre y post arr1,
           chain n = pre ++ y :: post
           /\ (forall z, In z (pre ++ [y]) -> node_state z <> START)
           /\ mark_cells arr pre = Ok arr1
           /\ set_cell arr1 (node_x y) (node_y y) PATH
              = Raise (IndexError GridCell)
  end.
Proof.
  induction d as [|d IH]; intros n arr Hd; rewrite mark_path_eq, chain_eq;
    rewrite depth_eq in Hd;
    (destruct (Ascii.eqb (node_state n) START) eqn:E; cbn [negb];
     [ apply Ascii.eqb_eq in E; exists [], n; eexists;
       split; [reflexivity|]; split; [exact E|];
       split; [intros y [] | reflexivity]
     | apply Ascii.eqb_neq in E ]);
    pose proof (set_cell_raises_grid arr (node_x n) (node_y n) PATH) as Hset;
    (destruct (set_cell arr (node_x n) (node_y n) PATH) as [arr1|e] eqn:Hs;
     [ cbn [bind]
     | cbn [bind]; rewrite (Hset e eq_refl) in *;
       split; [reflexivity|]; exists [], n; do 2 eexists;
       split; [reflexivity|];
       split; [intros z [<-|[]]; exact E|];
       split; [reflexivity | exact Hs] ]);
    destruct (node_parent n) as [p|]; try discriminate.
  - split; [intros y [<-|[]]; exact E|].
    exists arr1. cbn [mark_cells]. rewrite Hs. reflexivity.
  - assert (Hp : depth p = d) by lia.
    specialize (IH p arr1 Hp).
    assert (Hcons : forall pre, mark_cells arr (n :: pre) = mark_cells arr1 pre).
    { intros pre. cbn [mark_cells]. rewrite Hs. reflexivity. }
    assert (Hn : forall pre, (forall y, In y pre -> node_state y <> START) ->
                 forall y, In y (n :: pre) -> node_state y <> START).
    { intros pre H y [<-|Hy]; [exact E | apply H, Hy]. }
    destruct (mark_path arr1 p) as [arr2|e].
    + destruct IH as (pre & x & post & Hc & Hx & Hpre & Hmk).
      exists (n :: pre), x, post. split; [rewrite Hc; reflexivity|].
      split; [exact Hx|]. split; [apply Hn, Hpre|].
      rewrite Hcons. exact Hmk.
    + destruct e;
        try (destruct IH as (He & pre & y & post & a1 & Hc & Hns & Hmk & Hf);
             split; [exact He|];
             exists (n :: pre), y, post, a1;
             split; [rewrite Hc; reflexivity|];
             split; [apply (Hn (pre ++ [y])), Hns|];
             split; [rewrite Hcons; exact Hmk | exact Hf]).
      destruct IH as (Hns & arr' & Hmk).
      split; [apply Hn, Hns|]. exists arr'. rewrite Hcons. exact Hmk.
Qed.

(** The cells after a run of item assignments inside the grid. *)
Lemma mark_cells_cells : forall (l : list Node) (arr arr' : grid),
  mark_cells arr l = Ok arr' ->
  (forall y, In y l -> cell arr (node_coord y) <> None) ->
  forall q,
    (In q (coords l) -> cell arr' q = Some PATH)
    /\ (~ In q (coords l) -> cell arr' q = cell arr q).
Proof.
  induction l as [|n l IH]; intros arr arr' H Hin q.
  - inversion H; subst. split; [intros [] | reflexivity].
  - cbn [mark_cells] in H. apply bind_Ok in H. destruct H as (arr1 & Hs & H).
    destruct (cell arr (node_coord n)) as [c|] eqn:Hc;
      [|exfalso; apply (Hin n); [left; reflexivity | exact Hc]].
    destruct (set_cell_cell arr (node_x n) (node_y n) c PATH Hc)
      as (g' & Hs' & Hg').
    rewrite Hs in Hs'. inversion Hs'; subst g'. clear Hs'.
    assert (Hin1 : forall y, In y l -> cell arr1 (node_coord y) <> None).
    { intros y Hy. rewrite Hg'.
      destruct (coord_eq_dec (node_coord y) (node_x n, node_y n));
        [discriminate | apply Hin; right; exact Hy]. }
    destruct (IH arr1 arr' H Hin1 q) as [H1 H2].
    cbn [coords map]. fold (coords l).
    destruct (in_dec coord_eq_dec q (coords l)) as [Hq|Hq].
    + split; [intros _; apply H1, Hq|]. intros Hno. exfalso. apply Hno.
      right. exact Hq.
    + rewrite (H2 Hq), Hg'. unfold node_coord.
      destruct (coord_eq_dec q (node_x n, node_y n)) as [->|NE].
      * split; [reflexivity|]. intros Hno. exfalso. apply Hno. left.
        reflexivity.
      * split; [|reflexivity]. intros [Eq|Hq']; [congruence | contradiction].
Qed.

(** X23. [_apply_solution] on any maze and any node, the walk starting at
    the node's parent.  When it returns, some node above the given one
    holds the start marker as state, and the grid it leaves is the grid
    after the assignments of the path marker to the cells of the nodes
    before the first such node, in chain order, and to no others -- the
    walk stops at the first start-state node -- while nothing else of the
    maze changes; when those nodes lie inside the grid, exactly their
    cells hold the path marker anew.  When it raises [AttributeError], no
    node above the given one holds the start marker and every assignment
    succeeded (the walk ran off the root).  Any other error is the
    [IndexError] of the first assignment that fails, before any
    start-state node. *)
Theorem apply_solution_stops_at_first_start (m : Maze) (node : Node) :
  match _apply_solution m node with
  | Ok m' =>
      exists pre x post,
        tl (chain node) = pre ++ x :: post
        /\ node_state x = START
        /\ (forall y, In y pre -> node_state y <> START)
        /\ mark_cells (maze_arr m) pre = Ok (maze_arr m')
        /\ m' = set_maze_arr m (maze_arr m')
        /\ ((forall y, In y pre -> cell (maze_arr m) (node_coord y) <> None) ->
            forall q,
              (In q (coords pre) -> cell (maze_arr m') q = Some PATH)
              /\ (~ In q (coords pre) ->
                    cell (maze_arr m') q = cell (maze_arr m) q))
  | Raise AttributeError =>
      (forall y, In y (tl (chain node)) -> node_state y <> START)
      /\ exists arr, mark_cells (maze_arr m) (tl (chain node)) = Ok arr
  | Raise e =>
      e = IndexError GridCell
      /\ exists pre y post arr1,
           tl (chain node) = pre ++ y :: post
           /\ (forall z, In z (pre ++ [y]) -> node_state z <> START)
           /\ mark_cells (maze_arr m) pre = Ok arr1
           /\ set_cell arr1 (node_x y) (node_y y) PATH
              = Raise (IndexError GridCell)
  end.
Proof.
  unfold _apply_solution. rewrite (chain_eq node). cbn [tl].
  destruct (node_parent node) as [p|].
  - pose proof (mark_path_by_cells (depth p) p (maze_arr m) eq_refl) as H.
    destruct (mark_path (maze_arr m) p) as [arr|e]; cbn [bind].
    + destruct H as (pre & x & post & Hc & Hx & Hpre & Hmk).
      exists pre, x, post. cbn [maze_arr].
      split; [exact Hc|]. split; [exact Hx|]. split; [exact Hpre|].
      split; [exact Hmk|]. split; [reflexivity|].
      intros Hin. apply (mark_cells_cells pre (maze_arr m) arr Hmk Hin).
    + exact H.
  - split; [intros y [] | exists (maze_arr m); reflexivity].
Qed.

(** The three endings on concrete chains over the grid "B A A":
    a chain with a start-state node above, a chain without one, and a
    chain whose first node lies outside the grid. *)
Example apply_solution_endings :
  let root := {| node_state := START; node_parent := None;
                 node_x := 0; node_y := 4; node_action := None |} in
  let mid := {| node_state := OPEN; node_parent := Some root;
                node_x := 0; node_y := 3; node_action := Some LEFT |} in
  let top := {| node_state := TARGET; node_parent := Some mid;
                node_x := 0; node_y := 2; node_action := Some LEFT |} in
  let lone := {| node_state := OPEN; node_parent := None;
                 node_x := 0; node_y := 1; node_action := None |} in
  let far := {| node_state := OPEN; node_parent := None;
                node_x := 7; node_y := 0; node_action := None |} in
  let above n := {| node_state := TARGET; node_parent := Some n;
                    node_x := 0; node_y := 0; node_action := None |} in
  _apply_solution second_start_maze top
  = Ok (set_maze_arr second_start_maze (grid_of ["B A*A"%string]))
  /\ _apply_solution second_start_maze (above lone) = Raise AttributeError
  /\ _apply_solution second_start_maze (above far)
     = Raise (IndexError GridCell).
Proof. repeat split. Qed.
